(** * dbus-deviation: the interface comparator and the recovering parser

    A shallow embedding of [dbusdeviation/interfacecomparator.py] (class
    [InterfaceComparator]) together with the part of the [dbusapi.ast] data
    model it reads, and the properties of the comparison rules. *)

From Stdlib Require Import String Ascii List Bool Arith PeanoNat Lia.
From Stdlib Require Import DecimalString Permutation.
Import ListNotations.
Local Open Scope string_scope.
Local Open Scope list_scope.

(** ** Python values *)

Module Py.

(** A Python [dict] with string keys, in iteration (insertion) order.  A
    dictionary never holds a key twice: see [well_keyed]. *)
Definition dict (V : Type) : Type := list (string * V).

Section Dict.
Context {V : Type}.

(** [k in d] *)
Definition contains (k : string) (d : dict V) : bool :=
  existsb (fun kv => String.eqb k (fst kv)) d.

(** [d[k]]; [None] stands for the [KeyError] of a missing key. *)
Fixpoint getitem (d : dict V) (k : string) : option V :=
  match d with
  | [] => None
  | (k', v) :: rest => if String.eqb k k' then Some v else getitem rest k
  end.

(** [d.items()] *)
Definition items (d : dict V) : list (string * V) := d.

Definition keys (d : dict V) : list string := map fst d.

(** The representation invariant of a dictionary: no key occurs twice. *)
Fixpoint well_keyed (d : dict V) : bool :=
  match d with
  | [] => true
  | (k, _) :: rest => negb (contains k rest) && well_keyed rest
  end.
End Dict.

(** [x in l] for a list of strings. *)
Definition str_in (x : string) (l : list string) : bool :=
  existsb (String.eqb x) l.

(** ['%s' % v] for a value that is a string or [None]. *)
Definition format_s (v : option string) : string :=
  match v with
  | Some s => s
  | None => "None"
  end.

(** ['%u' % n] *)
Definition format_u (n : nat) : string :=
  NilEmpty.string_of_uint (Nat.to_uint n).

(** [range(n)] *)
Definition range (n : nat) : list nat := seq 0 n.

End Py.

Import Py.

(** ** The AST read by the comparator *)

(** Modelled from the spec: the module [dbusapi.ast] is not part of the
    sources at hand; the node records below carry the attributes the
    comparator reads, as the data model describes them (section 3). *)
Module ASTAnnotation.
Record t : Type := Build { name : string; value : string }.
End ASTAnnotation.

Module ASTArgument.
(** [name] and [direction] are optional attributes; [index] is the position
    of the argument in the argument list of its parent. *)
Record t : Type := Build {
  name : option string;
  type : string;
  direction : option string;
  index : nat;
  annotations : dict ASTAnnotation.t
}.
End ASTArgument.

Module ASTMethod.
Record t : Type := Build {
  name : string;
  arguments : list ASTArgument.t;
  annotations : dict ASTAnnotation.t
}.
End ASTMethod.

Module ASTSignal.
Record t : Type := Build {
  name : string;
  arguments : list ASTArgument.t;
  annotations : dict ASTAnnotation.t
}.
End ASTSignal.

Module ASTProperty.
(** Modelled from the spec: the access modes are read, write and
    readwrite. *)
Definition ACCESS_READ : string := "read".
Definition ACCESS_WRITE : string := "write".
Definition ACCESS_READWRITE : string := "readwrite".

Record t : Type := Build {
  name : string;
  type : string;
  access : string;
  annotations : dict ASTAnnotation.t
}.
End ASTProperty.

Module ASTInterface.
Record t : Type := Build {
  name : string;
  methods : dict ASTMethod.t;
  properties : dict ASTProperty.t;
  signals : dict ASTSignal.t;
  annotations : dict ASTAnnotation.t
}.
End ASTInterface.

(** A node as the comparator handles it: the node together with its parent
    back-reference ([node.interface] for a member of an interface,
    [node.parent] for an argument).  The back-reference is set when the node
    is inserted into its container, so it is never [None] here. *)
Inductive node : Type :=
| InterfaceNode (i : ASTInterface.t)
| MethodNode (interface : node) (m : ASTMethod.t)
| SignalNode (interface : node) (s : ASTSignal.t)
| PropertyNode (interface : node) (p : ASTProperty.t)
| ArgumentNode (parent : node) (a : ASTArgument.t).

(** [node.annotations] *)
Definition annotations (n : node) : dict ASTAnnotation.t :=
  match n with
  | InterfaceNode i => ASTInterface.annotations i
  | MethodNode _ m => ASTMethod.annotations m
  | SignalNode _ s => ASTSignal.annotations s
  | PropertyNode _ p => ASTProperty.annotations p
  | ArgumentNode _ a => ASTArgument.annotations a
  end.

(** ** The comparator's effects *)

(** Output severity levels. *)
Definition OUTPUT_INFO : nat := 0.
Definition OUTPUT_FORWARDS_INCOMPATIBLE : nat := 1.
Definition OUTPUT_BACKWARDS_INCOMPATIBLE : nat := 2.

(** Warning categories. *)
Definition WARNING_CATEGORIES : list string :=
  ["info"; "backwards-compatibility"; "forwards-compatibility"].

(** One element of [self._output]: [(level, message)]. *)
Definition entry : Type := (nat * string)%type.

Inductive exception : Type := AssertionError | KeyError | IndexError.

Inductive outcome (A : Type) : Type :=
| Returns (a : A)
| Raises (e : exception).
Arguments Returns {A} a.
Arguments Raises {A} e.

(** The private methods of the comparator only append to [self._output] and
    may raise: a computation takes the list so far and gives an outcome with
    the list afterwards (what was appended before an exception stays). *)
Definition M (A : Type) : Type := list entry -> outcome A * list entry.

Definition ret {A : Type} (a : A) : M A := fun out => (Returns a, out).

Definition bind {A B : Type} (m : M A) (k : A -> M B) : M B :=
  fun out =>
    match m out with
    | (Returns a, out') => k a out'
    | (Raises e, out') => (Raises e, out')
    end.

Definition raise {A : Type} (e : exception) : M A := fun out => (Raises e, out).

Notation "x <- m ;; k" := (bind m (fun x => k))
  (at level 61, m at next level, right associativity).
Notation "m ;; k" := (bind m (fun _ => k))
  (at level 61, right associativity).

(** [assert b] *)
Definition assert_ (b : bool) : M unit :=
  if b then ret tt else raise AssertionError.

(** [d[k]] inside a method. *)
Definition lookup {V : Type} (d : dict V) (k : string) : M V :=
  match getitem d k with
  | Some v => ret v
  | None => raise KeyError
  end.

(** [l[i]] inside a method. *)
Definition index_ {V : Type} (l : list V) (i : nat) : M V :=
  match nth_error l i with
  | Some v => ret v
  | None => raise IndexError
  end.

(** [for x in xs: body(x)] *)
Fixpoint for_ {A : Type} (xs : list A) (body : A -> M unit) : M unit :=
  match xs with
  | [] => ret tt
  | x :: rest => body x ;; for_ rest body
  end.

(** What a computation appends when started on an empty list. *)
Definition emitted {A : Type} (m : M A) : list entry := snd (m []).

Definition result {A : Type} (m : M A) : outcome A := fst (m []).

(** ** class InterfaceComparator *)

Record InterfaceComparator : Type := Build_InterfaceComparator {
  _old_interfaces : dict ASTInterface.t;
  _new_interfaces : dict ASTInterface.t;
  _output : list entry;
  _enabled_warnings : list string
}.

(** [__init__] *)
Definition __init__ (old_interfaces new_interfaces : dict ASTInterface.t)
    (enabled_warnings : list string) : InterfaceComparator :=
  {| _old_interfaces := old_interfaces;
     _new_interfaces := new_interfaces;
     _output := [];
     _enabled_warnings := enabled_warnings |}.

(** The assignment [self._output = out]. *)
Definition set_output (self : InterfaceComparator) (out : list entry)
    : InterfaceComparator :=
  {| _old_interfaces := _old_interfaces self;
     _new_interfaces := _new_interfaces self;
     _output := out;
     _enabled_warnings := _enabled_warnings self |}.

(** The assignment [self._enabled_warnings = enabled_warnings]. *)
Definition set_enabled_warnings (self : InterfaceComparator)
    (enabled_warnings : list string) : InterfaceComparator :=
  {| _old_interfaces := _old_interfaces self;
     _new_interfaces := _new_interfaces self;
     _output := _output self;
     _enabled_warnings := enabled_warnings |}.

Definition _issue_output (level : nat) (message : string) : M unit :=
  fun out => (Returns tt, out ++ [(level, message)]).

Definition _warning_enabled (self : InterfaceComparator) (level : nat) : bool :=
  (Nat.eqb level OUTPUT_INFO && str_in "info" (_enabled_warnings self))
  || (Nat.eqb level OUTPUT_FORWARDS_INCOMPATIBLE
      && str_in "forwards-compatibility" (_enabled_warnings self))
  || (Nat.eqb level OUTPUT_BACKWARDS_INCOMPATIBLE
      && str_in "backwards-compatibility" (_enabled_warnings self)).

(** The loop of [get_output]: entries of a disabled level are skipped, the
    others are appended to [out] in order. *)
Fixpoint get_output_loop (self : InterfaceComparator) (stored : list entry)
    (out : list entry) : list entry :=
  match stored with
  | [] => out
  | (level, message) :: rest =>
      if negb (_warning_enabled self level)
      then get_output_loop self rest out
      else get_output_loop self rest (out ++ [(level, message)])
  end.

Definition get_output (self : InterfaceComparator) : list entry :=
  get_output_loop self (_output self) [].

(** [sys.stdout] and [sys.stderr]. *)
Inductive stream : Type := stdout | stderr.

(** [[' INFO', ' WARN', 'ERROR'][level]]; [None] stands for the [IndexError]
    of a level out of range. *)
Definition _format_level (level : nat) : option string :=
  nth_error [" INFO"; " WARN"; "ERROR"] level.

Definition _get_fd_for_level (level : nat) : stream :=
  if Nat.eqb level OUTPUT_INFO then stdout else stderr.

Definition newline : string := String (ascii_of_nat 10) EmptyString.

(** The loop of [print_output]: [written] lists the calls of [fd.write] so
    far, with the stream and the text. *)
Fixpoint print_output_loop (self : InterfaceComparator) (stored : list entry)
    (written : list (stream * string))
    : outcome unit * list (stream * string) :=
  match stored with
  | [] => (Returns tt, written)
  | (level, message) :: rest =>
      if negb (_warning_enabled self level)
      then print_output_loop self rest written
      else
        match _format_level level with
        | None => (Raises IndexError, written)
        | Some formatted_level =>
            let fd := _get_fd_for_level level in
            print_output_loop self rest
              (written
               ++ [(fd, (formatted_level ++ ": " ++ message
                         ++ newline)%string)])
        end
  end.

Definition print_output (self : InterfaceComparator)
    : outcome unit * list (stream * string) :=
  print_output_loop self (_output self) [].

(** In the three annotation getters, the test [annotation_name in
    node.annotations] and the access [node.annotations[annotation_name]] are
    one [getitem]: [Some] when the key is present. *)
Definition _get_string_annotation (n : node) (annotation_name : string)
    (default : string) : string :=
  match getitem (annotations n) annotation_name with
  | Some a => ASTAnnotation.value a
  | None => default
  end.

Definition _get_bool_annotation (n : node) (annotation_name : string)
    (default : bool) : bool :=
  match getitem (annotations n) annotation_name with
  | Some a => String.eqb (ASTAnnotation.value a) "true"
  | None => default
  end.

Definition EmitsChangedSignal : string :=
  "org.freedesktop.DBus.Property.EmitsChangedSignal".

Fixpoint _get_emits_changed_signal_annotation (n : node) : string :=
  let annotation_name := EmitsChangedSignal in
  match getitem (annotations n) annotation_name with
  | Some a => ASTAnnotation.value a
  | None =>
      match n with
      | PropertyNode interface _ =>
          _get_emits_changed_signal_annotation interface
      | _ => "true"
      end
  end.

Section Comparator.

(** [node.format_name()]: the human-readable (qualified) name of a node.
    It belongs to [dbusapi.ast]; the comparator only prints it. *)
Variable format_name : node -> string.

(** [_compare_annotations], the check of [org.freedesktop.DBus.Deprecated]. *)
Definition _compare_annotations_deprecated (old_node new_node : node)
    : M unit :=
  let old_deprecated :=
    _get_bool_annotation old_node "org.freedesktop.DBus.Deprecated" false in
  let new_deprecated :=
    _get_bool_annotation new_node "org.freedesktop.DBus.Deprecated" false in
  if old_deprecated && negb new_deprecated then
    _issue_output OUTPUT_INFO
      ("Node ‘" ++ format_name old_node ++ "’ has been un-deprecated.")
  else if negb old_deprecated && new_deprecated then
    _issue_output OUTPUT_INFO
      ("Node ‘" ++ format_name old_node ++ "’ has been deprecated.")
  else ret tt.

(** [_compare_annotations], the check of
    [org.freedesktop.DBus.GLib.CSymbol]. *)
Definition _compare_annotations_c_symbol (old_node new_node : node)
    : M unit :=
  let old_c_symbol :=
    _get_string_annotation old_node "org.freedesktop.DBus.GLib.CSymbol" "" in
  let new_c_symbol :=
    _get_string_annotation new_node "org.freedesktop.DBus.GLib.CSymbol" "" in
  if negb (String.eqb old_c_symbol new_c_symbol) then
    _issue_output OUTPUT_INFO
      ("Node ‘" ++ format_name old_node ++ "’ has changed its C symbol from ‘"
       ++ old_c_symbol ++ "’ to ‘" ++ new_c_symbol ++ "’.")
  else ret tt.

(** [_compare_annotations], the check of
    [org.freedesktop.DBus.Method.NoReply]. *)
Definition _compare_annotations_no_reply (old_node new_node : node)
    : M unit :=
  let old_no_reply :=
    _get_bool_annotation old_node "org.freedesktop.DBus.Method.NoReply"
      false in
  let new_no_reply :=
    _get_bool_annotation new_node "org.freedesktop.DBus.Method.NoReply"
      false in
  if old_no_reply && negb new_no_reply then
    _issue_output OUTPUT_BACKWARDS_INCOMPATIBLE
      ("Node ‘" ++ format_name old_node
       ++ "’ has been marked as returning a reply.")
  else if negb old_no_reply && new_no_reply then
    _issue_output OUTPUT_BACKWARDS_INCOMPATIBLE
      ("Node ‘" ++ format_name old_node
       ++ "’ has been marked as not returning a reply.")
  else ret tt.

(** [_compare_annotations], the check of
    [org.freedesktop.DBus.Property.EmitsChangedSignal]. *)
Definition _compare_annotations_emits_changed_signal
    (old_node new_node : node) : M unit :=
  let old_ecs := _get_emits_changed_signal_annotation old_node in
  let new_ecs := _get_emits_changed_signal_annotation new_node in
  if str_in old_ecs ["true"; "invalidates"]
     && str_in new_ecs ["false"; "const"] then
    _issue_output OUTPUT_FORWARDS_INCOMPATIBLE
      ("Node ‘" ++ format_name old_node
       ++ "’ stopped emitting org.freedesktop.DBus.PropertiesChanged.")
  else if str_in old_ecs ["false"; "const"]
          && str_in new_ecs ["true"; "invalidates"] then
    _issue_output OUTPUT_BACKWARDS_INCOMPATIBLE
      ("Node ‘" ++ format_name old_node
       ++ "’ started emitting org.freedesktop.DBus.PropertiesChanged.")
  else if String.eqb old_ecs "true" && String.eqb new_ecs "invalidates" then
    _issue_output OUTPUT_BACKWARDS_INCOMPATIBLE
      ("Node ‘" ++ format_name old_node
       ++ "’ stopped emitting its new value in "
       ++ "org.freedesktop.DBus.PropertiesChanged.")
  else if String.eqb old_ecs "invalidates" && String.eqb new_ecs "true" then
    _issue_output OUTPUT_BACKWARDS_INCOMPATIBLE
      ("Node ‘" ++ format_name old_node
       ++ "’ started emitting its new value in "
       ++ "org.freedesktop.DBus.PropertiesChanged.")
  else if String.eqb old_ecs "const" && String.eqb new_ecs "false" then
    _issue_output OUTPUT_BACKWARDS_INCOMPATIBLE
      ("Node ‘" ++ format_name old_node ++ "’ stopped being a constant.")
  else if String.eqb old_ecs "false" && String.eqb new_ecs "const" then
    _issue_output OUTPUT_FORWARDS_INCOMPATIBLE
      ("Node ‘" ++ format_name old_node ++ "’ became a constant.")
  else ret tt.

(** [_compare_annotations] is its four checks, one after the other. *)
Definition _compare_annotations (old_node new_node : node) : M unit :=
  _compare_annotations_deprecated old_node new_node ;;
  _compare_annotations_c_symbol old_node new_node ;;
  _compare_annotations_no_reply old_node new_node ;;
  _compare_annotations_emits_changed_signal old_node new_node.

Definition option_string_eqb (a b : option string) : bool :=
  match a, b with
  | Some x, Some y => String.eqb x y
  | None, None => true
  | _, _ => false
  end.

(** [old_arg] and [new_arg] are argument nodes: the arguments with their
    parents. *)
Definition _compare_arguments (old_parent : node) (old_arg : ASTArgument.t)
    (new_parent : node) (new_arg : ASTArgument.t) : M unit :=
  (if negb (option_string_eqb (ASTArgument.name old_arg)
                              (ASTArgument.name new_arg)) then
     _issue_output OUTPUT_INFO
       ("Argument " ++ format_u (ASTArgument.index old_arg) ++ " of ‘"
        ++ format_name old_parent ++ "’ has changed name from ‘"
        ++ format_s (ASTArgument.name old_arg) ++ "’ to ‘"
        ++ format_s (ASTArgument.name new_arg) ++ "’.")
   else ret tt) ;;
  (if negb (String.eqb (ASTArgument.type old_arg)
                       (ASTArgument.type new_arg)) then
     _issue_output OUTPUT_BACKWARDS_INCOMPATIBLE
       ("Argument " ++ format_u (ASTArgument.index old_arg) ++ " of ‘"
        ++ format_name old_parent ++ "’ has changed type from ‘"
        ++ ASTArgument.type old_arg ++ "’ to ‘"
        ++ ASTArgument.type new_arg ++ "’.")
   else ret tt) ;;
  (if negb (option_string_eqb (ASTArgument.direction old_arg)
                              (ASTArgument.direction new_arg)) then
     _issue_output OUTPUT_BACKWARDS_INCOMPATIBLE
       ("Argument " ++ format_u (ASTArgument.index old_arg) ++ " of ‘"
        ++ format_name old_parent ++ "’ has changed direction from ‘"
        ++ format_s (ASTArgument.direction old_arg) ++ "’ to ‘"
        ++ format_s (ASTArgument.direction new_arg) ++ "’.")
   else ret tt) ;;
  _compare_annotations (ArgumentNode old_parent old_arg)
                       (ArgumentNode new_parent new_arg).

Definition _compare_methods (old_interface : node) (old_method : ASTMethod.t)
    (new_interface : node) (new_method : ASTMethod.t) : M unit :=
  let old_node := MethodNode old_interface old_method in
  let new_node := MethodNode new_interface new_method in
  (* Precondition of calling this method. *)
  assert_ (String.eqb (ASTMethod.name old_method)
                      (ASTMethod.name new_method)) ;;
  (* Compare the argument lists. *)
  let n_old_args := length (ASTMethod.arguments old_method) in
  let n_new_args := length (ASTMethod.arguments new_method) in
  for_ (range (Nat.max n_old_args n_new_args)) (fun i =>
    if Nat.leb n_old_args i then
      new_arg <- index_ (ASTMethod.arguments new_method) i ;;
      _issue_output OUTPUT_BACKWARDS_INCOMPATIBLE
        ("Argument " ++ format_name (ArgumentNode new_node new_arg)
         ++ " of method ‘" ++ format_name new_node ++ "’ has been added.")
    else if Nat.leb n_new_args i then
      old_arg <- index_ (ASTMethod.arguments old_method) i ;;
      _issue_output OUTPUT_BACKWARDS_INCOMPATIBLE
        ("Argument " ++ format_name (ArgumentNode old_node old_arg)
         ++ " of method ‘" ++ format_name old_node ++ "’ has been removed.")
    else
      old_arg <- index_ (ASTMethod.arguments old_method) i ;;
      new_arg <- index_ (ASTMethod.arguments new_method) i ;;
      _compare_arguments old_node old_arg new_node new_arg) ;;
  (* Compare annotations *)
  _compare_annotations old_node new_node.

Definition _compare_properties (old_interface : node)
    (old_property : ASTProperty.t) (new_interface : node)
    (new_property : ASTProperty.t) : M unit :=
  let old_node := PropertyNode old_interface old_property in
  let new_node := PropertyNode new_interface new_property in
  (* Precondition of calling this method. *)
  assert_ (String.eqb (ASTProperty.name old_property)
                      (ASTProperty.name new_property)) ;;
  (if negb (String.eqb (ASTProperty.type old_property)
                       (ASTProperty.type new_property)) then
     _issue_output OUTPUT_BACKWARDS_INCOMPATIBLE
       ("Property ‘" ++ format_name old_node ++ "’ has changed type from ‘"
        ++ ASTProperty.type old_property ++ "’ to ‘"
        ++ ASTProperty.type new_property ++ "’.")
   else ret tt) ;;
  (if (String.eqb (ASTProperty.access old_property) ASTProperty.ACCESS_READ
       || String.eqb (ASTProperty.access old_property)
                     ASTProperty.ACCESS_WRITE)
      && String.eqb (ASTProperty.access new_property)
                    ASTProperty.ACCESS_READWRITE then
     (* Property has become less restrictive. *)
     _issue_output OUTPUT_FORWARDS_INCOMPATIBLE
       ("Property ‘" ++ format_name old_node ++ "’ has changed access from ‘"
        ++ ASTProperty.access old_property ++ "’ to ‘"
        ++ ASTProperty.access new_property
        ++ "’, becoming less restrictive.")
   else if negb (String.eqb (ASTProperty.access old_property)
                            (ASTProperty.access new_property)) then
     (* Access has changed incompatibly. *)
     _issue_output OUTPUT_BACKWARDS_INCOMPATIBLE
       ("Property ‘" ++ format_name old_node ++ "’ has changed access from ‘"
        ++ ASTProperty.access old_property ++ "’ to ‘"
        ++ ASTProperty.access new_property ++ "’.")
   else ret tt) ;;
  (* Compare annotations *)
  _compare_annotations old_node new_node.

Definition _compare_signals (old_interface : node) (old_signal : ASTSignal.t)
    (new_interface : node) (new_signal : ASTSignal.t) : M unit :=
  let old_node := SignalNode old_interface old_signal in
  let new_node := SignalNode new_interface new_signal in
  (* Precondition of calling this method. *)
  assert_ (String.eqb (ASTSignal.name old_signal)
                      (ASTSignal.name new_signal)) ;;
  (* Compare the argument lists. *)
  let n_old_args := length (ASTSignal.arguments old_signal) in
  let n_new_args := length (ASTSignal.arguments new_signal) in
  for_ (range (Nat.max n_old_args n_new_args)) (fun i =>
    if Nat.leb n_old_args i then
      new_arg <- index_ (ASTSignal.arguments new_signal) i ;;
      _issue_output OUTPUT_BACKWARDS_INCOMPATIBLE
        ("Argument " ++ format_name (ArgumentNode new_node new_arg)
         ++ " of signal ‘" ++ format_name new_node ++ "’ has been added.")
    else if Nat.leb n_new_args i then
      old_arg <- index_ (ASTSignal.arguments old_signal) i ;;
      _issue_output OUTPUT_BACKWARDS_INCOMPATIBLE
        ("Argument " ++ format_name (ArgumentNode old_node old_arg)
         ++ " of signal ‘" ++ format_name old_node ++ "’ has been removed.")
    else
      old_arg <- index_ (ASTSignal.arguments old_signal) i ;;
      new_arg <- index_ (ASTSignal.arguments new_signal) i ;;
      _compare_arguments old_node old_arg new_node new_arg) ;;
  (* Compare annotations *)
  _compare_annotations old_node new_node.

Definition _compare_interfaces (old_interface new_interface : ASTInterface.t)
    : M unit :=
  let old_node := InterfaceNode old_interface in
  let new_node := InterfaceNode new_interface in
  (* Precondition of calling this method. *)
  assert_ (String.eqb (ASTInterface.name old_interface)
                      (ASTInterface.name new_interface)) ;;
  (* Compare methods. *)
  for_ (items (ASTInterface.methods old_interface)) (fun '(name, method) =>
    if negb (contains name (ASTInterface.methods new_interface)) then
      _issue_output OUTPUT_BACKWARDS_INCOMPATIBLE
        ("Method ‘" ++ format_name (MethodNode old_node method)
         ++ "’ has been removed.")
    else
      new_method <- lookup (ASTInterface.methods new_interface) name ;;
      _compare_methods old_node method new_node new_method) ;;
  for_ (items (ASTInterface.methods new_interface)) (fun '(name, method) =>
    if negb (contains name (ASTInterface.methods old_interface)) then
      _issue_output OUTPUT_FORWARDS_INCOMPATIBLE
        ("Method ‘" ++ format_name (MethodNode new_node method)
         ++ "’ has been added.")
    else ret tt) ;;
  (* Compare properties *)
  for_ (items (ASTInterface.properties old_interface))
    (fun '(name, property) =>
    if negb (contains name (ASTInterface.properties new_interface)) then
      _issue_output OUTPUT_BACKWARDS_INCOMPATIBLE
        ("Property ‘" ++ format_name (PropertyNode old_node property)
         ++ "’ has been removed.")
    else
      new_property <- lookup (ASTInterface.properties new_interface) name ;;
      _compare_properties old_node property new_node new_property) ;;
  for_ (items (ASTInterface.properties new_interface))
    (fun '(name, property) =>
    if negb (contains name (ASTInterface.properties old_interface)) then
      _issue_output OUTPUT_FORWARDS_INCOMPATIBLE
        ("Property ‘" ++ format_name (PropertyNode new_node property)
         ++ "’ has been added.")
    else ret tt) ;;
  (* Compare signals *)
  for_ (items (ASTInterface.signals old_interface)) (fun '(name, signal) =>
    if negb (contains name (ASTInterface.signals new_interface)) then
      _issue_output OUTPUT_BACKWARDS_INCOMPATIBLE
        ("Signal ‘" ++ format_name (SignalNode old_node signal)
         ++ "’ has been removed.")
    else
      new_signal <- lookup (ASTInterface.signals new_interface) name ;;
      _compare_signals old_node signal new_node new_signal) ;;
  for_ (items (ASTInterface.signals new_interface)) (fun '(name, signal) =>
    if negb (contains name (ASTInterface.signals old_interface)) then
      _issue_output OUTPUT_FORWARDS_INCOMPATIBLE
        ("Signal ‘" ++ format_name (SignalNode new_node signal)
         ++ "’ has been added.")
    else ret tt) ;;
  (* Compare annotations *)
  _compare_annotations old_node new_node.

(** The two loops of [compare], run on [self._output]. *)
Definition compare_loops (self : InterfaceComparator) : M unit :=
  for_ (items (_old_interfaces self)) (fun '(name, interface) =>
    (* See if the old interface exists in the new file. *)
    if negb (contains name (_new_interfaces self)) then
      _issue_output OUTPUT_BACKWARDS_INCOMPATIBLE
        ("Interface ‘" ++ name ++ "’ has been removed.")
    else
      (* Compare the two. *)
      new_interface <- lookup (_new_interfaces self) name ;;
      _compare_interfaces interface new_interface) ;;
  for_ (items (_new_interfaces self)) (fun '(name, interface) =>
    (* See if the new interface exists in the old file. *)
    if negb (contains name (_old_interfaces self)) then
      _issue_output OUTPUT_FORWARDS_INCOMPATIBLE
        ("Interface ‘" ++ name ++ "’ has been added.")
    else ret tt).

(** [compare]: the value returned (or the exception raised) and the
    comparator afterwards. *)
Definition compare (self : InterfaceComparator)
    : outcome (list entry) * InterfaceComparator :=
  let self := set_output self [] in
  match compare_loops self (_output self) with
  | (Returns _, out) =>
      let self := set_output self out in
      (Returns (get_output self), self)
  | (Raises e, out) => (Raises e, set_output self out)
  end.

End Comparator.

(** ** Reasoning about computations *)

(** [runs m a l]: from any list, [m] returns [a] and appends exactly [l]. *)
Definition runs {A : Type} (m : M A) (a : A) (l : list entry) : Prop :=
  forall out, m out = (Returns a, out ++ l).

(** [emits_only P m]: whatever happens, [m] only appends entries in [P]. *)
Definition emits_only {A : Type} (P : entry -> Prop) (m : M A) : Prop :=
  forall out, Forall P out -> Forall P (snd (m out)).


(** ** Definitions used to state the properties *)

(** Modelled from the spec: [format_name] of [dbusapi.ast] is missing from the
    sources at hand; this is the qualified-name formatting the data model and
    the parser messages describe ([I.M] for a member [M] of interface [I],
    [unnamed] for an argument without a name).  It is only used to evaluate
    the comparator on concrete inputs. *)
Fixpoint qualified_name (n : node) : string :=
  match n with
  | InterfaceNode i => ASTInterface.name i
  | MethodNode interface m => qualified_name interface ++ "." ++ ASTMethod.name m
  | SignalNode interface s => qualified_name interface ++ "." ++ ASTSignal.name s
  | PropertyNode interface p =>
      qualified_name interface ++ "." ++ ASTProperty.name p
  | ArgumentNode _ a =>
      match ASTArgument.name a with
      | Some s => s
      | None => "unnamed"
      end
  end.

(** The four well-known annotation names. *)
Definition well_known_annotations : list string :=
  ["org.freedesktop.DBus.Deprecated";
   "org.freedesktop.DBus.GLib.CSymbol";
   "org.freedesktop.DBus.Method.NoReply";
   EmitsChangedSignal].

(** The values of the Emits-changed-signal enumeration. *)
Definition emits_changed_signal_values : list string :=
  ["true"; "invalidates"; "false"; "const"].

(** The effective Emits-changed-signal value in the words of the rule table:
    the node's own annotation if present, otherwise, for a property, that of
    the declaring interface, and so on; otherwise ["true"].  [declaring_chain]
    lists the node and then the interfaces the value is inherited from. *)
Fixpoint declaring_chain (n : node) : list node :=
  n :: match n with
       | PropertyNode interface _ => declaring_chain interface
       | _ => []
       end.

Definition own_annotation_value (name : string) (n : node) : option string :=
  option_map ASTAnnotation.value (getitem (annotations n) name).

Fixpoint first_present (l : list (option string)) : option string :=
  match l with
  | [] => None
  | Some v :: _ => Some v
  | None :: rest => first_present rest
  end.

Definition effective_emits_changed_signal (n : node) : string :=
  match first_present
          (map (own_annotation_value EmitsChangedSignal) (declaring_chain n)) with
  | Some v => v
  | None => "true"
  end.

(** Two nodes agree on the well-known annotations when their own annotations
    give the same answer for each of the four names and, for properties, so do
    the interfaces the Emits-changed-signal value is inherited from. *)
Fixpoint same_well_known (n n' : node) : Prop :=
  (forall k, In k well_known_annotations ->
             getitem (annotations n) k = getitem (annotations n') k)
  /\ match n, n' with
     | PropertyNode interface _, PropertyNode interface' _ =>
         same_well_known interface interface'
     | PropertyNode _ _, _ => False
     | _, PropertyNode _ _ => False
     | _, _ => True
     end.

(** The Emits-changed-signal rows of the rule table: old value, new value,
    severity, and the message for a node of a given displayed name. *)
Inductive emits_changed_signal_row
    : string -> string -> nat -> (string -> string) -> Prop :=
| row_stopped_notifying old_ecs new_ecs :
    In old_ecs ["true"; "invalidates"] -> In new_ecs ["false"; "const"] ->
    emits_changed_signal_row old_ecs new_ecs OUTPUT_FORWARDS_INCOMPATIBLE
      (fun name => ("Node ‘" ++ name
         ++ "’ stopped emitting org.freedesktop.DBus.PropertiesChanged.")%string)
| row_started_notifying old_ecs new_ecs :
    In old_ecs ["false"; "const"] -> In new_ecs ["true"; "invalidates"] ->
    emits_changed_signal_row old_ecs new_ecs OUTPUT_BACKWARDS_INCOMPATIBLE
      (fun name => ("Node ‘" ++ name
         ++ "’ started emitting org.freedesktop.DBus.PropertiesChanged.")%string)
| row_stopped_sending_value :
    emits_changed_signal_row "true" "invalidates"
      OUTPUT_BACKWARDS_INCOMPATIBLE
      (fun name => ("Node ‘" ++ name ++ "’ stopped emitting its new value in "
         ++ "org.freedesktop.DBus.PropertiesChanged.")%string)
| row_started_sending_value :
    emits_changed_signal_row "invalidates" "true"
      OUTPUT_BACKWARDS_INCOMPATIBLE
      (fun name => ("Node ‘" ++ name ++ "’ started emitting its new value in "
         ++ "org.freedesktop.DBus.PropertiesChanged.")%string)
| row_stopped_being_constant :
    emits_changed_signal_row "const" "false" OUTPUT_BACKWARDS_INCOMPATIBLE
      (fun name => ("Node ‘" ++ name ++ "’ stopped being a constant.")%string)
| row_became_constant :
    emits_changed_signal_row "false" "const" OUTPUT_FORWARDS_INCOMPATIBLE
      (fun name => ("Node ‘" ++ name ++ "’ became a constant.")%string).

(** The effective No-reply value in the words of the rule table: a boolean,
    [false] when the annotation is absent. *)
Definition NoReply : string := "org.freedesktop.DBus.Method.NoReply".

Definition effective_no_reply (n : node) : bool :=
  match own_annotation_value NoReply n with
  | Some v => String.eqb v "true"
  | None => false
  end.

(** The two No-reply rows of the rule table. *)
Inductive no_reply_row : bool -> bool -> nat -> (string -> string) -> Prop :=
| row_no_longer_replies :
    no_reply_row false true OUTPUT_BACKWARDS_INCOMPATIBLE
      (fun name => ("Node ‘" ++ name
         ++ "’ has been marked as not returning a reply.")%string)
| row_now_replies :
    no_reply_row true false OUTPUT_BACKWARDS_INCOMPATIBLE
      (fun name => ("Node ‘" ++ name
         ++ "’ has been marked as returning a reply.")%string).

(** What [_issue_output] appends under a condition. *)
Definition issued (b : bool) (level : nat) (message : string) : list entry :=
  if b then [(level, message)] else [].

(** The positional comparison of two argument lists in the words of the
    member rule: at an index, an argument present only in the new list is
    added, one present only in the old list is removed, and two arguments are
    compared with each other.  [kind] is ["method"] or ["signal"]. *)
Definition positional_diff (format_name : node -> string) (kind : string)
    (old_node new_node : node) (old_arg new_arg : option ASTArgument.t)
    : list entry :=
  match old_arg, new_arg with
  | None, Some a =>
      [(OUTPUT_BACKWARDS_INCOMPATIBLE,
        ("Argument " ++ format_name (ArgumentNode new_node a) ++ " of " ++ kind
         ++ " ‘" ++ format_name new_node ++ "’ has been added.")%string)]
  | Some a, None =>
      [(OUTPUT_BACKWARDS_INCOMPATIBLE,
        ("Argument " ++ format_name (ArgumentNode old_node a) ++ " of " ++ kind
         ++ " ‘" ++ format_name old_node ++ "’ has been removed.")%string)]
  | Some a, Some b =>
      emitted (_compare_arguments format_name old_node a new_node b)
  | None, None => []
  end.

Definition positional_diffs (format_name : node -> string) (kind : string)
    (old_node new_node : node) (old_args new_args : list ASTArgument.t)
    : list entry :=
  flat_map
    (fun i => positional_diff format_name kind old_node new_node
                (nth_error old_args i) (nth_error new_args i))
    (seq 0 (Nat.max (length old_args) (length new_args))).

(** ** Valid interface mappings *)

(** The entries of a name-keyed mapping are keyed by the name of the node. *)
Definition keyed_by_name {V : Type} (name : V -> string) (d : dict V) : bool :=
  forallb (fun kv => String.eqb (fst kv) (name (snd kv))) d.

(** An interface as the parser builds it: in each of its three mappings the
    names are unique and the members are stored under their names. *)
Definition valid_interface (i : ASTInterface.t) : bool :=
  well_keyed (ASTInterface.methods i)
  && keyed_by_name ASTMethod.name (ASTInterface.methods i)
  && well_keyed (ASTInterface.properties i)
  && keyed_by_name ASTProperty.name (ASTInterface.properties i)
  && well_keyed (ASTInterface.signals i)
  && keyed_by_name ASTSignal.name (ASTInterface.signals i).

(** A valid interface mapping: unique interface names, each interface stored
    under its name, and valid interfaces. *)
Definition valid_interfaces (d : dict ASTInterface.t) : bool :=
  well_keyed d
  && keyed_by_name ASTInterface.name d
  && forallb (fun kv => valid_interface (snd kv)) d.

(** ** The comparison in the words of the top-level algorithm *)

(** One add/remove/modify pass over two mappings: for each name of [old], in
    the order of [old], a removal if the name is absent from [new] and the
    comparison of the two nodes otherwise; then, for each name of [new]
    absent from [old], in the order of [new], an addition. *)
Definition member_diffs {V : Type} (old new : dict V)
    (removed : string -> V -> entry) (compared : V -> V -> list entry)
    (added : string -> V -> entry) : list entry :=
  flat_map (fun kv => match getitem new (fst kv) with
                      | None => [removed (fst kv) (snd kv)]
                      | Some v' => compared (snd kv) v'
                      end) old
  ++ flat_map (fun kv => if contains (fst kv) old then []
                         else [added (fst kv) (snd kv)]) new.

(** Within one interface: methods, then properties, then signals, then the
    annotations of the interface. *)
Definition interface_diffs (format_name : node -> string)
    (old_interface new_interface : ASTInterface.t) : list entry :=
  let old_node := InterfaceNode old_interface in
  let new_node := InterfaceNode new_interface in
  member_diffs (ASTInterface.methods old_interface)
    (ASTInterface.methods new_interface)
    (fun _ m => (OUTPUT_BACKWARDS_INCOMPATIBLE,
                 ("Method ‘" ++ format_name (MethodNode old_node m)
                  ++ "’ has been removed.")%string))
    (fun m m' => emitted (_compare_methods format_name old_node m new_node m'))
    (fun _ m => (OUTPUT_FORWARDS_INCOMPATIBLE,
                 ("Method ‘" ++ format_name (MethodNode new_node m)
                  ++ "’ has been added.")%string))
  ++ member_diffs (ASTInterface.properties old_interface)
       (ASTInterface.properties new_interface)
       (fun _ p => (OUTPUT_BACKWARDS_INCOMPATIBLE,
                    ("Property ‘" ++ format_name (PropertyNode old_node p)
                     ++ "’ has been removed.")%string))
       (fun p p' =>
          emitted (_compare_properties format_name old_node p new_node p'))
       (fun _ p => (OUTPUT_FORWARDS_INCOMPATIBLE,
                    ("Property ‘" ++ format_name (PropertyNode new_node p)
                     ++ "’ has been added.")%string))
  ++ member_diffs (ASTInterface.signals old_interface)
       (ASTInterface.signals new_interface)
       (fun _ s => (OUTPUT_BACKWARDS_INCOMPATIBLE,
                    ("Signal ‘" ++ format_name (SignalNode old_node s)
                     ++ "’ has been removed.")%string))
       (fun s s' =>
          emitted (_compare_signals format_name old_node s new_node s'))
       (fun _ s => (OUTPUT_FORWARDS_INCOMPATIBLE,
                    ("Signal ‘" ++ format_name (SignalNode new_node s)
                     ++ "’ has been added.")%string))
  ++ emitted (_compare_annotations format_name old_node new_node).

Definition interface_removed (name : string) : entry :=
  (OUTPUT_BACKWARDS_INCOMPATIBLE,
   ("Interface ‘" ++ name ++ "’ has been removed.")%string).

Definition interface_added (name : string) : entry :=
  (OUTPUT_FORWARDS_INCOMPATIBLE,
   ("Interface ‘" ++ name ++ "’ has been added.")%string).

(** All interfaces: the pass over the two interface mappings. *)
Definition interfaces_diffs (format_name : node -> string)
    (old new : dict ASTInterface.t) : list entry :=
  member_diffs old new
    (fun name _ => interface_removed name)
    (fun i i' => interface_diffs format_name i i')
    (fun name _ => interface_added name).

Definition entry_eq_dec (x y : entry) : {x = y} + {x <> y}.
Proof. repeat decide equality. Defined.

(** The messages about a member or an annotation never start like a message
    about an interface. *)
Definition about_member (e : entry) : Prop :=
  String.prefix "I" (snd e) = false.

(** The line [print_output] writes for an entry, and where. *)
Definition written_line (e : entry) : stream * string :=
  (_get_fd_for_level (fst e),
   (nth (fst e) [" INFO"; " WARN"; "ERROR"] "" ++ ": " ++ snd e ++ newline)%string).

(** ** The validating parser and the diagnostics ledger *)

(** Modelled from the spec: the parser and the ledger ([dbusapi.ast.parse],
    [Loggable]) are missing from the sources at hand, which only hold their
    tests.  The model follows sections 4.1 and 4.2 and the messages the tests
    expect.  Markup comments only set the [comment] of a node and are left
    out; elements of the documentation namespaces are skipped. *)
#[local] Unset Elimination Schemes.
Inductive xml : Type :=
| Element (tag : string) (attrib : dict string) (children : list xml).
#[local] Set Elimination Schemes.

Definition tag (e : xml) : string := let 'Element t _ _ := e in t.
Definition attrib (e : xml) : dict string := let 'Element _ a _ := e in a.
Definition children (e : xml) : list xml := let 'Element _ _ c := e in c.

(** Modelled from the spec: the three failure kinds, with their message. *)
Inductive failure : Type :=
| UnknownNodeError (message : string)
| MissingAttributeError (message : string)
| DuplicateNodeError (message : string).

Definition message (f : failure) : string :=
  match f with
  | UnknownNodeError m => m
  | MissingAttributeError m => m
  | DuplicateNodeError m => m
  end.

(** Modelled from the spec: the stable code of each failure kind. *)
Definition error_code (f : failure) : string :=
  match f with
  | UnknownNodeError _ => "unknown-node"
  | MissingAttributeError _ => "missing-attribute"
  | DuplicateNodeError _ => "duplicate-node"
  end.

(** Modelled from the spec: the namespaces of the vendor wrapper and of the
    documentation elements, as the tests declare them. *)
Definition TP_DTD : string :=
  "http://telepathy.freedesktop.org/wiki/DbusSpec#extensions-v0".
Definition DOC_DTD : string := "http://www.freedesktop.org/dbus/1.0/doc.dtd".

Definition is_documentation (t : string) : bool :=
  String.prefix ("{" ++ TP_DTD ++ "}") t || String.prefix ("{" ++ DOC_DTD ++ "}") t.

Definition is_vendor_wrapper (t : string) : bool :=
  String.eqb t ("{" ++ TP_DTD ++ "}spec").

(** [d[k] = v]: the value of an existing key is replaced in place, a new key
    goes to the end. *)
Fixpoint setitem {V : Type} (d : dict V) (k : string) (v : V) : dict V :=
  match d with
  | [] => [(k, v)]
  | (k', v') :: rest =>
      if String.eqb k k' then (k, v) :: rest else (k', v') :: setitem rest k v
  end.

(** The name a node is displayed under in a message. *)
Definition display (name : option string) : string :=
  match name with
  | Some n => n
  | None => "unnamed"
  end.

(** Modelled from the spec: the grammar, written once over the way a
    violation is reported ([report]), so that it can be run as the parser
    (which raises or logs) and as a run that collects what is reported. *)
Section Grammar.
Variable M : Type -> Type.
Variable mret : forall A : Type, A -> M A.
Variable mbind : forall A B : Type, M A -> (A -> M B) -> M B.
Variable report : failure -> M unit.

Arguments mret {A} _.
Arguments mbind {A B} _ _.

Local Notation "x <-- m ;;; k" := (mbind m (fun x => k))
  (at level 61, m at next level, right associativity).
Local Notation "m ;;; k" := (mbind m (fun _ => k))
  (at level 61, right associativity).

(** A required attribute: its value, or a missing-attribute violation. *)
Definition require (attributes : dict string) (attribute kind : string)
    : M (option string) :=
  match getitem attributes attribute with
  | Some v => mret (Some v)
  | None =>
      report (MissingAttributeError
                ("Missing required attribute ‘" ++ attribute ++ "’ in "
                 ++ kind ++ ".")) ;;;
      mret None
  end.

(** The children of an element, in document order.  [child t] is the parser of
    a permitted child with tag [t]; it gets the children accepted so far and
    gives them back with the new child, or [None] when the child is not
    accepted.  A documentation element is skipped, any other element is an
    unknown-node violation.  The result tells whether every child was
    accepted. *)
Fixpoint parse_children {S : Type} (context : string)
    (child : string -> option (xml -> S -> M (option S)))
    (cs : list xml) (acc : S) : M (S * bool) :=
  match cs with
  | [] => mret (acc, true)
  | c :: rest =>
      if is_documentation (tag c) then parse_children context child rest acc
      else
        match child (tag c) with
        | None =>
            report (UnknownNodeError
                      ("Unknown node ‘" ++ tag c ++ "’ in " ++ context
                       ++ ".")) ;;;
            r <-- parse_children context child rest acc ;;;
            mret (fst r, false)
        | Some parse_child =>
            accepted <-- parse_child c acc ;;;
            match accepted with
            | Some acc' => parse_children context child rest acc'
            | None =>
                r <-- parse_children context child rest acc ;;;
                mret (fst r, false)
            end
        end
  end.

Definition parse_annotation (e : xml) : M (option ASTAnnotation.t) :=
  name <-- require (attrib e) "name" "annotation" ;;;
  value <-- require (attrib e) "value" "annotation" ;;;
  r <-- parse_children ("annotation ‘" ++ display name ++ "’")
          (fun _ => None) (children e) tt ;;;
  mret (match name, value, snd r with
        | Some n, Some v, true => Some (ASTAnnotation.Build n v)
        | _, _, _ => None
        end).

(** An annotation child: duplicate names are permitted, the last one wins. *)
Definition annotation_child (e : xml) (annotations : dict ASTAnnotation.t)
    : M (option (dict ASTAnnotation.t)) :=
  a <-- parse_annotation e ;;;
  mret (option_map (fun a => setitem annotations (ASTAnnotation.name a) a) a).

Definition parse_argument (index : nat) (e : xml) : M (option ASTArgument.t) :=
  type <-- require (attrib e) "type" "arg" ;;;
  let name := getitem (attrib e) "name" in
  r <-- parse_children ("argument ‘" ++ display name ++ "’")
          (fun t => if String.eqb t "annotation" then Some annotation_child
                    else None)
          (children e) [] ;;;
  mret (match type, snd r with
        | Some t, true =>
            Some (ASTArgument.Build name t (getitem (attrib e) "direction")
                    index (fst r))
        | _, _ => None
        end).

(** The children of a method or signal: arguments, in order, and
    annotations. *)
Definition callable_child (t : string)
    : option (xml -> list ASTArgument.t * dict ASTAnnotation.t ->
              M (option (list ASTArgument.t * dict ASTAnnotation.t))) :=
  if String.eqb t "arg" then
    Some (fun e acc =>
            a <-- parse_argument (length (fst acc)) e ;;;
            mret (option_map (fun a => (fst acc ++ [a], snd acc)) a))
  else if String.eqb t "annotation" then
    Some (fun e acc =>
            annotations <-- annotation_child e (snd acc) ;;;
            mret (option_map (fun annotations => (fst acc, annotations))
                    annotations))
  else None.

Definition parse_method (e : xml) : M (option ASTMethod.t) :=
  name <-- require (attrib e) "name" "method" ;;;
  r <-- parse_children ("method ‘" ++ display name ++ "’") callable_child
          (children e) ([], []) ;;;
  mret (match name, snd r with
        | Some n, true => Some (ASTMethod.Build n (fst (fst r)) (snd (fst r)))
        | _, _ => None
        end).

Definition parse_signal (e : xml) : M (option ASTSignal.t) :=
  name <-- require (attrib e) "name" "signal" ;;;
  r <-- parse_children ("signal ‘" ++ display name ++ "’") callable_child
          (children e) ([], []) ;;;
  mret (match name, snd r with
        | Some n, true => Some (ASTSignal.Build n (fst (fst r)) (snd (fst r)))
        | _, _ => None
        end).

Definition parse_property (e : xml) : M (option ASTProperty.t) :=
  name <-- require (attrib e) "name" "property" ;;;
  type <-- require (attrib e) "type" "property" ;;;
  access <-- require (attrib e) "access" "property" ;;;
  r <-- parse_children ("property ‘" ++ display name ++ "’")
          (fun t => if String.eqb t "annotation" then Some annotation_child
                    else None)
          (children e) [] ;;;
  mret (match name, type, access, snd r with
        | Some n, Some t, Some a, true =>
            Some (ASTProperty.Build n t a (fst r))
        | _, _, _, _ => None
        end).

(** A member is inserted under its name; a name already present is a
    duplicate-node violation and the member is not inserted. *)
Definition insert_unique {V : Type} (kind qualified name : string) (v : V)
    (d : dict V) : M (option (dict V)) :=
  if contains name d then
    report (DuplicateNodeError
              ("Duplicate " ++ kind ++ " definition ‘" ++ qualified
               ++ "’.")) ;;;
    mret None
  else mret (Some (d ++ [(name, v)])).

Definition interface_child (t : string)
    : option (xml -> ASTInterface.t -> M (option ASTInterface.t)) :=
  if String.eqb t "method" then
    Some (fun e i =>
      m <-- parse_method e ;;;
      match m with
      | None => mret None
      | Some m =>
          methods <-- insert_unique "method"
                        (ASTInterface.name i ++ "." ++ ASTMethod.name m)
                        (ASTMethod.name m) m (ASTInterface.methods i) ;;;
          mret (option_map
                  (fun methods =>
                     ASTInterface.Build (ASTInterface.name i) methods
                       (ASTInterface.properties i) (ASTInterface.signals i)
                       (ASTInterface.annotations i)) methods)
      end)
  else if String.eqb t "signal" then
    Some (fun e i =>
      s <-- parse_signal e ;;;
      match s with
      | None => mret None
      | Some s =>
          signals <-- insert_unique "signal"
                        (ASTInterface.name i ++ "." ++ ASTSignal.name s)
                        (ASTSignal.name s) s (ASTInterface.signals i) ;;;
          mret (option_map
                  (fun signals =>
                     ASTInterface.Build (ASTInterface.name i)
                       (ASTInterface.methods i) (ASTInterface.properties i)
                       signals (ASTInterface.annotations i)) signals)
      end)
  else if String.eqb t "property" then
    Some (fun e i =>
      p <-- parse_property e ;;;
      match p with
      | None => mret None
      | Some p =>
          properties <-- insert_unique "property"
                           (ASTInterface.name i ++ "." ++ ASTProperty.name p)
                           (ASTProperty.name p) p
                           (ASTInterface.properties i) ;;;
          mret (option_map
                  (fun properties =>
                     ASTInterface.Build (ASTInterface.name i)
                       (ASTInterface.methods i) properties
                       (ASTInterface.signals i) (ASTInterface.annotations i))
                  properties)
      end)
  else if String.eqb t "annotation" then
    Some (fun e i =>
      annotations <-- annotation_child e (ASTInterface.annotations i) ;;;
      mret (option_map
              (fun annotations =>
                 ASTInterface.Build (ASTInterface.name i)
                   (ASTInterface.methods i) (ASTInterface.properties i)
                   (ASTInterface.signals i) annotations) annotations))
  else None.

Definition parse_interface (e : xml) : M (option ASTInterface.t) :=
  name <-- require (attrib e) "name" "interface" ;;;
  r <-- parse_children ("interface ‘" ++ display name ++ "’") interface_child
          (children e) (ASTInterface.Build (display name) [] [] [] []) ;;;
  mret (match name, snd r with
        | Some _, true => Some (fst r)
        | _, _ => None
        end).

Definition root_child (t : string)
    : option (xml -> dict ASTInterface.t -> M (option (dict ASTInterface.t))) :=
  if String.eqb t "interface" then
    Some (fun e interfaces =>
      i <-- parse_interface e ;;;
      match i with
      | None => mret None
      | Some i =>
          insert_unique "interface" (ASTInterface.name i)
            (ASTInterface.name i) i interfaces
      end)
  else None.

(** The interface-set element. *)
Definition parse_root (e : xml) : M (option (dict ASTInterface.t)) :=
  r <-- parse_children "root" root_child (children e) [] ;;;
  mret (if snd r then Some (fst r) else None).

(** A document: its root is the interface-set element, or the vendor wrapper
    around exactly one interface-set element. *)
Definition parse_document (document : xml) : M (option (dict ASTInterface.t)) :=
  if String.eqb (tag document) "node" then parse_root document
  else
    match
      (if is_vendor_wrapper (tag document)
       then filter (fun c => String.eqb (tag c) "node") (children document)
       else [])
    with
    | [root] => parse_root root
    | _ =>
        report (UnknownNodeError
                  ("Unknown root node ‘" ++ tag document ++ "’.")) ;;;
        mret None
    end.

End Grammar.

(** Modelled from the spec: the ledger is a list of entries (source, stage,
    code, message); [log] appends one and [reset] clears. *)
Definition log_entry : Type := (string * string * string * string)%type.

Module Loggable.
Definition log (ledger : list log_entry) (source stage code text : string)
    : list log_entry :=
  ledger ++ [(source, stage, code, text)].


(** The codes any error condition can produce. *)
Definition get_error_codes : list string :=
  ["unknown-node"; "missing-attribute"; "duplicate-node"].
End Loggable.

(** The ledger entry of a violation found while parsing [source]. *)
Definition ledger_entry (source : string) (f : failure) : log_entry :=
  (source, "parser", error_code f, message f).

(** A run of the parser: it reads and extends the ledger and either returns
    or fails with a typed failure. *)
Inductive parsed (A : Type) : Type :=
| Parsed (a : A)
| Failed (f : failure).
Arguments Parsed {A} a.
Arguments Failed {A} f.

Definition P (A : Type) : Type := list log_entry -> parsed A * list log_entry.

Definition P_ret (A : Type) (a : A) : P A := fun ledger => (Parsed a, ledger).

Definition P_bind (A B : Type) (m : P A) (k : A -> P B) : P B :=
  fun ledger =>
    match m ledger with
    | (Parsed a, ledger') => k a ledger'
    | (Failed f, ledger') => (Failed f, ledger')
    end.

(** Modelled from the spec: without recovery the first violation aborts the
    parse as a typed failure; with recovery it is appended to the ledger and
    the parse goes on. *)
Definition P_report (source : string) (recover : bool) (f : failure) : P unit :=
  fun ledger =>
    if recover
    then (Parsed tt, Loggable.log ledger source "parser" (error_code f)
                       (message f))
    else (Failed f, ledger).

(** [parse(source, recover)], on the document read from [source]. *)
Definition parse (source : string) (document : xml) (recover : bool)
    : P (option (dict ASTInterface.t)) :=
  parse_document P P_ret P_bind (P_report source recover) document.

(** The collecting run: the grammar run with every report collected, in
    the order of the reports, next to the result.  It is a device of the
    proofs; what the violations of a document are is said by
    [document_violations], which does not run the grammar. *)
Definition W (A : Type) : Type := (list failure * A)%type.

Definition W_ret (A : Type) (a : A) : W A := ([], a).

Definition W_bind (A B : Type) (m : W A) (k : A -> W B) : W B :=
  (fst m ++ fst (k (snd m)), snd (k (snd m))).

Definition W_report (f : failure) : W unit := ([f], tt).

Definition violations (document : xml) : list failure :=
  fst (parse_document W W_ret W_bind W_report document).

(** The parser agrees with the collecting run: with recovery it returns its
    result and appends its reports, in order; without recovery it fails with
    the first report, or returns the result when there is none. *)
Definition faithful (source : string) (recover : bool) {A : Type} (p : P A)
    (w : W A) : Prop :=
  forall ledger,
    p ledger
    = if recover
      then (Parsed (snd w), ledger ++ map (ledger_entry source) (fst w))
      else match fst w with
           | [] => (Parsed (snd w), ledger)
           | f :: _ => (Failed f, ledger)
           end.

(** Two child parsers that agree. *)
Definition faithful_child (source : string) (recover : bool) {S : Type}
    (p : option (xml -> S -> P (option S)))
    (w : option (xml -> S -> W (option S))) : Prop :=
  match p, w with
  | Some p, Some w => forall e acc, faithful source recover (p e acc) (w e acc)
  | None, None => True
  | _, _ => False
  end.

(** A child parser that only accepts a child without violation. *)
Definition clean_child {S : Type} (w : option (xml -> S -> W (option S)))
    : Prop :=
  match w with
  | Some w => forall e acc, snd (w e acc) <> None -> fst (w e acc) = []
  | None => True
  end.

(** ** The grammar violations of a document *)

(** Modelled from the spec: the violations of a document in the words of the
    grammar table (section 4.2), in document order.  These definitions read
    the element tree directly; they do not run the parser and build no
    node.  An element contributes its missing required attributes and then
    what its children contribute, one child after the other; a documentation
    element contributes nothing; a child outside the vocabulary of its
    context is an unknown node; a named element without violation of its own
    whose name an earlier sibling of the same kind, itself without violation,
    already declares is a duplicate. *)
Definition missing_attribute (e : xml) (attribute kind : string)
    : list failure :=
  match getitem (attrib e) attribute with
  | Some _ => []
  | None =>
      [MissingAttributeError
         ("Missing required attribute ‘" ++ attribute ++ "’ in " ++ kind
          ++ ".")]
  end.

Definition unknown_node (context : string) (e : xml) : list failure :=
  [UnknownNodeError
     ("Unknown node ‘" ++ tag e ++ "’ in " ++ context ++ ".")].

(** The name an element is referred to in a message. *)
Definition element_name (e : xml) : string :=
  display (getitem (attrib e) "name").

(** The children that are structural content. *)
Definition structural (cs : list xml) : list xml :=
  filter (fun c => negb (is_documentation (tag c))) cs.

Definition annotation_violations (e : xml) : list failure :=
  missing_attribute e "name" "annotation"
  ++ missing_attribute e "value" "annotation"
  ++ flat_map (unknown_node ("annotation ‘" ++ element_name e ++ "’"))
       (structural (children e)).

(** A child where only annotations are permitted. *)
Definition annotation_only (context : string) (c : xml) : list failure :=
  if String.eqb (tag c) "annotation" then annotation_violations c
  else unknown_node context c.

Definition argument_violations (e : xml) : list failure :=
  missing_attribute e "type" "arg"
  ++ flat_map (annotation_only ("argument ‘" ++ element_name e ++ "’"))
       (structural (children e)).

(** A method or a signal; [kind] is ["method"] or ["signal"]. *)
Definition callable_violations (kind : string) (e : xml) : list failure :=
  missing_attribute e "name" kind
  ++ flat_map
       (fun c =>
          if String.eqb (tag c) "arg" then argument_violations c
          else annotation_only (kind ++ " ‘" ++ element_name e ++ "’") c)
       (structural (children e)).

Definition property_violations (e : xml) : list failure :=
  missing_attribute e "name" "property"
  ++ missing_attribute e "type" "property"
  ++ missing_attribute e "access" "property"
  ++ flat_map (annotation_only ("property ‘" ++ element_name e ++ "’"))
       (structural (children e)).

Definition no_violation (l : list failure) : bool :=
  match l with
  | [] => true
  | _ :: _ => false
  end.

(** [c] declares the name [name] for its kind: it is an element of that
    kind, without violation of its own, with that name. *)
Definition declares (kind : string) (own : xml -> list failure)
    (name : string) (c : xml) : bool :=
  String.eqb (tag c) kind && no_violation (own c)
  && match getitem (attrib c) "name" with
     | Some n => String.eqb n name
     | None => false
     end.

(** The violations of a named element among its siblings: its own, or, when
    it has none, the duplicate of what an earlier sibling declares. *)
Definition named_violations (kind : string) (own : xml -> list failure)
    (qualify : string -> string) (earlier : list xml) (c : xml)
    : list failure :=
  match own c, getitem (attrib c) "name" with
  | [], Some n =>
      if existsb (declares kind own n) earlier then
        [DuplicateNodeError
           ("Duplicate " ++ kind ++ " definition ‘" ++ qualify n ++ "’.")]
      else []
  | v, _ => v
  end.

(** The violations of children, each with its earlier siblings. *)
Fixpoint with_earlier (violation : list xml -> xml -> list failure)
    (earlier cs : list xml) : list failure :=
  match cs with
  | [] => []
  | c :: rest =>
      violation earlier c ++ with_earlier violation (earlier ++ [c]) rest
  end.

(** A child of the interface [e]. *)
Definition interface_member_violations (e : xml) (earlier : list xml)
    (c : xml) : list failure :=
  let qualify := fun n : string => (element_name e ++ "." ++ n)%string in
  if String.eqb (tag c) "method" then
    named_violations "method" (callable_violations "method") qualify earlier c
  else if String.eqb (tag c) "signal" then
    named_violations "signal" (callable_violations "signal") qualify earlier c
  else if String.eqb (tag c) "property" then
    named_violations "property" property_violations qualify earlier c
  else annotation_only ("interface ‘" ++ element_name e ++ "’") c.

Definition interface_violations (e : xml) : list failure :=
  missing_attribute e "name" "interface"
  ++ with_earlier (interface_member_violations e) []
       (structural (children e)).

(** A child of the interface-set element. *)
Definition root_member_violations (earlier : list xml) (c : xml)
    : list failure :=
  if String.eqb (tag c) "interface" then
    named_violations "interface" interface_violations (fun n : string => n) earlier c
  else unknown_node "root" c.

Definition root_violations (e : xml) : list failure :=
  with_earlier root_member_violations [] (structural (children e)).

Definition unknown_root (document : xml) : list failure :=
  [UnknownNodeError ("Unknown root node ‘" ++ tag document ++ "’.")].

(** A document: the interface-set element, or the vendor wrapper around
    exactly one interface-set element. *)
Definition document_violations (document : xml) : list failure :=
  if String.eqb (tag document) "node" then root_violations document
  else if is_vendor_wrapper (tag document) then
    match filter (fun c => String.eqb (tag c) "node") (children document) with
    | [root] => root_violations root
    | _ => unknown_root document
    end
  else unknown_root document.

(** What the parser has accepted of an interface [e] after the children
    [earlier]: the names its three mappings hold are the names the children
    declare. *)
Definition holds_declared {V : Type} (kind : string)
    (own : xml -> list failure) (earlier : list xml) (d : dict V) : Prop :=
  forall n, contains n d = existsb (declares kind own n) earlier.

Definition interface_accepts (e : xml) (earlier : list xml)
    (i : ASTInterface.t) : Prop :=
  ASTInterface.name i = element_name e
  /\ holds_declared "method" (callable_violations "method") earlier
       (ASTInterface.methods i)
  /\ holds_declared "signal" (callable_violations "signal") earlier
       (ASTInterface.signals i)
  /\ holds_declared "property" property_violations earlier
       (ASTInterface.properties i).

(** ** When [compare] raises *)

(** [decides b m]: [m] returns when [b] holds and raises [AssertionError]
    otherwise; it raises nothing else. *)
Definition decides (b : bool) {A : Type} (m : M A) : Prop :=
  forall out,
    match fst (m out) with
    | Returns _ => b = true
    | Raises e => b = false /\ e = AssertionError
    end.

(** The nodes stored under the same key in two mappings have the same name:
    what the assertion of a [_compare_] method checks for each pair that is
    compared. *)
Definition names_agree {V : Type} (name : V -> string) (old new : dict V)
    : bool :=
  forallb (fun kv => match getitem new (fst kv) with
                     | Some v' => String.eqb (name (snd kv)) (name v')
                     | None => true
                     end) old.

(** The assertions met when two interfaces are compared. *)
Definition interface_assertions (old_interface new_interface : ASTInterface.t)
    : bool :=
  String.eqb (ASTInterface.name old_interface)
             (ASTInterface.name new_interface)
  && (names_agree ASTMethod.name (ASTInterface.methods old_interface)
        (ASTInterface.methods new_interface)
      && (names_agree ASTProperty.name (ASTInterface.properties old_interface)
            (ASTInterface.properties new_interface)
          && names_agree ASTSignal.name (ASTInterface.signals old_interface)
               (ASTInterface.signals new_interface))).

(** The assertions met by [compare]. *)
Definition compare_assertions (old new : dict ASTInterface.t) : bool :=
  forallb (fun kv => match getitem new (fst kv) with
                     | Some i' => interface_assertions (snd kv) i'
                     | None => true
                     end) old.

(** ** The levels of the stored entries *)

(** A level [_format_level] knows: informational, forwards-incompatible or
    backwards-incompatible. *)
Definition known_level (e : entry) : Prop :=
  fst e <= OUTPUT_BACKWARDS_INCOMPATIBLE.

(** ** The Deprecated and C-symbol annotations *)

Definition Deprecated : string := "org.freedesktop.DBus.Deprecated".
Definition CSymbol : string := "org.freedesktop.DBus.GLib.CSymbol".

(** The C symbol a node declares, empty when it declares none. *)
Definition c_symbol (n : node) : string :=
  match own_annotation_value CSymbol n with
  | Some v => v
  | None => ""
  end.

(** ** Arguments appended to or dropped from the end of a list *)

(** The entry for an argument that only the new member has, and for one that
    only the old member has; [kind] is ["method"] or ["signal"]. *)
Definition argument_added (format_name : node -> string) (kind : string)
    (new_node : node) (a : ASTArgument.t) : entry :=
  (OUTPUT_BACKWARDS_INCOMPATIBLE,
   ("Argument " ++ format_name (ArgumentNode new_node a) ++ " of " ++ kind
    ++ " ‘" ++ format_name new_node ++ "’ has been added.")%string).

Definition argument_removed (format_name : node -> string) (kind : string)
    (old_node : node) (a : ASTArgument.t) : entry :=
  (OUTPUT_BACKWARDS_INCOMPATIBLE,
   ("Argument " ++ format_name (ArgumentNode old_node a) ++ " of " ++ kind
    ++ " ‘" ++ format_name old_node ++ "’ has been removed.")%string).

(** ** What [compare] stores when it raises *)

(** The first loop of [compare], run over some entries of the old mapping. *)
Definition compare_old_entries (format_name : node -> string)
    (new_interfaces : dict ASTInterface.t)
    (entries : list (string * ASTInterface.t)) : M unit :=
  for_ entries (fun '(name, interface) =>
    if negb (contains name new_interfaces) then
      _issue_output OUTPUT_BACKWARDS_INCOMPATIBLE
        ("Interface ‘" ++ name ++ "’ has been removed.")
    else
      new_interface <- lookup new_interfaces name ;;
      _compare_interfaces format_name interface new_interface).

(** ** A parse without result *)

(** A collecting run that gives no result has reported a violation. *)
Definition loud {A : Type} (w : W (option A)) : Prop :=
  snd w = None -> fst w <> [].

(** A child parser that only rejects a child with a violation. *)
Definition loud_child {S : Type} (w : option (xml -> S -> W (option S)))
    : Prop :=
  match w with
  | Some w => forall e acc, loud (w e acc)
  | None => True
  end.

(** ** Documents without documentation *)



(** ** The mapping a document declares *)

(** The mapping of a document read off its element tree: every element of a
    kind gives the node of that kind, with the attributes of the element and
    the nodes of its children, in document order. *)
Definition attribute (e : xml) (name : string) : string :=
  match getitem (attrib e) name with
  | Some v => v
  | None => ""
  end.

Definition children_of (kind : string) (e : xml) : list xml :=
  filter (fun c => String.eqb (tag c) kind) (children e).

Definition read_annotation (e : xml) : ASTAnnotation.t :=
  ASTAnnotation.Build (attribute e "name") (attribute e "value").

(** The annotations of an element, by name; of two annotations with the same
    name the later one counts. *)
Definition read_annotations (e : xml) : dict ASTAnnotation.t :=
  fold_left (fun d c => setitem d (attribute c "name") (read_annotation c))
    (children_of "annotation" e) [].

Definition read_argument (index : nat) (e : xml) : ASTArgument.t :=
  ASTArgument.Build (getitem (attrib e) "name") (attribute e "type")
    (getitem (attrib e) "direction") index (read_annotations e).

(** Arguments are numbered by their position. *)
Fixpoint read_arguments_from (index : nat) (cs : list xml)
    : list ASTArgument.t :=
  match cs with
  | [] => []
  | c :: rest => read_argument index c :: read_arguments_from (S index) rest
  end.

Definition read_arguments (e : xml) : list ASTArgument.t :=
  read_arguments_from 0 (children_of "arg" e).

Definition read_method (e : xml) : ASTMethod.t :=
  ASTMethod.Build (attribute e "name") (read_arguments e)
    (read_annotations e).

Definition read_signal (e : xml) : ASTSignal.t :=
  ASTSignal.Build (attribute e "name") (read_arguments e)
    (read_annotations e).

Definition read_property (e : xml) : ASTProperty.t :=
  ASTProperty.Build (attribute e "name") (attribute e "type")
    (attribute e "access") (read_annotations e).

(** Named nodes are stored under their names. *)
Definition read_members {V : Type} (read : xml -> V) (cs : list xml)
    : dict V :=
  map (fun c => (attribute c "name", read c)) cs.

Definition read_interface (e : xml) : ASTInterface.t :=
  ASTInterface.Build (attribute e "name")
    (read_members read_method (children_of "method" e))
    (read_members read_property (children_of "property" e))
    (read_members read_signal (children_of "signal" e))
    (read_annotations e).

(** The interface-set element of a document. *)
Definition document_root (document : xml) : option xml :=
  if String.eqb (tag document) "node" then Some document
  else if is_vendor_wrapper (tag document) then
    match children_of "node" document with
    | [root] => Some root
    | _ => None
    end
  else None.

Definition document_interfaces (document : xml) : dict ASTInterface.t :=
  match document_root document with
  | Some root => read_members read_interface (children_of "interface" root)
  | None => []
  end.

(** What one child adds to what is read of its parent. *)
Definition annotations_step (d : dict ASTAnnotation.t) (c : xml)
    : dict ASTAnnotation.t :=
  if String.eqb (tag c) "annotation"
  then setitem d (attribute c "name") (read_annotation c)
  else d.

Definition callable_step
    (acc : list ASTArgument.t * dict ASTAnnotation.t) (c : xml)
    : list ASTArgument.t * dict ASTAnnotation.t :=
  (if String.eqb (tag c) "arg"
   then fst acc ++ [read_argument (length (fst acc)) c]
   else fst acc,
   annotations_step (snd acc) c).

Definition interface_step (i : ASTInterface.t) (c : xml) : ASTInterface.t :=
  ASTInterface.Build (ASTInterface.name i)
    (if String.eqb (tag c) "method"
     then ASTInterface.methods i ++ [(attribute c "name", read_method c)]
     else ASTInterface.methods i)
    (if String.eqb (tag c) "property"
     then ASTInterface.properties i ++ [(attribute c "name", read_property c)]
     else ASTInterface.properties i)
    (if String.eqb (tag c) "signal"
     then ASTInterface.signals i ++ [(attribute c "name", read_signal c)]
     else ASTInterface.signals i)
    (annotations_step (ASTInterface.annotations i) c).

Definition root_step (d : dict ASTInterface.t) (c : xml)
    : dict ASTInterface.t :=
  if String.eqb (tag c) "interface"
  then d ++ [(attribute c "name", read_interface c)]
  else d.

(** ** Concrete inputs *)

Module Examples.

Definition annotation (name value : string) : string * ASTAnnotation.t :=
  (name, ASTAnnotation.Build name value).

(** An interface [I] without members, and the node of a property [P] of [I]
    with given annotations. *)
Definition interface_I : ASTInterface.t :=
  ASTInterface.Build "I" [] [] [] [].

Definition property_P (type access : string)
    (annotations : dict ASTAnnotation.t) : ASTProperty.t :=
  ASTProperty.Build "P" type access annotations.

Definition node_P (annotations : dict ASTAnnotation.t) : node :=
  PropertyNode (InterfaceNode interface_I) (property_P "s" "read" annotations).

(** A method [M] of [I] with given arguments and annotations. *)
Definition method_M (arguments : list ASTArgument.t)
    (annotations : dict ASTAnnotation.t) : ASTMethod.t :=
  ASTMethod.Build "M" arguments annotations.

Definition node_M (annotations : dict ASTAnnotation.t) : node :=
  MethodNode (InterfaceNode interface_I) (method_M [] annotations).

Definition argument (index : nat) (name type : string) : ASTArgument.t :=
  ASTArgument.Build (Some name) type (Some "in") index [].

(** A signal [S] of [I] with given arguments. *)
Definition signal_S (arguments : list ASTArgument.t) : ASTSignal.t :=
  ASTSignal.Build "S" arguments [].

(** Two versions of a model: [I] is removed, [J] loses its method [M] and
    [K] is added. *)
Definition interface_J (methods : dict ASTMethod.t) : ASTInterface.t :=
  ASTInterface.Build "J" methods [] [] [].

Definition interface_K : ASTInterface.t :=
  ASTInterface.Build "K" [] [] [] [].

Definition old_model : dict ASTInterface.t :=
  [("I", interface_I); ("J", interface_J [("M", method_M [] [])])].

Definition new_model : dict ASTInterface.t :=
  [("J", interface_J []); ("K", interface_K)].

(** A model with one interface that has a member of each kind. *)
Definition full_model : dict ASTInterface.t :=
  [("I", ASTInterface.Build "I"
           [("M", method_M [argument 0 "x" "s"]
                    [annotation NoReply "true"])]
           [("P", property_P "s" "read"
                    [annotation EmitsChangedSignal "const"])]
           [("S", signal_S [argument 0 "y" "i"])]
           [annotation "org.freedesktop.DBus.Deprecated" "true"])].



End Examples.

Module MoreExamples.

(** The interface [I] with given annotations. *)
Definition annotated_I (annotations : dict ASTAnnotation.t) : ASTInterface.t :=
  ASTInterface.Build "I" [] [] [] annotations.

(** Two interfaces stored under the same key with different names. *)
Definition misnamed_old : dict ASTInterface.t := [("I", annotated_I [])].
Definition misnamed_new : dict ASTInterface.t :=
  [("I", ASTInterface.Build "J" [] [] [] [])].

End MoreExamples.

(** Documents for the parser, as element trees. *)
Module ParserTests.

Definition node (children : list xml) : xml := Element "node" [] children.

(** The interface [I] with given children. *)
Definition interface_I (children : list xml) : xml :=
  Element "interface" [("name", "I")] children.

(** The two documentation elements of the tests. *)
Definition docstring : xml :=
  Element ("{" ++ TP_DTD ++ "}docstring") [] [].
Definition doc : xml := Element ("{" ++ DOC_DTD ++ "}doc") [] [].

(** A document with documentation elements at every level, and the same
    document without them. *)
Definition documented : xml :=
  node [docstring;
        interface_I
          [doc;
           Element "method" [("name", "M")]
             [docstring; Element "arg" [("type", "s")] [doc]];
           Element "property"
             [("name", "P"); ("type", "s"); ("access", "read")] [docstring];
           Element "annotation" [("name", "A"); ("value", "V")] [doc]]].

Definition plain : xml :=
  node [interface_I
          [Element "method" [("name", "M")]
             [Element "arg" [("type", "s")] []];
           Element "property"
             [("name", "P"); ("type", "s"); ("access", "read")] [];
           Element "annotation" [("name", "A"); ("value", "V")] []]].

(** The mapping of [plain]. *)
Definition plain_model : dict ASTInterface.t :=
  [("I", ASTInterface.Build "I"
           [("M", ASTMethod.Build "M"
                    [ASTArgument.Build None "s" None 0 []] [])]
           [("P", ASTProperty.Build "P" "s" "read" [])]
           []
           [("A", ASTAnnotation.Build "A" "V")])].

(** A later version of [plain]: the method has one more argument, the
    property another type and access, and there is a new interface. *)
Definition changed : xml :=
  node [interface_I
          [Element "method" [("name", "M")]
             [Element "arg" [("type", "s")] [];
              Element "arg" [("name", "x"); ("type", "i")] []];
           Element "property"
             [("name", "P"); ("type", "i"); ("access", "readwrite")] [];
           Element "annotation" [("name", "A"); ("value", "V")] []];
        Element "interface" [("name", "K")] []].

Definition changed_model : dict ASTInterface.t :=
  [("I", ASTInterface.Build "I"
           [("M", ASTMethod.Build "M"
                    [ASTArgument.Build None "s" None 0 [];
                     ASTArgument.Build (Some "x") "i" None 1 []] [])]
           [("P", ASTProperty.Build "P" "i" "readwrite" [])]
           []
           [("A", ASTAnnotation.Build "A" "V")]);
   ("K", ASTInterface.Build "K" [] [] [] [])].

End ParserTests.
Lemma runs_ret {A : Type} (a : A) : runs (ret a) a [].
Proof. intros out. unfold ret. now rewrite app_nil_r. Qed.

Lemma runs_bind {A B : Type} (m : M A) (k : A -> M B) a b l1 l2 :
  runs m a l1 -> runs (k a) b l2 -> runs (bind m k) b (l1 ++ l2).
Proof.
  intros Hm Hk out. unfold bind. rewrite Hm, Hk. now rewrite app_assoc.
Qed.

Lemma runs_bind_silent {A B : Type} (m : M A) (k : A -> M B) a b l :
  runs m a [] -> runs (k a) b l -> runs (bind m k) b l.
Proof. intros Hm Hk. exact (runs_bind m k a b [] l Hm Hk). Qed.

Lemma runs_emitted {A : Type} {m : M A} {a l} : runs m a l -> emitted m = l.
Proof. intros H. unfold emitted. now rewrite H. Qed.

Lemma runs_result {A : Type} {m : M A} {a l} :
  runs m a l -> result m = Returns a.
Proof. intros H. unfold result. now rewrite H. Qed.

Lemma runs_self {A : Type} {m : M A} {a l} :
  runs m a l -> runs m a (emitted m).
Proof. intros H. now rewrite (runs_emitted H). Qed.

Lemma runs_for {A : Type} (xs : list A) (body : A -> M unit)
    (f : A -> list entry) :
  (forall x, In x xs -> runs (body x) tt (f x)) ->
  runs (for_ xs body) tt (flat_map f xs).
Proof.
  induction xs as [|x rest IH]; intros H; simpl.
  - apply runs_ret.
  - apply runs_bind with (a := tt).
    + apply H. now left.
    + apply IH. intros y Hy. apply H. now right.
Qed.

Lemma emits_only_ret {A : Type} P (a : A) : emits_only P (ret a).
Proof. intros out H. exact H. Qed.

Lemma emits_only_raise {A : Type} P e : emits_only P (@raise A e).
Proof. intros out H. exact H. Qed.

Lemma emits_only_bind {A B : Type} P (m : M A) (k : A -> M B) :
  emits_only P m -> (forall a, emits_only P (k a)) -> emits_only P (bind m k).
Proof.
  intros Hm Hk out H. unfold bind.
  specialize (Hm out H). destruct (m out) as [[a|e] out']; simpl in *.
  - now apply Hk.
  - exact Hm.
Qed.

Lemma emits_only_for {A : Type} P (xs : list A) (body : A -> M unit) :
  (forall x, emits_only P (body x)) -> emits_only P (for_ xs body).
Proof.
  intros H. induction xs as [|x rest IH]; simpl.
  - apply emits_only_ret.
  - apply emits_only_bind; auto.
Qed.

Lemma emits_only_emitted {A : Type} P (m : M A) :
  emits_only P m -> Forall P (emitted m).
Proof. intros H. apply H. constructor. Qed.

Lemma runs_issue_output level message :
  runs (_issue_output level message) tt [(level, message)].
Proof. intros out. reflexivity. Qed.

Lemma runs_assert b : b = true -> runs (assert_ b) tt [].
Proof. intros ->. apply runs_ret. Qed.

Lemma runs_lookup {V : Type} (d : dict V) k v :
  getitem d k = Some v -> runs (lookup d k) v [].
Proof. intros H. unfold lookup. rewrite H. apply runs_ret. Qed.

Lemma runs_index {V : Type} (l : list V) i v :
  nth_error l i = Some v -> runs (index_ l i) v [].
Proof. intros H. unfold index_. rewrite H. apply runs_ret. Qed.

Lemma emits_only_issue_output (P : entry -> Prop) level message :
  P (level, message) -> emits_only P (_issue_output level message).
Proof.
  intros H out Hout. simpl. apply Forall_app. split; auto.
Qed.

Lemma emits_only_assert P b : emits_only P (assert_ b).
Proof. destruct b; [apply emits_only_ret | apply emits_only_raise]. Qed.

Lemma emits_only_lookup {V : Type} P (d : dict V) k : emits_only P (lookup d k).
Proof.
  unfold lookup. destruct (getitem d k);
    [apply emits_only_ret | apply emits_only_raise].
Qed.

Lemma emits_only_index {V : Type} P (l : list V) i : emits_only P (index_ l i).
Proof.
  unfold index_. destruct (nth_error l i);
    [apply emits_only_ret | apply emits_only_raise].
Qed.

(** ** Dictionaries *)

Section DictFacts.
Context {V : Type}.

Lemma contains_In (d : dict V) k v : In (k, v) d -> contains k d = true.
Proof.
  intros H. unfold contains. apply existsb_exists. exists (k, v).
  split; [exact H | apply String.eqb_refl].
Qed.

Lemma contains_getitem (d : dict V) k :
  contains k d = true <-> exists v, getitem d k = Some v.
Proof.
  induction d as [|[k' v'] rest IH]; simpl.
  - split; [discriminate | intros [v Hv]; discriminate].
  - destruct (String.eqb k k'); simpl.
    + split; [eauto | reflexivity].
    + exact IH.
Qed.

Lemma contains_false_getitem (d : dict V) k :
  contains k d = false <-> getitem d k = None.
Proof.
  induction d as [|[k' v'] rest IH]; simpl.
  - tauto.
  - destruct (String.eqb k k'); simpl.
    + split; discriminate.
    + exact IH.
Qed.

Lemma getitem_In (d : dict V) k v : getitem d k = Some v -> In (k, v) d.
Proof.
  induction d as [|[k' v'] rest IH]; simpl; [discriminate|].
  destruct (String.eqb_spec k k') as [->|Hne].
  - intros [= ->]. now left.
  - intros H. right. now apply IH.
Qed.

Lemma well_keyed_getitem (d : dict V) k v :
  well_keyed d = true -> In (k, v) d -> getitem d k = Some v.
Proof.
  induction d as [|[k' v'] rest IH]; simpl; [intros _ []|].
  intros Hwk [Heq | Hin].
  - injection Heq as -> ->. now rewrite String.eqb_refl.
  - apply andb_prop in Hwk as [Hfresh Hwk].
    destruct (String.eqb_spec k k') as [->|Hne].
    + apply contains_In in Hin. rewrite Hin in Hfresh. discriminate.
    + now apply IH.
Qed.
End DictFacts.

(** ** The annotation getters *)

Lemma str_in_In x l : str_in x l = true <-> In x l.
Proof.
  unfold str_in. rewrite existsb_exists. split.
  - intros [y [Hy Heq]]. apply String.eqb_eq in Heq. now subst.
  - intros H. exists x. split; [exact H | apply String.eqb_refl].
Qed.

Lemma str_in_not_In x l : str_in x l = false <-> ~ In x l.
Proof.
  rewrite <- str_in_In. destruct (str_in x l); split; congruence.
Qed.

Lemma effective_emits_changed_signal_correct n :
  _get_emits_changed_signal_annotation n = effective_emits_changed_signal n.
Proof.
  unfold effective_emits_changed_signal.
  induction n as [i | interface IH m | interface IH s | interface IH p
                 | parent IH a]; simpl;
    unfold own_annotation_value at 1; simpl;
    match goal with
    | |- context [getitem ?d EmitsChangedSignal] =>
        destruct (getitem d EmitsChangedSignal); simpl; auto
    end.
Qed.

Ltac case_if :=
  match goal with
  | |- context [if ?b then _ else _] => destruct b eqn:?
  end.

Ltac run_leaf :=
  first [ apply runs_issue_output | apply runs_ret ].

Section AnnotationChecks.
Variable format_name : node -> string.

Lemma deprecated_check_runs old_node new_node :
  runs (_compare_annotations_deprecated format_name old_node new_node) tt
       (emitted (_compare_annotations_deprecated format_name old_node new_node)).
Proof.
  unfold _compare_annotations_deprecated.
  repeat case_if; eapply runs_self; run_leaf.
Qed.

Lemma c_symbol_check_runs old_node new_node :
  runs (_compare_annotations_c_symbol format_name old_node new_node) tt
       (emitted (_compare_annotations_c_symbol format_name old_node new_node)).
Proof.
  unfold _compare_annotations_c_symbol.
  repeat case_if; eapply runs_self; run_leaf.
Qed.

Lemma no_reply_check_runs old_node new_node :
  runs (_compare_annotations_no_reply format_name old_node new_node) tt
       (emitted (_compare_annotations_no_reply format_name old_node new_node)).
Proof.
  unfold _compare_annotations_no_reply.
  repeat case_if; eapply runs_self; run_leaf.
Qed.

Lemma emits_changed_signal_check_runs old_node new_node :
  runs (_compare_annotations_emits_changed_signal format_name old_node
          new_node) tt
       (emitted (_compare_annotations_emits_changed_signal format_name
                   old_node new_node)).
Proof.
  unfold _compare_annotations_emits_changed_signal.
  repeat case_if; eapply runs_self; run_leaf.
Qed.

(** [_compare_annotations] never raises, and what it appends is what its
    four checks append, in order. *)
Lemma compare_annotations_runs old_node new_node :
  runs (_compare_annotations format_name old_node new_node) tt
    (emitted (_compare_annotations_deprecated format_name old_node new_node)
     ++ emitted (_compare_annotations_c_symbol format_name old_node new_node)
     ++ emitted (_compare_annotations_no_reply format_name old_node new_node)
     ++ emitted (_compare_annotations_emits_changed_signal format_name
                   old_node new_node)).
Proof.
  unfold _compare_annotations.
  eapply runs_bind; [apply deprecated_check_runs|].
  eapply runs_bind; [apply c_symbol_check_runs|].
  eapply runs_bind; [apply no_reply_check_runs|].
  apply emits_changed_signal_check_runs.
Qed.

(** The six rows of the Emits-changed-signal table, on the effective
    values. *)
Lemma emits_changed_signal_rows old_node new_node :
  let old_ecs := _get_emits_changed_signal_annotation old_node in
  let new_ecs := _get_emits_changed_signal_annotation new_node in
  let check :=
    emitted (_compare_annotations_emits_changed_signal format_name old_node
               new_node) in
  (In old_ecs ["true"; "invalidates"] -> In new_ecs ["false"; "const"] ->
   check = [(OUTPUT_FORWARDS_INCOMPATIBLE,
             ("Node ‘" ++ format_name old_node
             ++ "’ stopped emitting org.freedesktop.DBus.PropertiesChanged.")%string)])
  /\ (In old_ecs ["false"; "const"] -> In new_ecs ["true"; "invalidates"] ->
      check = [(OUTPUT_BACKWARDS_INCOMPATIBLE,
                ("Node ‘" ++ format_name old_node
                ++ "’ started emitting org.freedesktop.DBus.PropertiesChanged.")%string)])
  /\ (old_ecs = "true" -> new_ecs = "invalidates" ->
      check = [(OUTPUT_BACKWARDS_INCOMPATIBLE,
                ("Node ‘" ++ format_name old_node
                ++ "’ stopped emitting its new value in "
                ++ "org.freedesktop.DBus.PropertiesChanged.")%string)])
  /\ (old_ecs = "invalidates" -> new_ecs = "true" ->
      check = [(OUTPUT_BACKWARDS_INCOMPATIBLE,
                ("Node ‘" ++ format_name old_node
                ++ "’ started emitting its new value in "
                ++ "org.freedesktop.DBus.PropertiesChanged.")%string)])
  /\ (old_ecs = "const" -> new_ecs = "false" ->
      check = [(OUTPUT_BACKWARDS_INCOMPATIBLE,
                ("Node ‘" ++ format_name old_node
                ++ "’ stopped being a constant.")%string)])
  /\ (old_ecs = "false" -> new_ecs = "const" ->
      check = [(OUTPUT_FORWARDS_INCOMPATIBLE,
                ("Node ‘" ++ format_name old_node ++ "’ became a constant.")%string)]).
Proof.
  intros old_ecs new_ecs check. subst check.
  unfold _compare_annotations_emits_changed_signal.
  fold old_ecs new_ecs. clearbody old_ecs new_ecs.
  repeat split; intros Ho Hn; simpl in Ho, Hn;
    repeat match goal with
           | H : _ \/ _ |- _ => destruct H as [H | H]
           | H : False |- _ => destruct H
           end;
    subst; reflexivity.
Qed.

(** The check is silent exactly on the transitions no row covers: equal
    effective values, or a value outside the enumeration. *)
Lemma emits_changed_signal_silent_iff old_node new_node :
  let old_ecs := _get_emits_changed_signal_annotation old_node in
  let new_ecs := _get_emits_changed_signal_annotation new_node in
  emitted (_compare_annotations_emits_changed_signal format_name old_node
             new_node) = []
  <-> (old_ecs = new_ecs
       \/ ~ In old_ecs emits_changed_signal_values
       \/ ~ In new_ecs emits_changed_signal_values).
Proof.
  intros old_ecs new_ecs.
  unfold _compare_annotations_emits_changed_signal.
  fold old_ecs new_ecs. clearbody old_ecs new_ecs.
  unfold str_in, emits_changed_signal_values. simpl.
  destruct (String.eqb_spec old_ecs "true"),
           (String.eqb_spec old_ecs "invalidates"),
           (String.eqb_spec old_ecs "false"),
           (String.eqb_spec old_ecs "const");
    try congruence;
    destruct (String.eqb_spec new_ecs "true"),
             (String.eqb_spec new_ecs "invalidates"),
             (String.eqb_spec new_ecs "false"),
             (String.eqb_spec new_ecs "const");
    try congruence; subst; simpl;
    (split; [intros H; try discriminate H | intros H]);
    try reflexivity; try tauto; try intuition congruence.
Qed.
End AnnotationChecks.

Section AnnotationRules.
Variable format_name : node -> string.

Lemma emits_changed_signal_row_sound old_node new_node level describe :
  emits_changed_signal_row (_get_emits_changed_signal_annotation old_node)
    (_get_emits_changed_signal_annotation new_node) level describe ->
  emitted (_compare_annotations_emits_changed_signal format_name old_node
             new_node) = [(level, describe (format_name old_node))].
Proof.
  intros H.
  pose proof (emits_changed_signal_rows format_name old_node new_node) as R.
  cbv zeta in R. destruct R as (R1 & R2 & R3 & R4 & R5 & R6).
  inversion H; subst;
    [ apply R1 | apply R2 | apply R3 | apply R4 | apply R5 | apply R6 ];
    congruence.
Qed.

Lemma effective_no_reply_correct n :
  _get_bool_annotation n NoReply false = effective_no_reply n.
Proof.
  unfold _get_bool_annotation, effective_no_reply, own_annotation_value.
  destruct (getitem (annotations n) NoReply); reflexivity.
Qed.

Lemma no_reply_row_sound old_node new_node level describe :
  no_reply_row (effective_no_reply old_node) (effective_no_reply new_node)
    level describe ->
  emitted (_compare_annotations_no_reply format_name old_node new_node)
  = [(level, describe (format_name old_node))].
Proof.
  intros H. unfold _compare_annotations_no_reply.
  change "org.freedesktop.DBus.Method.NoReply" with NoReply.
  rewrite !effective_no_reply_correct.
  destruct (effective_no_reply old_node), (effective_no_reply new_node);
    inversion H; reflexivity.
Qed.

Lemma no_reply_unchanged old_node new_node :
  effective_no_reply old_node = effective_no_reply new_node ->
  emitted (_compare_annotations_no_reply format_name old_node new_node) = [].
Proof.
  intros H. unfold _compare_annotations_no_reply.
  change "org.freedesktop.DBus.Method.NoReply" with NoReply.
  rewrite !effective_no_reply_correct, H.
  destruct (effective_no_reply new_node); reflexivity.
Qed.

(** The getters of the well-known annotations only see the well-known
    names. *)
Lemma same_well_known_own {n n'} k :
  same_well_known n n' -> In k well_known_annotations ->
  getitem (annotations n) k = getitem (annotations n') k.
Proof. destruct n, n'; simpl; intros [H _]; apply H. Qed.

Lemma same_well_known_emits_changed_signal n :
  forall n', same_well_known n n' ->
  _get_emits_changed_signal_annotation n
  = _get_emits_changed_signal_annotation n'.
Proof.
  induction n as [i | interface IH m | interface IH s | interface IH p
                 | parent IH a];
    intros n' H;
    pose proof (same_well_known_own EmitsChangedSignal H) as Hown;
    destruct n' as [i' | interface' m' | interface' s' | interface' p'
                   | parent' a'];
    simpl in *; destruct H as [_ H]; try contradiction;
    rewrite Hown by tauto;
    match goal with
    | |- context [getitem ?d EmitsChangedSignal] =>
        destruct (getitem d EmitsChangedSignal); auto
    end.
Qed.

Lemma same_well_known_compare_annotations old_node new_node old_node'
    new_node' :
  format_name old_node = format_name old_node' ->
  same_well_known old_node old_node' ->
  same_well_known new_node new_node' ->
  emitted (_compare_annotations format_name old_node new_node)
  = emitted (_compare_annotations format_name old_node' new_node').
Proof.
  intros Hname Hold Hnew.
  rewrite (runs_emitted (compare_annotations_runs format_name old_node
                           new_node)).
  rewrite (runs_emitted (compare_annotations_runs format_name old_node'
                           new_node')).
  unfold _compare_annotations_deprecated, _compare_annotations_c_symbol,
    _compare_annotations_no_reply, _compare_annotations_emits_changed_signal,
    _get_bool_annotation, _get_string_annotation.
  rewrite (same_well_known_emits_changed_signal _ _ Hold),
    (same_well_known_emits_changed_signal _ _ Hnew), Hname.
  rewrite !(same_well_known_own _ Hold), !(same_well_known_own _ Hnew)
    by (simpl; tauto).
  reflexivity.
Qed.
End AnnotationRules.

(** ** Members: arguments, methods, signals, properties *)

Lemma runs_issued (b : bool) level message :
  runs (if b then _issue_output level message else ret tt) tt
       (issued b level message).
Proof. destruct b; [apply runs_issue_output | apply runs_ret]. Qed.

Lemma option_string_eqb_spec a b :
  reflect (a = b) (option_string_eqb a b).
Proof.
  destruct a as [x|], b as [y|]; simpl; try (constructor; congruence).
  destruct (String.eqb_spec x y); constructor; congruence.
Qed.

Section MemberChecks.
Variable format_name : node -> string.

Lemma compare_arguments_runs old_parent old_arg new_parent new_arg :
  runs (_compare_arguments format_name old_parent old_arg new_parent new_arg)
    tt
    (issued (negb (option_string_eqb (ASTArgument.name old_arg)
                                     (ASTArgument.name new_arg)))
       OUTPUT_INFO
       ("Argument " ++ format_u (ASTArgument.index old_arg) ++ " of ‘"
        ++ format_name old_parent ++ "’ has changed name from ‘"
        ++ format_s (ASTArgument.name old_arg) ++ "’ to ‘"
        ++ format_s (ASTArgument.name new_arg) ++ "’.")
     ++ issued (negb (String.eqb (ASTArgument.type old_arg)
                                 (ASTArgument.type new_arg)))
          OUTPUT_BACKWARDS_INCOMPATIBLE
          ("Argument " ++ format_u (ASTArgument.index old_arg) ++ " of ‘"
           ++ format_name old_parent ++ "’ has changed type from ‘"
           ++ ASTArgument.type old_arg ++ "’ to ‘"
           ++ ASTArgument.type new_arg ++ "’.")
     ++ issued (negb (option_string_eqb (ASTArgument.direction old_arg)
                                        (ASTArgument.direction new_arg)))
          OUTPUT_BACKWARDS_INCOMPATIBLE
          ("Argument " ++ format_u (ASTArgument.index old_arg) ++ " of ‘"
           ++ format_name old_parent ++ "’ has changed direction from ‘"
           ++ format_s (ASTArgument.direction old_arg) ++ "’ to ‘"
           ++ format_s (ASTArgument.direction new_arg) ++ "’.")
     ++ emitted (_compare_annotations format_name
                   (ArgumentNode old_parent old_arg)
                   (ArgumentNode new_parent new_arg))).
Proof.
  unfold _compare_arguments.
  eapply runs_bind; [apply runs_issued|].
  eapply runs_bind; [apply runs_issued|].
  eapply runs_bind; [apply runs_issued|].
  eapply runs_self. apply compare_annotations_runs.
Qed.

Lemma compare_properties_runs old_interface old_property new_interface
    new_property :
  ASTProperty.name old_property = ASTProperty.name new_property ->
  runs (_compare_properties format_name old_interface old_property
          new_interface new_property) tt
    (issued (negb (String.eqb (ASTProperty.type old_property)
                              (ASTProperty.type new_property)))
       OUTPUT_BACKWARDS_INCOMPATIBLE
       ("Property ‘"
        ++ format_name (PropertyNode old_interface old_property)
        ++ "’ has changed type from ‘" ++ ASTProperty.type old_property
        ++ "’ to ‘" ++ ASTProperty.type new_property ++ "’.")
     ++ (if (String.eqb (ASTProperty.access old_property)
                        ASTProperty.ACCESS_READ
             || String.eqb (ASTProperty.access old_property)
                           ASTProperty.ACCESS_WRITE)
            && String.eqb (ASTProperty.access new_property)
                          ASTProperty.ACCESS_READWRITE
         then [(OUTPUT_FORWARDS_INCOMPATIBLE,
                ("Property ‘"
                 ++ format_name (PropertyNode old_interface old_property)
                 ++ "’ has changed access from ‘"
                 ++ ASTProperty.access old_property ++ "’ to ‘"
                 ++ ASTProperty.access new_property
                 ++ "’, becoming less restrictive.")%string)]
         else issued (negb (String.eqb (ASTProperty.access old_property)
                                       (ASTProperty.access new_property)))
                OUTPUT_BACKWARDS_INCOMPATIBLE
                ("Property ‘"
                 ++ format_name (PropertyNode old_interface old_property)
                 ++ "’ has changed access from ‘"
                 ++ ASTProperty.access old_property ++ "’ to ‘"
                 ++ ASTProperty.access new_property ++ "’."))
     ++ emitted (_compare_annotations format_name
                   (PropertyNode old_interface old_property)
                   (PropertyNode new_interface new_property))).
Proof.
  intros Hname. unfold _compare_properties.
  eapply runs_bind_silent.
  { apply runs_assert. rewrite Hname. apply String.eqb_refl. }
  eapply runs_bind; [apply runs_issued|].
  eapply runs_bind.
  { case_if; [apply runs_issue_output | apply runs_issued]. }
  eapply runs_self. apply compare_annotations_runs.
Qed.

(** The body of the loop over the argument positions, at a position below
    the length of the longer list. *)
Ltac positional_body :=
  match goal with
  | Hi : In ?i (seq 0 (Nat.max (length ?olds) (length ?news))) |- _ =>
      apply in_seq in Hi; cbv beta;
      unfold positional_diff;
      destruct (Nat.leb_spec (length olds) i) as [Hold | Hold];
      [ rewrite (proj2 (nth_error_None olds i)) by lia;
        destruct (nth_error news i) as [new_arg|] eqn:Hnew;
        [ eapply runs_bind_silent;
          [ apply runs_index; exact Hnew | apply runs_issue_output ]
        | apply nth_error_None in Hnew; lia ]
      | destruct (nth_error olds i) as [old_arg|] eqn:Hold';
        [ | apply nth_error_None in Hold'; lia ];
        destruct (Nat.leb_spec (length news) i) as [Hnew | Hnew];
        [ rewrite (proj2 (nth_error_None news i)) by lia;
          eapply runs_bind_silent;
          [ apply runs_index; exact Hold' | apply runs_issue_output ]
        | destruct (nth_error news i) as [new_arg|] eqn:Hnew';
          [ | apply nth_error_None in Hnew'; lia ];
          eapply runs_bind_silent; [ apply runs_index; exact Hold' |];
          eapply runs_bind_silent; [ apply runs_index; exact Hnew' |];
          eapply runs_self; apply compare_arguments_runs ] ]
  end.

Lemma compare_methods_runs old_interface old_method new_interface
    new_method :
  ASTMethod.name old_method = ASTMethod.name new_method ->
  runs (_compare_methods format_name old_interface old_method new_interface
          new_method) tt
    (positional_diffs format_name "method"
       (MethodNode old_interface old_method)
       (MethodNode new_interface new_method)
       (ASTMethod.arguments old_method) (ASTMethod.arguments new_method)
     ++ emitted (_compare_annotations format_name
                   (MethodNode old_interface old_method)
                   (MethodNode new_interface new_method))).
Proof.
  intros Hname. unfold _compare_methods, positional_diffs, range.
  cbv zeta.
  eapply runs_bind_silent.
  { apply runs_assert. rewrite Hname. apply String.eqb_refl. }
  eapply runs_bind.
  - apply runs_for. intros i Hi. positional_body.
  - eapply runs_self. apply compare_annotations_runs.
Qed.

Lemma compare_signals_runs old_interface old_signal new_interface
    new_signal :
  ASTSignal.name old_signal = ASTSignal.name new_signal ->
  runs (_compare_signals format_name old_interface old_signal new_interface
          new_signal) tt
    (positional_diffs format_name "signal"
       (SignalNode old_interface old_signal)
       (SignalNode new_interface new_signal)
       (ASTSignal.arguments old_signal) (ASTSignal.arguments new_signal)
     ++ emitted (_compare_annotations format_name
                   (SignalNode old_interface old_signal)
                   (SignalNode new_interface new_signal))).
Proof.
  intros Hname. unfold _compare_signals, positional_diffs, range.
  cbv zeta.
  eapply runs_bind_silent.
  { apply runs_assert. rewrite Hname. apply String.eqb_refl. }
  eapply runs_bind.
  - apply runs_for. intros i Hi. positional_body.
  - eapply runs_self. apply compare_annotations_runs.
Qed.
End MemberChecks.

(** ** Interfaces *)

Lemma keyed_by_name_In {V : Type} (name : V -> string) (d : dict V) k v :
  keyed_by_name name d = true -> In (k, v) d -> k = name v.
Proof.
  unfold keyed_by_name. rewrite forallb_forall. intros H Hin.
  apply String.eqb_eq. exact (H (k, v) Hin).
Qed.

Lemma keyed_by_name_getitem {V : Type} (name : V -> string) (d : dict V) k v :
  keyed_by_name name d = true -> getitem d k = Some v -> k = name v.
Proof. intros H Hget. eapply keyed_by_name_In; eauto using getitem_In. Qed.

(** The loop over the old mapping, for a body that issues a removal or
    compares. *)
Lemma runs_old_loop {V : Type} (old new : dict V) (body : string * V -> M unit)
    (removed : string -> V -> entry) (compared : V -> V -> list entry) :
  (forall k v, In (k, v) old -> getitem new k = None ->
               runs (body (k, v)) tt [removed k v]) ->
  (forall k v v', In (k, v) old -> getitem new k = Some v' ->
                  runs (body (k, v)) tt (compared v v')) ->
  runs (for_ (items old) body) tt
    (flat_map (fun kv => match getitem new (fst kv) with
                         | None => [removed (fst kv) (snd kv)]
                         | Some v' => compared (snd kv) v'
                         end) old).
Proof.
  intros Hremoved Hcompared. apply runs_for. intros [k v] Hin. simpl.
  destruct (getitem new k) as [v'|] eqn:Hget; auto.
Qed.

(** The loop over the new mapping, for a body that issues an addition. *)
Lemma runs_new_loop {V : Type} (old new : dict V) level
    (message : string -> V -> string) :
  runs (for_ (items new)
          (fun kv => let '(name, v) := kv in
                     if negb (contains name old)
                     then _issue_output level (message name v)
                     else ret tt)) tt
    (flat_map (fun kv => if contains (fst kv) old then []
                         else [(level, message (fst kv) (snd kv))]) new).
Proof.
  apply runs_for. intros [k v] _. simpl.
  destruct (contains k old); [apply runs_ret | apply runs_issue_output].
Qed.

Section Interfaces.
Variable format_name : node -> string.

Lemma compare_interfaces_runs old_interface new_interface :
  valid_interface old_interface = true ->
  valid_interface new_interface = true ->
  ASTInterface.name old_interface = ASTInterface.name new_interface ->
  runs (_compare_interfaces format_name old_interface new_interface) tt
       (interface_diffs format_name old_interface new_interface).
Proof.
  unfold valid_interface. intros Hold Hnew Hname.
  repeat (apply andb_prop in Hold as [Hold ?]).
  repeat (apply andb_prop in Hnew as [Hnew ?]).
  unfold _compare_interfaces, interface_diffs, member_diffs. cbv zeta.
  rewrite <- !app_assoc.
  eapply runs_bind_silent.
  { apply runs_assert. rewrite Hname. apply String.eqb_refl. }
  eapply runs_bind with (a := tt).
  { apply runs_old_loop with
      (removed := fun (_ : string) m =>
         (OUTPUT_BACKWARDS_INCOMPATIBLE,
          ("Method ‘"
           ++ format_name (MethodNode (InterfaceNode old_interface) m)
           ++ "’ has been removed.")%string))
      (compared := fun m m' =>
         emitted (_compare_methods format_name (InterfaceNode old_interface) m
                    (InterfaceNode new_interface) m')).
    - intros k v Hin Hget. apply contains_false_getitem in Hget.
      rewrite Hget. apply runs_issue_output.
    - intros k v v' Hin Hget.
      assert (Hc : contains k (ASTInterface.methods new_interface) = true)
        by (apply contains_getitem; eauto).
      rewrite Hc. cbn [negb].
      eapply runs_bind_silent; [apply runs_lookup; exact Hget|].
      eapply runs_self. apply compare_methods_runs.
      rewrite <- (keyed_by_name_In ASTMethod.name
                    (ASTInterface.methods old_interface) k v) by assumption.
      apply (keyed_by_name_getitem ASTMethod.name
               (ASTInterface.methods new_interface)); assumption. }
  eapply runs_bind with (a := tt).
  { apply (runs_new_loop (ASTInterface.methods old_interface)
             (ASTInterface.methods new_interface)
             OUTPUT_FORWARDS_INCOMPATIBLE
             (fun _ m => ("Method ‘"
                ++ format_name (MethodNode (InterfaceNode new_interface) m)
                ++ "’ has been added.")%string)). }
  eapply runs_bind with (a := tt).
  { apply runs_old_loop with
      (removed := fun (_ : string) p =>
         (OUTPUT_BACKWARDS_INCOMPATIBLE,
          ("Property ‘"
           ++ format_name (PropertyNode (InterfaceNode old_interface) p)
           ++ "’ has been removed.")%string))
      (compared := fun p p' =>
         emitted (_compare_properties format_name (InterfaceNode old_interface) p
                    (InterfaceNode new_interface) p')).
    - intros k v Hin Hget. apply contains_false_getitem in Hget.
      rewrite Hget. apply runs_issue_output.
    - intros k v v' Hin Hget.
      assert (Hc : contains k (ASTInterface.properties new_interface) = true)
        by (apply contains_getitem; eauto).
      rewrite Hc. cbn [negb].
      eapply runs_bind_silent; [apply runs_lookup; exact Hget|].
      eapply runs_self. apply compare_properties_runs.
      rewrite <- (keyed_by_name_In ASTProperty.name
                    (ASTInterface.properties old_interface) k v) by assumption.
      apply (keyed_by_name_getitem ASTProperty.name
               (ASTInterface.properties new_interface)); assumption. }
  eapply runs_bind with (a := tt).
  { apply (runs_new_loop (ASTInterface.properties old_interface)
             (ASTInterface.properties new_interface)
             OUTPUT_FORWARDS_INCOMPATIBLE
             (fun _ p => ("Property ‘"
                ++ format_name (PropertyNode (InterfaceNode new_interface) p)
                ++ "’ has been added.")%string)). }
  eapply runs_bind with (a := tt).
  { apply runs_old_loop with
      (removed := fun (_ : string) s =>
         (OUTPUT_BACKWARDS_INCOMPATIBLE,
          ("Signal ‘"
           ++ format_name (SignalNode (InterfaceNode old_interface) s)
           ++ "’ has been removed.")%string))
      (compared := fun s s' =>
         emitted (_compare_signals format_name (InterfaceNode old_interface) s
                    (InterfaceNode new_interface) s')).
    - intros k v Hin Hget. apply contains_false_getitem in Hget.
      rewrite Hget. apply runs_issue_output.
    - intros k v v' Hin Hget.
      assert (Hc : contains k (ASTInterface.signals new_interface) = true)
        by (apply contains_getitem; eauto).
      rewrite Hc. cbn [negb].
      eapply runs_bind_silent; [apply runs_lookup; exact Hget|].
      eapply runs_self. apply compare_signals_runs.
      rewrite <- (keyed_by_name_In ASTSignal.name
                    (ASTInterface.signals old_interface) k v) by assumption.
      apply (keyed_by_name_getitem ASTSignal.name
               (ASTInterface.signals new_interface)); assumption. }
  eapply runs_bind with (a := tt).
  { apply (runs_new_loop (ASTInterface.signals old_interface)
             (ASTInterface.signals new_interface)
             OUTPUT_FORWARDS_INCOMPATIBLE
             (fun _ s => ("Signal ‘"
                ++ format_name (SignalNode (InterfaceNode new_interface) s)
                ++ "’ has been added.")%string)). }
  eapply runs_self. apply compare_annotations_runs.
Qed.

Lemma valid_interfaces_In d k i :
  valid_interfaces d = true -> In (k, i) d ->
  valid_interface i = true /\ k = ASTInterface.name i.
Proof.
  unfold valid_interfaces. intros H Hin.
  apply andb_prop in H as [H Hall]. apply andb_prop in H as [_ Hkeyed].
  split.
  - rewrite forallb_forall in Hall. exact (Hall (k, i) Hin).
  - eapply keyed_by_name_In; eassumption.
Qed.

Lemma compare_loops_runs self :
  valid_interfaces (_old_interfaces self) = true ->
  valid_interfaces (_new_interfaces self) = true ->
  runs (compare_loops format_name self) tt
       (interfaces_diffs format_name (_old_interfaces self)
          (_new_interfaces self)).
Proof.
  intros Hold Hnew. unfold compare_loops, interfaces_diffs, member_diffs.
  eapply runs_bind with (a := tt).
  - apply runs_old_loop with
      (removed := fun (name : string) (_ : ASTInterface.t) =>
                    interface_removed name)
      (compared := fun i i' => interface_diffs format_name i i').
    + intros k v Hin Hget. apply contains_false_getitem in Hget.
      rewrite Hget. apply runs_issue_output.
    + intros k v v' Hin Hget.
      assert (Hc : contains k (_new_interfaces self) = true)
        by (apply contains_getitem; eauto).
      rewrite Hc. cbn [negb].
      eapply runs_bind_silent; [apply runs_lookup; exact Hget|].
      destruct (valid_interfaces_In _ _ _ Hold Hin) as [Hv Hk].
      destruct (valid_interfaces_In _ _ _ Hnew (getitem_In _ _ _ Hget))
        as [Hv' Hk'].
      apply compare_interfaces_runs; congruence.
  - apply (runs_new_loop (_old_interfaces self) (_new_interfaces self)
             OUTPUT_FORWARDS_INCOMPATIBLE
             (fun name _ => ("Interface ‘" ++ name
                             ++ "’ has been added.")%string)).
Qed.

Lemma compare_valid self :
  valid_interfaces (_old_interfaces self) = true ->
  valid_interfaces (_new_interfaces self) = true ->
  compare format_name self
  = (Returns (get_output
               (set_output self
                  (interfaces_diffs format_name (_old_interfaces self)
                     (_new_interfaces self)))),
     set_output self
       (interfaces_diffs format_name (_old_interfaces self)
          (_new_interfaces self))).
Proof.
  intros Hold Hnew. unfold compare. cbv zeta.
  pose proof (compare_loops_runs (set_output self []) Hold Hnew) as Hruns.
  cbn [_output set_output] in *. rewrite Hruns. reflexivity.
Qed.
End Interfaces.

(** ** Comparing a model with itself *)

Lemma flat_map_nil {A B : Type} (f : A -> list B) (l : list A) :
  (forall x, In x l -> f x = []) -> flat_map f l = [].
Proof.
  induction l as [|x rest IH]; intros H; simpl; [reflexivity|].
  rewrite (H x) by now left. apply IH. intros y Hy. apply H. now right.
Qed.

Lemma member_diffs_same {V : Type} (d : dict V) removed compared added :
  well_keyed d = true ->
  (forall k v, In (k, v) d -> compared v v = []) ->
  @member_diffs V d d removed compared added = [].
Proof.
  intros Hwk Hsame. unfold member_diffs.
  rewrite !flat_map_nil; [reflexivity | |].
  - intros [k v] Hin. simpl. now rewrite (contains_In d k v Hin).
  - intros [k v] Hin. simpl. rewrite (well_keyed_getitem d k v Hwk Hin).
    eauto.
Qed.

Section Same.
Variable format_name : node -> string.

Lemma compare_annotations_same n :
  emitted (_compare_annotations format_name n n) = [].
Proof.
  rewrite (runs_emitted (compare_annotations_runs format_name n n)).
  assert (Hecs : emitted (_compare_annotations_emits_changed_signal
                            format_name n n) = []).
  { apply emits_changed_signal_silent_iff. now left. }
  rewrite Hecs.
  unfold _compare_annotations_deprecated, _compare_annotations_c_symbol,
    _compare_annotations_no_reply.
  rewrite String.eqb_refl.
  destruct (_get_bool_annotation n "org.freedesktop.DBus.Deprecated" false),
    (_get_bool_annotation n "org.freedesktop.DBus.Method.NoReply" false);
    reflexivity.
Qed.

Lemma option_string_eqb_refl a : option_string_eqb a a = true.
Proof. destruct (option_string_eqb_spec a a); congruence. Qed.

Lemma compare_arguments_same parent a :
  emitted (_compare_arguments format_name parent a parent a) = [].
Proof.
  rewrite (runs_emitted (compare_arguments_runs format_name parent a parent a)).
  rewrite !option_string_eqb_refl, String.eqb_refl, compare_annotations_same.
  reflexivity.
Qed.

Lemma positional_diffs_same kind n args :
  positional_diffs format_name kind n n args args = [].
Proof.
  unfold positional_diffs. apply flat_map_nil. intros i Hi.
  apply in_seq in Hi. rewrite Nat.max_id in Hi.
  destruct (nth_error args i) as [a|] eqn:Ha.
  - apply compare_arguments_same.
  - apply nth_error_None in Ha. lia.
Qed.

Lemma compare_methods_same interface m :
  emitted (_compare_methods format_name interface m interface m) = [].
Proof.
  rewrite (runs_emitted
             (compare_methods_runs format_name interface m interface m
                eq_refl)).
  now rewrite positional_diffs_same, compare_annotations_same.
Qed.

Lemma compare_signals_same interface s :
  emitted (_compare_signals format_name interface s interface s) = [].
Proof.
  rewrite (runs_emitted
             (compare_signals_runs format_name interface s interface s
                eq_refl)).
  now rewrite positional_diffs_same, compare_annotations_same.
Qed.

Lemma compare_properties_same interface p :
  emitted (_compare_properties format_name interface p interface p) = [].
Proof.
  rewrite (runs_emitted
             (compare_properties_runs format_name interface p interface p
                eq_refl)).
  rewrite !String.eqb_refl, compare_annotations_same. cbn [negb issued].
  case_if; [|reflexivity].
  exfalso. apply andb_prop in Heqb as [Hold Hnew].
  apply String.eqb_eq in Hnew. rewrite Hnew in Hold. discriminate Hold.
Qed.

Lemma interface_diffs_same i :
  valid_interface i = true -> interface_diffs format_name i i = [].
Proof.
  unfold valid_interface. intros H.
  repeat (apply andb_prop in H as [H ?]).
  unfold interface_diffs. cbv zeta.
  rewrite !member_diffs_same, compare_annotations_same; auto; intros.
  - apply compare_signals_same.
  - apply compare_properties_same.
  - apply compare_methods_same.
Qed.

Lemma interfaces_diffs_same d :
  valid_interfaces d = true -> interfaces_diffs format_name d d = [].
Proof.
  intros H. unfold interfaces_diffs. apply member_diffs_same.
  - unfold valid_interfaces in H. apply andb_prop in H as [H _].
    now apply andb_prop in H as [H _].
  - intros k i Hin. apply interface_diffs_same.
    now destruct (valid_interfaces_In _ _ _ H Hin).
Qed.
End Same.

(** ** Counting the messages about interfaces *)

Ltac emits_only_step :=
  first
    [ apply emits_only_ret
    | apply emits_only_assert
    | apply emits_only_lookup
    | apply emits_only_index
    | apply emits_only_issue_output; reflexivity
    | apply emits_only_for; intros
    | apply emits_only_bind; [|intros]
    | match goal with
      | |- emits_only _ (if ?b then _ else _) => destruct b
      | |- emits_only _ (let '(_, _) := ?x in _) => destruct x
      end ].

Section AboutMember.
Variable format_name : node -> string.

Lemma compare_annotations_about_member old_node new_node :
  emits_only about_member (_compare_annotations format_name old_node new_node).
Proof.
  unfold _compare_annotations, _compare_annotations_deprecated,
    _compare_annotations_c_symbol, _compare_annotations_no_reply,
    _compare_annotations_emits_changed_signal.
  cbv zeta. repeat emits_only_step.
Qed.

Lemma compare_arguments_about_member old_parent old_arg new_parent new_arg :
  emits_only about_member
    (_compare_arguments format_name old_parent old_arg new_parent new_arg).
Proof.
  unfold _compare_arguments.
  repeat first [ apply compare_annotations_about_member | emits_only_step ].
Qed.

Lemma compare_methods_about_member old_interface old_method new_interface
    new_method :
  emits_only about_member
    (_compare_methods format_name old_interface old_method new_interface
       new_method).
Proof.
  unfold _compare_methods. cbv zeta.
  repeat first [ apply compare_annotations_about_member
               | apply compare_arguments_about_member | emits_only_step ].
Qed.

Lemma compare_signals_about_member old_interface old_signal new_interface
    new_signal :
  emits_only about_member
    (_compare_signals format_name old_interface old_signal new_interface
       new_signal).
Proof.
  unfold _compare_signals. cbv zeta.
  repeat first [ apply compare_annotations_about_member
               | apply compare_arguments_about_member | emits_only_step ].
Qed.

Lemma compare_properties_about_member old_interface old_property
    new_interface new_property :
  emits_only about_member
    (_compare_properties format_name old_interface old_property new_interface
       new_property).
Proof.
  unfold _compare_properties. cbv zeta.
  repeat first [ apply compare_annotations_about_member | emits_only_step ].
Qed.

Lemma compare_interfaces_about_member old_interface new_interface :
  emits_only about_member
    (_compare_interfaces format_name old_interface new_interface).
Proof.
  unfold _compare_interfaces. cbv zeta.
  repeat first [ apply compare_annotations_about_member
               | apply compare_methods_about_member
               | apply compare_signals_about_member
               | apply compare_properties_about_member
               | emits_only_step ].
Qed.

Lemma interface_diffs_about_member old_interface new_interface :
  valid_interface old_interface = true ->
  valid_interface new_interface = true ->
  ASTInterface.name old_interface = ASTInterface.name new_interface ->
  Forall about_member
    (interface_diffs format_name old_interface new_interface).
Proof.
  intros Hold Hnew Hname.
  rewrite <- (runs_emitted
                (compare_interfaces_runs format_name old_interface
                   new_interface Hold Hnew Hname)).
  apply emits_only_emitted, compare_interfaces_about_member.
Qed.
End AboutMember.

Lemma append_length a b :
  String.length (a ++ b) = String.length a + String.length b.
Proof. induction a as [|c a IH]; simpl; [reflexivity | now rewrite IH]. Qed.

Lemma append_cancel_r a : forall b s, (a ++ s = b ++ s)%string -> a = b.
Proof.
  induction a as [|c a IH]; intros [|c' b] s H; simpl in H.
  - reflexivity.
  - apply (f_equal String.length) in H. simpl in H.
    rewrite append_length in H. lia.
  - apply (f_equal String.length) in H. simpl in H.
    rewrite append_length in H. lia.
  - injection H as -> H. f_equal. eapply IH. exact H.
Qed.

Lemma interface_removed_inj a b :
  interface_removed a = interface_removed b -> a = b.
Proof.
  unfold interface_removed. intros H. injection H as H.
  eapply append_cancel_r. exact H.
Qed.

Lemma interface_added_inj a b :
  interface_added a = interface_added b -> a = b.
Proof.
  unfold interface_added. intros H. injection H as H.
  eapply append_cancel_r. exact H.
Qed.

Lemma about_member_not_removed l X :
  Forall about_member l -> count_occ entry_eq_dec l (interface_removed X) = 0.
Proof.
  intros H. apply count_occ_not_In. intros Hin.
  rewrite Forall_forall in H. specialize (H _ Hin). discriminate H.
Qed.

Lemma about_member_not_added l X :
  Forall about_member l -> count_occ entry_eq_dec l (interface_added X) = 0.
Proof.
  intros H. apply count_occ_not_In. intros Hin.
  rewrite Forall_forall in H. specialize (H _ Hin). discriminate H.
Qed.

Section Counting.
Context {V : Type}.
Variable compared : V -> V -> list entry.

(** In the pass over the old mapping, the removal of [X] is counted once if
    [X] is a name of [old], when [X] is not a name of [new]. *)
Lemma count_removed (old new : dict V) X :
  well_keyed old = true ->
  (forall k v v', In (k, v) old -> getitem new k = Some v' ->
                  Forall about_member (compared v v')) ->
  contains X new = false ->
  count_occ entry_eq_dec
    (flat_map (fun kv => match getitem new (fst kv) with
                         | None => [interface_removed (fst kv)]
                         | Some v' => compared (snd kv) v'
                         end) old)
    (interface_removed X)
  = if contains X old then 1 else 0.
Proof.
  intros Hwk Hcmp HX. apply contains_false_getitem in HX.
  induction old as [|[k v] rest IH]; [reflexivity|].
  simpl in Hwk. apply andb_prop in Hwk as [Hfresh Hwk].
  simpl flat_map. rewrite count_occ_app, IH; auto.
  2:{ intros k' w w' Hin. apply Hcmp. now right. }
  cbn [contains existsb fst]. fold (contains X rest).
  destruct (String.eqb_spec X k) as [->|Hne].
  - rewrite HX. cbn [orb count_occ].
    destruct (entry_eq_dec (interface_removed k) (interface_removed k));
      [|congruence].
    destruct (contains k rest); [discriminate Hfresh | reflexivity].
  - cbn [orb]. destruct (getitem new k) as [v'|] eqn:Hget.
    + rewrite about_member_not_removed; [reflexivity|].
      eapply Hcmp; [now left | exact Hget].
    + cbn [count_occ].
      destruct (entry_eq_dec (interface_removed k) (interface_removed X))
        as [Heq|_]; [|reflexivity].
      apply interface_removed_inj in Heq. congruence.
Qed.

(** In the pass over the new mapping, the addition of [X] is counted once if
    [X] is a name of [new], when [X] is not a name of [old]. *)
Lemma count_added (old new : dict V) X :
  well_keyed new = true ->
  contains X old = false ->
  count_occ entry_eq_dec
    (flat_map (fun kv => if contains (fst kv) old then []
                         else [interface_added (fst kv)]) new)
    (interface_added X)
  = if contains X new then 1 else 0.
Proof.
  intros Hwk HX.
  induction new as [|[k v] rest IH]; [reflexivity|].
  simpl in Hwk. apply andb_prop in Hwk as [Hfresh Hwk].
  simpl flat_map. rewrite count_occ_app, IH; auto.
  cbn [contains existsb fst]. fold (contains X rest).
  destruct (String.eqb_spec X k) as [->|Hne].
  - rewrite HX. cbn [orb count_occ].
    destruct (entry_eq_dec (interface_added k) (interface_added k));
      [|congruence].
    destruct (contains k rest); [discriminate Hfresh | reflexivity].
  - cbn [orb]. destruct (contains k old); [reflexivity|].
    cbn [count_occ].
    destruct (entry_eq_dec (interface_added k) (interface_added X))
      as [Heq|_]; [|reflexivity].
    apply interface_added_inj in Heq. congruence.
Qed.

(** Additions are not removals, and the other way round. *)
Lemma count_removed_in_added (old new : dict V) X :
  count_occ entry_eq_dec
    (flat_map (fun kv => if contains (fst kv) old then []
                         else [interface_added (fst kv)]) new)
    (interface_removed X) = 0.
Proof.
  apply count_occ_not_In. rewrite in_flat_map. intros [[k v] [_ Hin]].
  simpl in Hin. destruct (contains k old); [exact Hin|].
  destruct Hin as [Heq | []]. discriminate Heq.
Qed.

Lemma count_added_in_removed (old new : dict V) X :
  (forall k v v', In (k, v) old -> getitem new k = Some v' ->
                  Forall about_member (compared v v')) ->
  count_occ entry_eq_dec
    (flat_map (fun kv => match getitem new (fst kv) with
                         | None => [interface_removed (fst kv)]
                         | Some v' => compared (snd kv) v'
                         end) old)
    (interface_added X) = 0.
Proof.
  intros Hcmp. apply count_occ_not_In. rewrite in_flat_map.
  intros [[k v] [Hkv Hin]]. simpl in Hin.
  destruct (getitem new k) as [v'|] eqn:Hget.
  - specialize (Hcmp k v v' Hkv Hget). rewrite Forall_forall in Hcmp.
    specialize (Hcmp _ Hin). discriminate Hcmp.
  - destruct Hin as [Heq | []]. discriminate Heq.
Qed.
(** Nothing is counted for a name that both mappings have. *)
Lemma count_removed_present (old new : dict V) X :
  (forall k v v', In (k, v) old -> getitem new k = Some v' ->
                  Forall about_member (compared v v')) ->
  contains X new = true ->
  count_occ entry_eq_dec
    (flat_map (fun kv => match getitem new (fst kv) with
                         | None => [interface_removed (fst kv)]
                         | Some v' => compared (snd kv) v'
                         end) old)
    (interface_removed X) = 0.
Proof.
  intros Hcmp HX. apply count_occ_not_In. rewrite in_flat_map.
  intros [[k v] [Hkv Hin]]. simpl in Hin.
  destruct (getitem new k) as [v'|] eqn:Hget.
  - specialize (Hcmp k v v' Hkv Hget). rewrite Forall_forall in Hcmp.
    specialize (Hcmp _ Hin). discriminate Hcmp.
  - destruct Hin as [Heq | []]. apply interface_removed_inj in Heq. subst k.
    apply contains_false_getitem in Hget. congruence.
Qed.

Lemma count_added_present (old new : dict V) X :
  contains X old = true ->
  count_occ entry_eq_dec
    (flat_map (fun kv => if contains (fst kv) old then []
                         else [interface_added (fst kv)]) new)
    (interface_added X) = 0.
Proof.
  intros HX. apply count_occ_not_In. rewrite in_flat_map.
  intros [[k v] [_ Hin]]. simpl in Hin.
  destruct (contains k old) eqn:Hk; [exact Hin|].
  destruct Hin as [Heq | []]. apply interface_added_inj in Heq. congruence.
Qed.
End Counting.

Section CountingInterfaces.
Variable format_name : node -> string.

Lemma interfaces_compared_about_member old new :
  valid_interfaces old = true -> valid_interfaces new = true ->
  forall k v v', In (k, v) old -> getitem new k = Some v' ->
                 Forall about_member (interface_diffs format_name v v').
Proof.
  intros Hold Hnew k v v' Hin Hget.
  destruct (valid_interfaces_In _ _ _ Hold Hin) as [Hv Hk].
  destruct (valid_interfaces_In _ _ _ Hnew (getitem_In _ _ _ Hget))
    as [Hv' Hk'].
  apply interface_diffs_about_member; congruence.
Qed.

Lemma valid_interfaces_well_keyed d :
  valid_interfaces d = true -> well_keyed d = true.
Proof.
  unfold valid_interfaces. intros H. apply andb_prop in H as [H _].
  now apply andb_prop in H as [H _].
Qed.

Lemma interfaces_diffs_count_removed old new X :
  valid_interfaces old = true -> valid_interfaces new = true ->
  count_occ entry_eq_dec (interfaces_diffs format_name old new)
    (interface_removed X)
  = if contains X old && negb (contains X new) then 1 else 0.
Proof.
  intros Hold Hnew. unfold interfaces_diffs, member_diffs.
  rewrite count_occ_app, count_removed_in_added, Nat.add_0_r.
  pose proof (interfaces_compared_about_member old new Hold Hnew) as Hcmp.
  destruct (contains X new) eqn:HX.
  - rewrite andb_false_r. now apply count_removed_present.
  - rewrite andb_true_r.
    apply count_removed; auto using valid_interfaces_well_keyed.
Qed.

Lemma interfaces_diffs_count_added old new X :
  valid_interfaces old = true -> valid_interfaces new = true ->
  count_occ entry_eq_dec (interfaces_diffs format_name old new)
    (interface_added X)
  = if contains X new && negb (contains X old) then 1 else 0.
Proof.
  intros Hold Hnew. unfold interfaces_diffs, member_diffs.
  pose proof (interfaces_compared_about_member old new Hold Hnew) as Hcmp.
  rewrite count_occ_app, count_added_in_removed by exact Hcmp.
  destruct (contains X old) eqn:HX.
  - rewrite andb_false_r. now apply count_added_present.
  - rewrite andb_true_r.
    apply count_added; auto using valid_interfaces_well_keyed.
Qed.
End CountingInterfaces.

(** ** Reading the stored output *)

Lemma get_output_loop_filter self stored out :
  get_output_loop self stored out
  = out ++ filter (fun e => _warning_enabled self (fst e)) stored.
Proof.
  revert out. induction stored as [|[level message] rest IH]; intros out.
  - simpl. now rewrite app_nil_r.
  - simpl. destruct (_warning_enabled self level); simpl; rewrite IH.
    + now rewrite <- app_assoc.
    + reflexivity.
Qed.

Lemma get_output_filter self :
  get_output self
  = filter (fun e => _warning_enabled self (fst e)) (_output self).
Proof. unfold get_output. now rewrite get_output_loop_filter. Qed.

(** [compare] on a comparator given by its fields. *)
Lemma compare_fields (format_name : node -> string) old_interfaces
    new_interfaces stored enabled_warnings :
  compare format_name
    {| _old_interfaces := old_interfaces; _new_interfaces := new_interfaces;
       _output := stored; _enabled_warnings := enabled_warnings |}
  = match compare_loops format_name
            {| _old_interfaces := old_interfaces;
               _new_interfaces := new_interfaces;
               _output := []; _enabled_warnings := enabled_warnings |} [] with
    | (Returns _, out) =>
        (Returns (get_output
                    {| _old_interfaces := old_interfaces;
                       _new_interfaces := new_interfaces;
                       _output := out;
                       _enabled_warnings := enabled_warnings |}),
         {| _old_interfaces := old_interfaces;
            _new_interfaces := new_interfaces;
            _output := out; _enabled_warnings := enabled_warnings |})
    | (Raises e, out) =>
        (Raises e,
         {| _old_interfaces := old_interfaces;
            _new_interfaces := new_interfaces;
            _output := out; _enabled_warnings := enabled_warnings |})
    end.
Proof. reflexivity. Qed.

Lemma warning_enabled_level self level :
  _warning_enabled self level = true ->
  _format_level level = Some (nth level [" INFO"; " WARN"; "ERROR"] "").
Proof.
  unfold _warning_enabled, _format_level.
  destruct level as [|[|[|level]]]; simpl; intros H; try reflexivity.
  discriminate H.
Qed.

Lemma print_output_loop_written self stored written :
  print_output_loop self stored written
  = (Returns tt,
     written
     ++ map written_line
          (filter (fun e => _warning_enabled self (fst e)) stored)).
Proof.
  revert written. induction stored as [|[level message] rest IH];
    intros written.
  - simpl. now rewrite app_nil_r.
  - cbn [print_output_loop filter fst].
    destruct (_warning_enabled self level) eqn:Henabled; cbn [negb].
    + rewrite (warning_enabled_level self level Henabled), IH.
      cbn [map]. rewrite <- app_assoc. reflexivity.
    + apply IH.
Qed.

Lemma print_output_written self :
  print_output self = (Returns tt, map written_line (get_output self)).
Proof.
  unfold print_output. rewrite print_output_loop_written, get_output_filter.
  reflexivity.
Qed.

(** ** The parser and the collecting run *)

Section Faithful.
Variable source : string.
Variable recover : bool.

Lemma faithful_ret {A : Type} (a : A) :
  faithful source recover (P_ret A a) (W_ret A a).
Proof.
  intros ledger. unfold P_ret, W_ret. simpl.
  destruct recover; [now rewrite app_nil_r | reflexivity].
Qed.

Lemma faithful_report f :
  faithful source recover (P_report source recover f) (W_report f).
Proof. intros ledger. unfold P_report. destruct recover; reflexivity. Qed.

Lemma faithful_bind {A B : Type} (p : P A) (w : W A) (k : A -> P B)
    (k' : A -> W B) :
  faithful source recover p w ->
  (forall a, faithful source recover (k a) (k' a)) ->
  faithful source recover (P_bind A B p k) (W_bind A B w k').
Proof.
  intros Hp Hk ledger. unfold P_bind, W_bind. rewrite Hp. cbn [fst snd].
  destruct recover.
  - rewrite Hk, map_app, app_assoc. reflexivity.
  - destruct (fst w) as [|f rest]; [apply Hk | reflexivity].
Qed.

Lemma require_faithful attributes attribute kind :
  faithful source recover
    (require P P_ret P_bind (P_report source recover) attributes attribute kind)
    (require W W_ret W_bind W_report attributes attribute kind).
Proof.
  unfold require. destruct (getitem attributes attribute).
  - apply faithful_ret.
  - apply faithful_bind; [apply faithful_report | intros; apply faithful_ret].
Qed.

Lemma parse_children_faithful {S : Type} context
    (child : string -> option (xml -> S -> P (option S)))
    (child' : string -> option (xml -> S -> W (option S))) cs :
  (forall t, faithful_child source recover (child t) (child' t)) ->
  forall acc,
    faithful source recover
      (parse_children P P_ret P_bind (P_report source recover) context child
         cs acc)
      (parse_children W W_ret W_bind W_report context child' cs acc).
Proof.
  intros Hchild. induction cs as [|c rest IH]; intros acc; simpl.
  - apply faithful_ret.
  - destruct (is_documentation (tag c)); [apply IH|].
    specialize (Hchild (tag c)). unfold faithful_child in Hchild.
    destruct (child (tag c)) as [p|], (child' (tag c)) as [w|];
      try contradiction.
    + apply faithful_bind; [apply Hchild|].
      intros [acc'|]; [apply IH|].
      apply faithful_bind; [apply IH | intros; apply faithful_ret].
    + apply faithful_bind; [apply faithful_report|]. intros _.
      apply faithful_bind; [apply IH | intros; apply faithful_ret].
Qed.

Ltac faithful_step :=
  first
    [ apply faithful_ret
    | apply faithful_report
    | apply require_faithful
    | apply faithful_bind; [|intros]
    | match goal with
      | |- faithful _ _ (match ?x with _ => _ end) _ => destruct x
      | |- faithful _ _ (if ?x then _ else _) _ => destruct x
      end ].

Lemma parse_annotation_faithful e :
  faithful source recover
    (parse_annotation P P_ret P_bind (P_report source recover) e)
    (parse_annotation W W_ret W_bind W_report e).
Proof.
  unfold parse_annotation.
  apply faithful_bind; [apply require_faithful | intros name].
  apply faithful_bind; [apply require_faithful | intros value].
  apply faithful_bind; [|intros; apply faithful_ret].
  apply parse_children_faithful. intros t. exact I.
Qed.

Lemma annotation_child_faithful e annotations :
  faithful source recover
    (annotation_child P P_ret P_bind (P_report source recover) e annotations)
    (annotation_child W W_ret W_bind W_report e annotations).
Proof.
  unfold annotation_child.
  apply faithful_bind; [apply parse_annotation_faithful|].
  intros; apply faithful_ret.
Qed.

Lemma annotations_only_faithful t :
  faithful_child source recover
    (if String.eqb t "annotation"
     then Some (annotation_child P P_ret P_bind (P_report source recover))
     else None)
    (if String.eqb t "annotation"
     then Some (annotation_child W W_ret W_bind W_report)
     else None).
Proof.
  destruct (String.eqb t "annotation"); simpl; [|exact I].
  intros; apply annotation_child_faithful.
Qed.

Lemma parse_argument_faithful index e :
  faithful source recover
    (parse_argument P P_ret P_bind (P_report source recover) index e)
    (parse_argument W W_ret W_bind W_report index e).
Proof.
  unfold parse_argument.
  apply faithful_bind; [apply require_faithful | intros type].
  apply faithful_bind; [|intros; apply faithful_ret].
  apply parse_children_faithful. apply annotations_only_faithful.
Qed.

Lemma callable_child_faithful t :
  faithful_child source recover (callable_child P P_ret P_bind (P_report source recover) t)
    (callable_child W W_ret W_bind W_report t).
Proof.
  unfold callable_child.
  destruct (String.eqb t "arg"); simpl.
  { intros e acc.
    apply faithful_bind; [apply parse_argument_faithful|].
    intros; apply faithful_ret. }
  destruct (String.eqb t "annotation"); simpl; [|exact I].
  intros e acc.
  apply faithful_bind; [apply annotation_child_faithful|].
  intros; apply faithful_ret.
Qed.

Lemma parse_method_faithful e :
  faithful source recover
    (parse_method P P_ret P_bind (P_report source recover) e)
    (parse_method W W_ret W_bind W_report e).
Proof.
  unfold parse_method.
  apply faithful_bind; [apply require_faithful | intros name].
  apply faithful_bind; [|intros; apply faithful_ret].
  apply parse_children_faithful. apply callable_child_faithful.
Qed.

Lemma parse_signal_faithful e :
  faithful source recover
    (parse_signal P P_ret P_bind (P_report source recover) e)
    (parse_signal W W_ret W_bind W_report e).
Proof.
  unfold parse_signal.
  apply faithful_bind; [apply require_faithful | intros name].
  apply faithful_bind; [|intros; apply faithful_ret].
  apply parse_children_faithful. apply callable_child_faithful.
Qed.

Lemma parse_property_faithful e :
  faithful source recover
    (parse_property P P_ret P_bind (P_report source recover) e)
    (parse_property W W_ret W_bind W_report e).
Proof.
  unfold parse_property.
  apply faithful_bind; [apply require_faithful | intros name].
  apply faithful_bind; [apply require_faithful | intros type].
  apply faithful_bind; [apply require_faithful | intros access].
  apply faithful_bind; [|intros; apply faithful_ret].
  apply parse_children_faithful. apply annotations_only_faithful.
Qed.

Lemma insert_unique_faithful {V : Type} kind qualified name (v : V) d :
  faithful source recover
    (insert_unique P P_ret P_bind (P_report source recover) kind qualified
       name v d)
    (insert_unique W W_ret W_bind W_report kind qualified name v d).
Proof. unfold insert_unique. repeat faithful_step. Qed.

Lemma interface_child_faithful t :
  faithful_child source recover (interface_child P P_ret P_bind (P_report source recover) t)
    (interface_child W W_ret W_bind W_report t).
Proof.
  unfold interface_child.
  destruct (String.eqb t "method"); simpl.
  { intros e i. apply faithful_bind; [apply parse_method_faithful|].
    intros [m|]; [|apply faithful_ret].
    apply faithful_bind; [apply insert_unique_faithful|].
    intros; apply faithful_ret. }
  destruct (String.eqb t "signal"); simpl.
  { intros e i. apply faithful_bind; [apply parse_signal_faithful|].
    intros [s|]; [|apply faithful_ret].
    apply faithful_bind; [apply insert_unique_faithful|].
    intros; apply faithful_ret. }
  destruct (String.eqb t "property"); simpl.
  { intros e i. apply faithful_bind; [apply parse_property_faithful|].
    intros [p|]; [|apply faithful_ret].
    apply faithful_bind; [apply insert_unique_faithful|].
    intros; apply faithful_ret. }
  destruct (String.eqb t "annotation"); simpl; [|exact I].
  intros e i. apply faithful_bind; [apply annotation_child_faithful|].
  intros; apply faithful_ret.
Qed.

Lemma parse_interface_faithful e :
  faithful source recover
    (parse_interface P P_ret P_bind (P_report source recover) e)
    (parse_interface W W_ret W_bind W_report e).
Proof.
  unfold parse_interface.
  apply faithful_bind; [apply require_faithful | intros name].
  apply faithful_bind; [|intros; apply faithful_ret].
  apply parse_children_faithful. apply interface_child_faithful.
Qed.

Lemma root_child_faithful t :
  faithful_child source recover (root_child P P_ret P_bind (P_report source recover) t)
    (root_child W W_ret W_bind W_report t).
Proof.
  unfold root_child. destruct (String.eqb t "interface"); simpl; [|exact I].
  intros e interfaces.
  apply faithful_bind; [apply parse_interface_faithful|].
  intros [i|]; [apply insert_unique_faithful | apply faithful_ret].
Qed.

Lemma parse_root_faithful e :
  faithful source recover
    (parse_root P P_ret P_bind (P_report source recover) e)
    (parse_root W W_ret W_bind W_report e).
Proof.
  unfold parse_root.
  apply faithful_bind; [|intros; apply faithful_ret].
  apply parse_children_faithful. apply root_child_faithful.
Qed.

Lemma parse_document_faithful document :
  faithful source recover
    (parse_document P P_ret P_bind (P_report source recover) document)
    (parse_document W W_ret W_bind W_report document).
Proof.
  unfold parse_document.
  destruct (String.eqb (tag document) "node"); [apply parse_root_faithful|].
  destruct (if is_vendor_wrapper (tag document)
            then filter (fun c => String.eqb (tag c) "node")
                   (children document)
            else []) as [|root [|other rest]].
  - apply faithful_bind; [apply faithful_report | intros; apply faithful_ret].
  - apply parse_root_faithful.
  - apply faithful_bind; [apply faithful_report | intros; apply faithful_ret].
Qed.
End Faithful.

(** *** A result is only returned when no violation was found *)

Lemma fst_W_bind {A B : Type} (m : W A) (k : A -> W B) :
  fst (W_bind A B m k) = fst m ++ fst (k (snd m)).
Proof. reflexivity. Qed.

Lemma snd_W_bind {A B : Type} (m : W A) (k : A -> W B) :
  snd (W_bind A B m k) = snd (k (snd m)).
Proof. reflexivity. Qed.

Lemma fst_W_ret {A : Type} (a : A) : fst (W_ret A a) = [].
Proof. reflexivity. Qed.

Lemma snd_W_ret {A : Type} (a : A) : snd (W_ret A a) = a.
Proof. reflexivity. Qed.

Ltac w_simpl :=
  repeat (first [ rewrite fst_W_bind | rewrite snd_W_bind
                | rewrite fst_W_ret | rewrite snd_W_ret ];
          cbv beta).

Lemma require_clean attributes attribute kind :
  snd (require W W_ret W_bind W_report attributes attribute kind) <> None ->
  fst (require W W_ret W_bind W_report attributes attribute kind) = [].
Proof.
  unfold require. destruct (getitem attributes attribute); simpl; congruence.
Qed.

Lemma parse_children_clean {S : Type} context
    (child : string -> option (xml -> S -> W (option S))) cs :
  (forall t, clean_child (child t)) ->
  forall acc,
    snd (snd (parse_children W W_ret W_bind W_report context child cs acc))
    = true ->
    fst (parse_children W W_ret W_bind W_report context child cs acc) = [].
Proof.
  intros Hchild. induction cs as [|c rest IH]; intros acc; simpl.
  - reflexivity.
  - destruct (is_documentation (tag c)); [apply IH|].
    specialize (Hchild (tag c)). unfold clean_child in Hchild.
    destruct (child (tag c)) as [w|].
    + w_simpl. specialize (Hchild c acc).
      destruct (snd (w c acc)) as [acc'|].
      * intros Hok. rewrite Hchild by discriminate. now apply IH.
      * w_simpl. discriminate.
    + w_simpl. discriminate.
Qed.

Ltac no_result :=
  let H := fresh in intros H; exfalso; apply H; reflexivity.

(** The run of [require] or [parse_children] in the goal: its result is
    present (or the goal is absurd) and it found nothing. *)
Ltac clean_require :=
  match goal with
  | |- context [snd (require W W_ret W_bind W_report ?a ?b ?c)] =>
      let H := fresh "Hrequire" in
      pose proof (require_clean a b c) as H;
      destruct (snd (require W W_ret W_bind W_report a b c));
      [ rewrite H by discriminate | try no_result ]
  end.

Ltac clean_children lemma :=
  match goal with
  | |- context [parse_children W W_ret W_bind W_report ?ctx ?child ?cs ?acc] =>
      let H := fresh "Hchildren" in
      pose proof (parse_children_clean ctx child cs lemma acc) as H;
      destruct (snd (snd (parse_children W W_ret W_bind W_report ctx child cs
                            acc)));
      [ rewrite H by reflexivity | try no_result ]
  end.

Lemma parse_annotation_clean e :
  snd (parse_annotation W W_ret W_bind W_report e) <> None ->
  fst (parse_annotation W W_ret W_bind W_report e) = [].
Proof.
  unfold parse_annotation. w_simpl.
  clean_require. clean_require. clean_children (fun _ : string => I).
  reflexivity.
Qed.

(** A member parser followed by the insertion under its name. *)
Lemma member_clean {V S : Type} (member : W (option V))
    (insert : V -> W (option S)) :
  (snd member <> None -> fst member = []) ->
  (forall v, snd (insert v) <> None -> fst (insert v) = []) ->
  snd (W_bind _ _ member
         (fun m => match m with
                   | None => W_ret _ None
                   | Some v => insert v
                   end)) <> None ->
  fst (W_bind _ _ member
         (fun m => match m with
                   | None => W_ret _ None
                   | Some v => insert v
                   end)) = [].
Proof.
  intros Hmember Hinsert. w_simpl.
  destruct (snd member) as [v|]; [|no_result].
  intros H. rewrite Hmember by discriminate. now apply Hinsert.
Qed.

Lemma then_map_clean {A B : Type} (w : W (option A)) (f : A -> B) :
  (snd w <> None -> fst w = []) ->
  snd (W_bind _ _ w (fun a => W_ret _ (option_map f a))) <> None ->
  fst (W_bind _ _ w (fun a => W_ret _ (option_map f a))) = [].
Proof.
  intros Hw. w_simpl. destruct (snd w); [|no_result].
  intros _. rewrite Hw by discriminate. reflexivity.
Qed.

Lemma annotation_child_clean e annotations :
  snd (annotation_child W W_ret W_bind W_report e annotations) <> None ->
  fst (annotation_child W W_ret W_bind W_report e annotations) = [].
Proof.
  unfold annotation_child. apply then_map_clean, parse_annotation_clean.
Qed.

Lemma annotations_only_clean t :
  clean_child
    (if String.eqb t "annotation"
     then Some (annotation_child W W_ret W_bind W_report)
     else None).
Proof.
  destruct (String.eqb t "annotation"); unfold clean_child; [|exact I].
  intros e acc. apply annotation_child_clean.
Qed.

Lemma parse_argument_clean index e :
  snd (parse_argument W W_ret W_bind W_report index e) <> None ->
  fst (parse_argument W W_ret W_bind W_report index e) = [].
Proof.
  unfold parse_argument. w_simpl.
  clean_require. clean_children annotations_only_clean. reflexivity.
Qed.

Lemma callable_child_clean t :
  clean_child (callable_child W W_ret W_bind W_report t).
Proof.
  unfold callable_child.
  destruct (String.eqb t "arg"); unfold clean_child.
  { intros e acc. apply then_map_clean, parse_argument_clean. }
  destruct (String.eqb t "annotation"); [|exact I].
  intros e acc. apply then_map_clean, annotation_child_clean.
Qed.

Lemma parse_method_clean e :
  snd (parse_method W W_ret W_bind W_report e) <> None ->
  fst (parse_method W W_ret W_bind W_report e) = [].
Proof.
  unfold parse_method. w_simpl.
  clean_require. clean_children callable_child_clean. reflexivity.
Qed.

Lemma parse_signal_clean e :
  snd (parse_signal W W_ret W_bind W_report e) <> None ->
  fst (parse_signal W W_ret W_bind W_report e) = [].
Proof.
  unfold parse_signal. w_simpl.
  clean_require. clean_children callable_child_clean. reflexivity.
Qed.

Lemma parse_property_clean e :
  snd (parse_property W W_ret W_bind W_report e) <> None ->
  fst (parse_property W W_ret W_bind W_report e) = [].
Proof.
  unfold parse_property. w_simpl.
  clean_require. clean_require. clean_require.
  clean_children annotations_only_clean. reflexivity.
Qed.

Lemma insert_unique_clean {V : Type} kind qualified name (v : V) d :
  snd (insert_unique W W_ret W_bind W_report kind qualified name v d)
  <> None ->
  fst (insert_unique W W_ret W_bind W_report kind qualified name v d) = [].
Proof.
  unfold insert_unique. destruct (contains name d); w_simpl;
    [no_result | reflexivity].
Qed.

Lemma interface_child_clean t :
  clean_child (interface_child W W_ret W_bind W_report t).
Proof.
  unfold interface_child.
  destruct (String.eqb t "method"); unfold clean_child.
  { intros e i. apply member_clean; [apply parse_method_clean|].
    intros m. apply then_map_clean, insert_unique_clean. }
  destruct (String.eqb t "signal"); unfold clean_child.
  { intros e i. apply member_clean; [apply parse_signal_clean|].
    intros s. apply then_map_clean, insert_unique_clean. }
  destruct (String.eqb t "property"); unfold clean_child.
  { intros e i. apply member_clean; [apply parse_property_clean|].
    intros p. apply then_map_clean, insert_unique_clean. }
  destruct (String.eqb t "annotation"); unfold clean_child; [|exact I].
  intros e i. apply then_map_clean, annotation_child_clean.
Qed.

Lemma parse_interface_clean e :
  snd (parse_interface W W_ret W_bind W_report e) <> None ->
  fst (parse_interface W W_ret W_bind W_report e) = [].
Proof.
  unfold parse_interface. w_simpl.
  clean_require. clean_children interface_child_clean. reflexivity.
Qed.





(** *** A parse without result has found a violation *)

Lemma app_nonempty_l {A : Type} (l l' : list A) : l <> [] -> l ++ l' <> [].
Proof. destruct l; [congruence | discriminate]. Qed.

Lemma app_nonempty_r {A : Type} (l l' : list A) : l' <> [] -> l ++ l' <> [].
Proof. destruct l; [trivial | discriminate]. Qed.

(** One of the lists appended in the goal is not empty, by [H]. *)
Ltac nonempty H :=
  first [ exact H
        | apply app_nonempty_l; exact H
        | apply app_nonempty_r; nonempty H ].

Lemma require_loud attributes attribute kind :
  loud (require W W_ret W_bind W_report attributes attribute kind).
Proof.
  unfold loud, require. destruct (getitem attributes attribute); simpl;
    discriminate.
Qed.

Lemma parse_children_loud {S : Type} context
    (child : string -> option (xml -> S -> W (option S))) cs :
  (forall t, loud_child (child t)) ->
  forall acc,
    snd (snd (parse_children W W_ret W_bind W_report context child cs acc))
    = false ->
    fst (parse_children W W_ret W_bind W_report context child cs acc) <> [].
Proof.
  intros Hchild. induction cs as [|c rest IH]; intros acc; simpl.
  - discriminate.
  - destruct (is_documentation (tag c)); [apply IH|].
    specialize (Hchild (tag c)). unfold loud_child in Hchild.
    destruct (child (tag c)) as [w|].
    + w_simpl. specialize (Hchild c acc). unfold loud in Hchild.
      destruct (snd (w c acc)) as [acc'|].
      * intros Hrest. apply app_nonempty_r, IH, Hrest.
      * intros _. apply app_nonempty_l, Hchild. reflexivity.
    + w_simpl. intros _. discriminate.
Qed.

(** The run of [require] or [parse_children] in the goal: its result is
    present, or it found a violation. *)
Ltac loud_require :=
  match goal with
  | |- context [snd (require W W_ret W_bind W_report ?a ?b ?c)] =>
      let H := fresh "Hrequire" in
      pose proof (require_loud a b c) as H; unfold loud in H;
      destruct (snd (require W W_ret W_bind W_report a b c));
      [ clear H | try (intros _; specialize (H eq_refl); nonempty H) ]
  end.

Ltac loud_children lemma :=
  match goal with
  | |- context [parse_children W W_ret W_bind W_report ?ctx ?child ?cs ?acc] =>
      let H := fresh "Hchildren" in
      pose proof (parse_children_loud ctx child cs lemma acc) as H;
      destruct (snd (snd (parse_children W W_ret W_bind W_report ctx child cs
                            acc)));
      [ clear H | try (intros _; specialize (H eq_refl); nonempty H) ]
  end.

Lemma parse_annotation_loud e :
  loud (parse_annotation W W_ret W_bind W_report e).
Proof.
  unfold loud, parse_annotation. w_simpl.
  loud_require. loud_require. loud_children (fun _ : string => I).
  discriminate.
Qed.

Lemma member_loud {V S : Type} (member : W (option V))
    (insert : V -> W (option S)) :
  loud member -> (forall v, loud (insert v)) ->
  loud (W_bind _ _ member
          (fun m => match m with
                    | None => W_ret _ None
                    | Some v => insert v
                    end)).
Proof.
  unfold loud. intros Hmember Hinsert. w_simpl.
  destruct (snd member) as [v|].
  - intros H. apply app_nonempty_r, Hinsert, H.
  - intros _. apply app_nonempty_l, Hmember. reflexivity.
Qed.

Lemma then_map_loud {A B : Type} (w : W (option A)) (f : A -> B) :
  loud w -> loud (W_bind _ _ w (fun a => W_ret _ (option_map f a))).
Proof.
  unfold loud. intros Hw. w_simpl. destruct (snd w); [discriminate|].
  intros _. apply app_nonempty_l, Hw. reflexivity.
Qed.

Lemma annotation_child_loud e annotations :
  loud (annotation_child W W_ret W_bind W_report e annotations).
Proof. unfold annotation_child. apply then_map_loud, parse_annotation_loud. Qed.

Lemma annotations_only_loud t :
  loud_child
    (if String.eqb t "annotation"
     then Some (annotation_child W W_ret W_bind W_report)
     else None).
Proof.
  destruct (String.eqb t "annotation"); unfold loud_child; [|exact I].
  intros e acc. apply annotation_child_loud.
Qed.

Lemma parse_argument_loud index e :
  loud (parse_argument W W_ret W_bind W_report index e).
Proof.
  unfold loud, parse_argument. w_simpl.
  loud_require. loud_children annotations_only_loud. discriminate.
Qed.

Lemma callable_child_loud t :
  loud_child (callable_child W W_ret W_bind W_report t).
Proof.
  unfold callable_child.
  destruct (String.eqb t "arg"); unfold loud_child.
  { intros e acc. apply then_map_loud, parse_argument_loud. }
  destruct (String.eqb t "annotation"); [|exact I].
  intros e acc. apply then_map_loud, annotation_child_loud.
Qed.

Lemma parse_method_loud e : loud (parse_method W W_ret W_bind W_report e).
Proof.
  unfold loud, parse_method. w_simpl.
  loud_require. loud_children callable_child_loud. discriminate.
Qed.

Lemma parse_signal_loud e : loud (parse_signal W W_ret W_bind W_report e).
Proof.
  unfold loud, parse_signal. w_simpl.
  loud_require. loud_children callable_child_loud. discriminate.
Qed.

Lemma parse_property_loud e :
  loud (parse_property W W_ret W_bind W_report e).
Proof.
  unfold loud, parse_property. w_simpl.
  loud_require. loud_require. loud_require.
  loud_children annotations_only_loud. discriminate.
Qed.

Lemma insert_unique_loud {V : Type} kind qualified name (v : V) d :
  loud (insert_unique W W_ret W_bind W_report kind qualified name v d).
Proof.
  unfold loud, insert_unique. destruct (contains name d); w_simpl;
    discriminate.
Qed.

Lemma interface_child_loud t :
  loud_child (interface_child W W_ret W_bind W_report t).
Proof.
  unfold interface_child.
  destruct (String.eqb t "method"); unfold loud_child.
  { intros e i. apply member_loud; [apply parse_method_loud|].
    intros m. apply then_map_loud, insert_unique_loud. }
  destruct (String.eqb t "signal"); unfold loud_child.
  { intros e i. apply member_loud; [apply parse_signal_loud|].
    intros s. apply then_map_loud, insert_unique_loud. }
  destruct (String.eqb t "property"); unfold loud_child.
  { intros e i. apply member_loud; [apply parse_property_loud|].
    intros p. apply then_map_loud, insert_unique_loud. }
  destruct (String.eqb t "annotation"); unfold loud_child; [|exact I].
  intros e i. apply then_map_loud, annotation_child_loud.
Qed.

Lemma parse_interface_loud e :
  loud (parse_interface W W_ret W_bind W_report e).
Proof.
  unfold loud, parse_interface. w_simpl.
  loud_require. loud_children interface_child_loud. discriminate.
Qed.

Lemma root_child_loud t : loud_child (root_child W W_ret W_bind W_report t).
Proof.
  unfold root_child.
  destruct (String.eqb t "interface"); unfold loud_child; [|exact I].
  intros e interfaces. apply member_loud; [apply parse_interface_loud|].
  intros i. apply insert_unique_loud.
Qed.

Lemma parse_root_loud e : loud (parse_root W W_ret W_bind W_report e).
Proof.
  unfold loud, parse_root. w_simpl.
  loud_children root_child_loud. discriminate.
Qed.

Lemma parse_document_loud document :
  loud (parse_document W W_ret W_bind W_report document).
Proof.
  unfold parse_document.
  destruct (String.eqb (tag document) "node"); [apply parse_root_loud|].
  destruct (if is_vendor_wrapper (tag document)
            then filter (fun c => String.eqb (tag c) "node")
                   (children document)
            else []) as [|root [|other rest]];
    [ | apply parse_root_loud | ]; unfold loud; w_simpl; discriminate.
Qed.

(** ** The parser reports the grammar violations of the document *)

Lemma fst_require e attribute kind :
  fst (require W W_ret W_bind W_report (attrib e) attribute kind)
  = missing_attribute e attribute kind.
Proof.
  unfold require, missing_attribute.
  destruct (getitem (attrib e) attribute); reflexivity.
Qed.

Lemma snd_require attributes attribute kind :
  snd (require W W_ret W_bind W_report attributes attribute kind)
  = getitem attributes attribute.
Proof.
  unfold require. destruct (getitem attributes attribute); reflexivity.
Qed.

Lemma structural_cons c cs :
  structural (c :: cs)
  = if is_documentation (tag c) then structural cs else c :: structural cs.
Proof. unfold structural. simpl. now destruct (is_documentation (tag c)). Qed.

(** Children whose violations do not depend on their siblings. *)
Lemma parse_children_violations {S : Type} context
    (child : string -> option (xml -> S -> W (option S)))
    (violation : xml -> list failure) cs :
  (forall c acc,
     match child (tag c) with
     | Some h => fst (h c acc) = violation c
     | None => unknown_node context c = violation c
     end) ->
  forall acc,
    fst (parse_children W W_ret W_bind W_report context child cs acc)
    = flat_map violation (structural cs).
Proof.
  intros Hchild. induction cs as [|c rest IH]; intros acc.
  - reflexivity.
  - rewrite structural_cons. cbn [parse_children].
    destruct (is_documentation (tag c)); [apply IH|].
    specialize (Hchild c acc). cbn [flat_map].
    destruct (child (tag c)) as [h|].
    + w_simpl. rewrite Hchild. f_equal.
      destruct (snd (h c acc)); w_simpl; rewrite IH;
        [reflexivity | apply app_nil_r].
    + w_simpl. rewrite IH, app_nil_r, <- Hchild. reflexivity.
Qed.

(** Children whose violations depend on their earlier siblings, through an
    invariant of what the parser has accepted. *)
Lemma parse_children_with_earlier {S : Type} (Inv : list xml -> S -> Prop)
    context (child : string -> option (xml -> S -> W (option S)))
    (violation : list xml -> xml -> list failure) cs :
  (forall earlier c acc, Inv earlier acc ->
     match child (tag c) with
     | Some h =>
         fst (h c acc) = violation earlier c
         /\ Inv (earlier ++ [c]) (match snd (h c acc) with
                                  | Some acc' => acc'
                                  | None => acc
                                  end)
     | None =>
         unknown_node context c = violation earlier c
         /\ Inv (earlier ++ [c]) acc
     end) ->
  forall earlier acc, Inv earlier acc ->
    fst (parse_children W W_ret W_bind W_report context child cs acc)
    = with_earlier violation earlier (structural cs)
    /\ Inv (earlier ++ structural cs)
         (fst (snd (parse_children W W_ret W_bind W_report context child cs
                      acc))).
Proof.
  intros Hchild. induction cs as [|c rest IH]; intros earlier acc Hacc.
  - simpl. now rewrite app_nil_r.
  - rewrite structural_cons. cbn [parse_children].
    destruct (is_documentation (tag c)); [now apply IH|].
    specialize (Hchild earlier c acc Hacc). cbn [with_earlier].
    replace (earlier ++ c :: structural rest)
      with ((earlier ++ [c]) ++ structural rest)
      by (now rewrite <- app_assoc).
    destruct (child (tag c)) as [h|].
    + destruct Hchild as [Hviolation Hnext]. w_simpl. rewrite Hviolation.
      destruct (snd (h c acc)) as [acc'|]; w_simpl; cbn [fst snd];
        destruct (IH _ _ Hnext) as [IHv IHi]; rewrite IHv;
        rewrite ?app_nil_r; split; first [reflexivity | exact IHi].
    + destruct Hchild as [Hviolation Hnext]. w_simpl. cbn [fst snd].
      destruct (IH _ _ Hnext) as [IHv IHi].
      rewrite IHv, app_nil_r, <- Hviolation.
      split; [reflexivity | exact IHi].
Qed.

Lemma parse_annotation_violations e :
  fst (parse_annotation W W_ret W_bind W_report e) = annotation_violations e.
Proof.
  unfold parse_annotation, annotation_violations. w_simpl.
  rewrite !fst_require, !snd_require.
  rewrite (parse_children_violations _ _
             (unknown_node ("annotation ‘" ++ element_name e ++ "’")))
    by reflexivity.
  now rewrite app_nil_r.
Qed.

Lemma annotation_child_violations e annotations :
  fst (annotation_child W W_ret W_bind W_report e annotations)
  = annotation_violations e.
Proof.
  unfold annotation_child. w_simpl.
  now rewrite parse_annotation_violations, app_nil_r.
Qed.

Lemma annotation_only_violations context c
    (acc : dict ASTAnnotation.t) :
  match (if String.eqb (tag c) "annotation"
         then Some (annotation_child W W_ret W_bind W_report)
         else None) with
  | Some h => fst (h c acc) = annotation_only context c
  | None => unknown_node context c = annotation_only context c
  end.
Proof.
  unfold annotation_only. destruct (String.eqb (tag c) "annotation");
    [apply annotation_child_violations | reflexivity].
Qed.

Lemma parse_argument_violations index e :
  fst (parse_argument W W_ret W_bind W_report index e)
  = argument_violations e.
Proof.
  unfold parse_argument, argument_violations. w_simpl.
  rewrite !fst_require.
  rewrite (parse_children_violations _ _
             (annotation_only ("argument ‘" ++ element_name e ++ "’")))
    by (intros c acc; apply annotation_only_violations).
  now rewrite app_nil_r.
Qed.

Lemma callable_child_violations context c acc :
  match callable_child W W_ret W_bind W_report (tag c) with
  | Some h =>
      fst (h c acc)
      = if String.eqb (tag c) "arg" then argument_violations c
        else annotation_only context c
  | None =>
      unknown_node context c
      = if String.eqb (tag c) "arg" then argument_violations c
        else annotation_only context c
  end.
Proof.
  unfold callable_child, annotation_only.
  destruct (String.eqb (tag c) "arg").
  { w_simpl. now rewrite parse_argument_violations, app_nil_r. }
  destruct (String.eqb (tag c) "annotation"); [|reflexivity].
  w_simpl. now rewrite annotation_child_violations, app_nil_r.
Qed.

Lemma parse_method_violations e :
  fst (parse_method W W_ret W_bind W_report e)
  = callable_violations "method" e.
Proof.
  unfold parse_method, callable_violations. w_simpl.
  rewrite !fst_require, !snd_require.
  rewrite (parse_children_violations _ _
             (fun c =>
                if String.eqb (tag c) "arg" then argument_violations c
                else annotation_only
                       ("method ‘" ++ element_name e ++ "’") c))
    by (intros c acc; apply callable_child_violations).
  now rewrite app_nil_r.
Qed.

Lemma parse_signal_violations e :
  fst (parse_signal W W_ret W_bind W_report e)
  = callable_violations "signal" e.
Proof.
  unfold parse_signal, callable_violations. w_simpl.
  rewrite !fst_require, !snd_require.
  rewrite (parse_children_violations _ _
             (fun c =>
                if String.eqb (tag c) "arg" then argument_violations c
                else annotation_only
                       ("signal ‘" ++ element_name e ++ "’") c))
    by (intros c acc; apply callable_child_violations).
  now rewrite app_nil_r.
Qed.

Lemma parse_property_violations e :
  fst (parse_property W W_ret W_bind W_report e) = property_violations e.
Proof.
  unfold parse_property, property_violations. w_simpl.
  rewrite !fst_require, !snd_require.
  rewrite (parse_children_violations _ _
             (annotation_only ("property ‘" ++ element_name e ++ "’")))
    by (intros c acc; apply annotation_only_violations).
  now rewrite app_nil_r.
Qed.

(** *** Named elements and duplicates *)

Lemma parse_method_name e m :
  snd (parse_method W W_ret W_bind W_report e) = Some m ->
  getitem (attrib e) "name" = Some (ASTMethod.name m).
Proof.
  unfold parse_method. w_simpl. rewrite snd_require.
  destruct (getitem (attrib e) "name"); [|discriminate].
  match goal with
  | |- context [snd (snd ?r)] => destruct (snd (snd r)); [|discriminate]
  end.
  now intros [= <-].
Qed.

Lemma parse_signal_name e s :
  snd (parse_signal W W_ret W_bind W_report e) = Some s ->
  getitem (attrib e) "name" = Some (ASTSignal.name s).
Proof.
  unfold parse_signal. w_simpl. rewrite snd_require.
  destruct (getitem (attrib e) "name"); [|discriminate].
  match goal with
  | |- context [snd (snd ?r)] => destruct (snd (snd r)); [|discriminate]
  end.
  now intros [= <-].
Qed.

Lemma parse_property_name e p :
  snd (parse_property W W_ret W_bind W_report e) = Some p ->
  getitem (attrib e) "name" = Some (ASTProperty.name p).
Proof.
  unfold parse_property. w_simpl. rewrite !snd_require.
  destruct (getitem (attrib e) "name"); [|discriminate].
  destruct (getitem (attrib e) "type"); [|discriminate].
  destruct (getitem (attrib e) "access"); [|discriminate].
  match goal with
  | |- context [snd (snd ?r)] => destruct (snd (snd r)); [|discriminate]
  end.
  now intros [= <-].
Qed.

Lemma fst_insert_unique {V : Type} kind qualified name (v : V) d :
  fst (insert_unique W W_ret W_bind W_report kind qualified name v d)
  = if contains name d then
      [DuplicateNodeError
         ("Duplicate " ++ kind ++ " definition ‘" ++ qualified ++ "’.")]
    else [].
Proof. unfold insert_unique. now destruct (contains name d). Qed.

Lemma snd_insert_unique {V : Type} kind qualified name (v : V) d :
  snd (insert_unique W W_ret W_bind W_report kind qualified name v d)
  = if contains name d then None else Some (d ++ [(name, v)]).
Proof. unfold insert_unique. now destruct (contains name d). Qed.

Lemma existsb_snoc {A : Type} (f : A -> bool) l x :
  existsb f (l ++ [x]) = existsb f l || f x.
Proof. rewrite existsb_app. simpl. now rewrite orb_false_r. Qed.

Lemma contains_snoc {V : Type} (d : dict V) k k' v :
  contains k (d ++ [(k', v)]) = contains k d || String.eqb k' k.
Proof.
  unfold contains. rewrite existsb_snoc. simpl.
  now rewrite (String.eqb_sym k k').
Qed.

(** A child of another kind declares nothing. *)
Lemma holds_declared_other {V : Type} kind own earlier c (d : dict V) :
  String.eqb (tag c) kind = false ->
  holds_declared kind own earlier d ->
  holds_declared kind own (earlier ++ [c]) d.
Proof.
  intros Htag H n. rewrite existsb_snoc, <- H. unfold declares.
  rewrite Htag. simpl. now rewrite orb_false_r.
Qed.

Lemma declares_named kind own n c name :
  String.eqb (tag c) kind = true -> own c = [] ->
  getitem (attrib c) "name" = Some name ->
  declares kind own n c = String.eqb name n.
Proof. intros Htag Hown Hname. unfold declares. now rewrite Htag, Hown, Hname. Qed.

Lemma declares_violating kind own n c :
  own c <> [] -> declares kind own n c = false.
Proof.
  intros Hown. unfold declares. destruct (own c); [contradiction|].
  simpl. now rewrite andb_false_r.
Qed.

(** A named child: what the parser reports for it and for its insertion are
    its violations among its siblings, and the mapping holds what is
    declared with it. *)
Lemma named_member {V : Type} kind own qualify earlier c
    (member : W (option V)) (name : V -> string) (d : dict V) :
  String.eqb (tag c) kind = true ->
  fst member = own c ->
  (snd member <> None -> fst member = []) ->
  loud member ->
  (forall m, snd member = Some m ->
             getitem (attrib c) "name" = Some (name m)) ->
  holds_declared kind own earlier d ->
  fst member
  ++ match snd member with
     | Some m =>
         if contains (name m) d then
           [DuplicateNodeError
              ("Duplicate " ++ kind ++ " definition ‘" ++ qualify (name m)
               ++ "’.")]
         else []
     | None => []
     end
  = named_violations kind own qualify earlier c
  /\ holds_declared kind own (earlier ++ [c])
       (match snd member with
        | Some m => if contains (name m) d then d else d ++ [(name m, m)]
        | None => d
        end).
Proof.
  intros Htag Hown Hclean Hloud Hname Hd.
  unfold named_violations, loud in *.
  destruct (snd member) as [m|] eqn:Hm.
  - specialize (Hname m eq_refl).
    assert (Hnone : fst member = []) by (apply Hclean; discriminate).
    rewrite Hnone in *. rewrite <- Hown, Hname.
    rewrite (Hd (name m)). cbn [app].
    split; [reflexivity|].
    intros n. rewrite existsb_snoc.
    rewrite (declares_named kind own n c (name m) Htag (eq_sym Hown) Hname).
    destruct (existsb (declares kind own (name m)) earlier) eqn:Hdup.
    + rewrite (Hd n). destruct (String.eqb_spec (name m) n) as [<-|Hne].
      * now rewrite Hdup.
      * now rewrite orb_false_r.
    + now rewrite contains_snoc, (Hd n).
  - specialize (Hloud eq_refl). rewrite app_nil_r.
    rewrite Hown in *.
    split; [now destruct (own c) | ].
    intros n. rewrite existsb_snoc, <- (Hd n).
    rewrite (declares_violating kind own n c Hloud). now rewrite orb_false_r.
Qed.

(** The tag of [c] is not [kind], by a test on its tag in the context. *)
Ltac other_kind :=
  first
    [ assumption
    | match goal with
      | H : String.eqb (tag ?c) _ = true |- String.eqb (tag ?c) _ = false =>
          apply String.eqb_eq in H; rewrite H; reflexivity
      end ].

Ltac accepts_others :=
  repeat split;
  first [ assumption
        | apply holds_declared_other; [other_kind | assumption] ].

Lemma interface_child_step e earlier c i :
  interface_accepts e earlier i ->
  match interface_child W W_ret W_bind W_report (tag c) with
  | Some h =>
      fst (h c i) = interface_member_violations e earlier c
      /\ interface_accepts e (earlier ++ [c])
           (match snd (h c i) with
            | Some i' => i'
            | None => i
            end)
  | None =>
      unknown_node ("interface ‘" ++ element_name e ++ "’") c
      = interface_member_violations e earlier c
      /\ interface_accepts e (earlier ++ [c]) i
  end.
Proof.
  intros (Hname & Hmethods & Hsignals & Hproperties).
  unfold interface_child, interface_member_violations, interface_accepts.
  destruct (String.eqb (tag c) "method") eqn:Hmethod.
  { destruct (named_member "method" (callable_violations "method")
                (fun n : string => (element_name e ++ "." ++ n)%string)
                earlier c (parse_method W W_ret W_bind W_report c)
                ASTMethod.name (ASTInterface.methods i) Hmethod
                (parse_method_violations c) (parse_method_clean c)
                (parse_method_loud c) (parse_method_name c) Hmethods)
      as [Hviolations Hdeclared].
    w_simpl. rewrite <- Hviolations.
    destruct (snd (parse_method W W_ret W_bind W_report c)) as [m|];
      w_simpl; rewrite ?fst_insert_unique, ?snd_insert_unique, ?Hname.
    - destruct (contains (ASTMethod.name m) (ASTInterface.methods i));
        cbn [option_map app ASTInterface.name ASTInterface.methods
             ASTInterface.signals ASTInterface.properties];
        rewrite ?app_nil_r; (split; [reflexivity|]); accepts_others.
    - split; [reflexivity|]. accepts_others. }
  destruct (String.eqb (tag c) "signal") eqn:Hsignal.
  { destruct (named_member "signal" (callable_violations "signal")
                (fun n : string => (element_name e ++ "." ++ n)%string)
                earlier c (parse_signal W W_ret W_bind W_report c)
                ASTSignal.name (ASTInterface.signals i) Hsignal
                (parse_signal_violations c) (parse_signal_clean c)
                (parse_signal_loud c) (parse_signal_name c) Hsignals)
      as [Hviolations Hdeclared].
    w_simpl. rewrite <- Hviolations.
    destruct (snd (parse_signal W W_ret W_bind W_report c)) as [s|];
      w_simpl; rewrite ?fst_insert_unique, ?snd_insert_unique, ?Hname.
    - destruct (contains (ASTSignal.name s) (ASTInterface.signals i));
        cbn [option_map app ASTInterface.name ASTInterface.methods
             ASTInterface.signals ASTInterface.properties];
        rewrite ?app_nil_r; (split; [reflexivity|]); accepts_others.
    - split; [reflexivity|]. accepts_others. }
  destruct (String.eqb (tag c) "property") eqn:Hproperty.
  { destruct (named_member "property" property_violations
                (fun n : string => (element_name e ++ "." ++ n)%string)
                earlier c (parse_property W W_ret W_bind W_report c)
                ASTProperty.name (ASTInterface.properties i) Hproperty
                (parse_property_violations c) (parse_property_clean c)
                (parse_property_loud c) (parse_property_name c) Hproperties)
      as [Hviolations Hdeclared].
    w_simpl. rewrite <- Hviolations.
    destruct (snd (parse_property W W_ret W_bind W_report c)) as [p|];
      w_simpl; rewrite ?fst_insert_unique, ?snd_insert_unique, ?Hname.
    - destruct (contains (ASTProperty.name p) (ASTInterface.properties i));
        cbn [option_map app ASTInterface.name ASTInterface.methods
             ASTInterface.signals ASTInterface.properties];
        rewrite ?app_nil_r; (split; [reflexivity|]); accepts_others.
    - split; [reflexivity|]. accepts_others. }
  unfold annotation_only.
  destruct (String.eqb (tag c) "annotation") eqn:Hannotation.
  - w_simpl. rewrite annotation_child_violations, app_nil_r.
    split; [reflexivity|].
    destruct (snd (annotation_child W W_ret W_bind W_report c
                     (ASTInterface.annotations i)));
      cbn [option_map ASTInterface.name ASTInterface.methods
           ASTInterface.signals ASTInterface.properties];
      accepts_others.
  - split; [reflexivity|]. accepts_others.
Qed.

Lemma interface_accepts_nothing e :
  interface_accepts e []
    (ASTInterface.Build (element_name e) [] [] [] []).
Proof. repeat split. Qed.

(** The run of [parse_children] over the children of an interface. *)
Lemma interface_children_run e :
  let r := parse_children W W_ret W_bind W_report
             ("interface ‘" ++ element_name e ++ "’")
             (interface_child W W_ret W_bind W_report) (children e)
             (ASTInterface.Build (element_name e) [] [] [] []) in
  fst r = with_earlier (interface_member_violations e) []
            (structural (children e))
  /\ interface_accepts e (structural (children e)) (fst (snd r)).
Proof.
  apply (parse_children_with_earlier (interface_accepts e)
           ("interface ‘" ++ element_name e ++ "’")
           (interface_child W W_ret W_bind W_report)
           (interface_member_violations e) (children e)
           (fun earlier c i => interface_child_step e earlier c i)
           [] _ (interface_accepts_nothing e)).
Qed.

Lemma parse_interface_violations e :
  fst (parse_interface W W_ret W_bind W_report e) = interface_violations e.
Proof.
  unfold parse_interface, interface_violations. w_simpl.
  rewrite fst_require, snd_require.
  change (display (getitem (attrib e) "name")) with (element_name e).
  rewrite (proj1 (interface_children_run e)).
  now rewrite app_nil_r.
Qed.

Lemma parse_interface_name e i :
  snd (parse_interface W W_ret W_bind W_report e) = Some i ->
  getitem (attrib e) "name" = Some (ASTInterface.name i).
Proof.
  unfold parse_interface. w_simpl. rewrite snd_require.
  change (display (getitem (attrib e) "name")) with (element_name e).
  pose proof (proj2 (interface_children_run e)) as (Hname & _).
  cbv zeta in Hname. unfold element_name in *.
  destruct (getitem (attrib e) "name") as [n|]; [|discriminate].
  match goal with
  | |- context [snd (snd ?r)] => destruct (snd (snd r)); [|discriminate]
  end.
  intros [= <-]. f_equal. symmetry. exact Hname.
Qed.

Lemma root_child_step earlier c (interfaces : dict ASTInterface.t) :
  holds_declared "interface" interface_violations earlier interfaces ->
  match root_child W W_ret W_bind W_report (tag c) with
  | Some h =>
      fst (h c interfaces) = root_member_violations earlier c
      /\ holds_declared "interface" interface_violations (earlier ++ [c])
           (match snd (h c interfaces) with
            | Some interfaces' => interfaces'
            | None => interfaces
            end)
  | None =>
      unknown_node "root" c = root_member_violations earlier c
      /\ holds_declared "interface" interface_violations (earlier ++ [c])
           interfaces
  end.
Proof.
  intros Hinterfaces. unfold root_child, root_member_violations.
  destruct (String.eqb (tag c) "interface") eqn:Hinterface.
  - destruct (named_member "interface" interface_violations
                (fun n : string => n) earlier c
                (parse_interface W W_ret W_bind W_report c)
                ASTInterface.name interfaces Hinterface
                (parse_interface_violations c) (parse_interface_clean c)
                (parse_interface_loud c) (parse_interface_name c)
                Hinterfaces)
      as [Hviolations Hdeclared].
    w_simpl. rewrite <- Hviolations.
    destruct (snd (parse_interface W W_ret W_bind W_report c)) as [i|];
      w_simpl; rewrite ?fst_insert_unique, ?snd_insert_unique.
    + destruct (contains (ASTInterface.name i) interfaces);
        (split; [reflexivity | exact Hdeclared]).
    + split; [reflexivity | exact Hdeclared].
  - split; [reflexivity|]. now apply holds_declared_other.
Qed.

Lemma parse_root_violations e :
  fst (parse_root W W_ret W_bind W_report e) = root_violations e.
Proof.
  unfold parse_root, root_violations. w_simpl.
  rewrite (proj1 (parse_children_with_earlier
                    (holds_declared "interface" interface_violations)
                    "root" (root_child W W_ret W_bind W_report)
                    root_member_violations (children e)
                    root_child_step [] []
                    (fun n => eq_refl))).
  now rewrite app_nil_r.
Qed.

(** The violations the parser reports are the grammar violations of the
    document, in document order. *)
Lemma violations_of_grammar document :
  violations document = document_violations document.
Proof.
  unfold violations, parse_document, document_violations, unknown_root.
  destruct (String.eqb (tag document) "node"); [apply parse_root_violations|].
  destruct (is_vendor_wrapper (tag document)); [|reflexivity].
  destruct (filter (fun c => String.eqb (tag c) "node") (children document))
    as [|root [|other rest]];
    [reflexivity | apply parse_root_violations | reflexivity].
Qed.

(** ** The outcome of [compare] *)

Lemma decides_runs {A : Type} (m : M A) a l : runs m a l -> decides true m.
Proof. intros H out. now rewrite H. Qed.

Lemma decides_assert b : decides b (assert_ b).
Proof. intros out. destruct b; simpl; auto. Qed.

Lemma decides_bind {A B : Type} (m : M A) (k : A -> M B) b1 b2 :
  decides b1 m -> (forall a, decides b2 (k a)) ->
  decides (b1 && b2) (bind m k).
Proof.
  intros Hm Hk out. unfold bind. specialize (Hm out).
  destruct (m out) as [[a|e] out']; cbn [fst] in *.
  - subst b1. apply Hk.
  - destruct Hm as [-> ->]. auto.
Qed.

Lemma decides_after {A B : Type} (m : M A) (k : A -> M B) a l b :
  runs m a l -> decides b (k a) -> decides b (bind m k).
Proof. intros Hm Hk out. unfold bind. rewrite Hm. apply Hk. Qed.

Lemma decides_before {A B : Type} (m : M A) (k : A -> M B) b :
  decides b m -> (forall a, decides true (k a)) -> decides b (bind m k).
Proof.
  intros Hm Hk. rewrite <- (andb_true_r b). now apply decides_bind.
Qed.

Lemma decides_for {A : Type} (xs : list A) (body : A -> M unit)
    (f : A -> bool) :
  (forall x, In x xs -> decides (f x) (body x)) ->
  decides (forallb f xs) (for_ xs body).
Proof.
  induction xs as [|x rest IH]; intros H; simpl.
  - now apply (decides_runs _ tt []), runs_ret.
  - apply decides_bind.
    + apply H. now left.
    + intros _. apply IH. intros y Hy. apply H. now right.
Qed.

(** The loop over the old mapping, for a body that issues a removal or
    compares two nodes under an assertion. *)
Lemma decides_old_loop {V : Type} (name : V -> string) (old new : dict V)
    (body : string * V -> M unit) :
  (forall k v, In (k, v) old -> getitem new k = None ->
               decides true (body (k, v))) ->
  (forall k v v', In (k, v) old -> getitem new k = Some v' ->
                  decides (String.eqb (name v) (name v')) (body (k, v))) ->
  decides (names_agree name old new) (for_ (items old) body).
Proof.
  intros Hremoved Hcompared. apply decides_for. intros [k v] Hin. simpl.
  destruct (getitem new k) as [v'|] eqn:Hget; auto.
Qed.

Section Decides.
Variable format_name : node -> string.

Lemma compare_methods_decides old_interface old_method new_interface
    new_method :
  decides (String.eqb (ASTMethod.name old_method) (ASTMethod.name new_method))
    (_compare_methods format_name old_interface old_method new_interface
       new_method).
Proof.
  destruct (String.eqb_spec (ASTMethod.name old_method)
                            (ASTMethod.name new_method)) as [Heq|Hne].
  - eapply decides_runs. now apply compare_methods_runs.
  - intros out. unfold _compare_methods, bind. cbv zeta.
    apply String.eqb_neq in Hne. rewrite Hne. simpl. auto.
Qed.

Lemma compare_signals_decides old_interface old_signal new_interface
    new_signal :
  decides (String.eqb (ASTSignal.name old_signal) (ASTSignal.name new_signal))
    (_compare_signals format_name old_interface old_signal new_interface
       new_signal).
Proof.
  destruct (String.eqb_spec (ASTSignal.name old_signal)
                            (ASTSignal.name new_signal)) as [Heq|Hne].
  - eapply decides_runs. now apply compare_signals_runs.
  - intros out. unfold _compare_signals, bind. cbv zeta.
    apply String.eqb_neq in Hne. rewrite Hne. simpl. auto.
Qed.

Lemma compare_properties_decides old_interface old_property new_interface
    new_property :
  decides (String.eqb (ASTProperty.name old_property)
                      (ASTProperty.name new_property))
    (_compare_properties format_name old_interface old_property new_interface
       new_property).
Proof.
  destruct (String.eqb_spec (ASTProperty.name old_property)
                            (ASTProperty.name new_property)) as [Heq|Hne].
  - eapply decides_runs. now apply compare_properties_runs.
  - intros out. unfold _compare_properties, bind. cbv zeta.
    apply String.eqb_neq in Hne. rewrite Hne. simpl. auto.
Qed.

Ltac removal :=
  intros k v Hin Hget; apply contains_false_getitem in Hget;
  rewrite Hget; eapply decides_runs, runs_issue_output.

Ltac comparison lemma :=
  intros k v v' Hin Hget;
  match goal with
  | |- context [contains k ?d] =>
      let Hc := fresh "Hc" in
      assert (Hc : contains k d = true)
        by (apply contains_getitem; eauto);
      rewrite Hc
  end;
  cbn [negb];
  eapply decides_after; [apply runs_lookup; exact Hget | apply lemma].

Lemma compare_interfaces_decides old_interface new_interface :
  decides (interface_assertions old_interface new_interface)
    (_compare_interfaces format_name old_interface new_interface).
Proof.
  unfold _compare_interfaces, interface_assertions. cbv zeta.
  apply decides_bind; [apply decides_assert | intros _].
  apply decides_bind; [|intros _].
  { apply decides_old_loop;
      [removal | comparison compare_methods_decides]. }
  eapply decides_after; [apply runs_new_loop|].
  apply decides_bind; [|intros _].
  { apply decides_old_loop;
      [removal | comparison compare_properties_decides]. }
  eapply decides_after; [apply runs_new_loop|].
  apply decides_before; [|intros _].
  { apply decides_old_loop;
      [removal | comparison compare_signals_decides]. }
  eapply decides_after; [apply runs_new_loop|].
  eapply decides_runs. apply compare_annotations_runs.
Qed.

Lemma compare_loops_decides self :
  decides (compare_assertions (_old_interfaces self) (_new_interfaces self))
    (compare_loops format_name self).
Proof.
  unfold compare_loops, compare_assertions.
  apply decides_before.
  - apply decides_for. intros [k v] Hin. simpl.
    destruct (getitem (_new_interfaces self) k) as [v'|] eqn:Hget.
    + assert (Hc : contains k (_new_interfaces self) = true)
        by (apply contains_getitem; eauto).
      rewrite Hc. cbn [negb].
      eapply decides_after; [apply runs_lookup; exact Hget|].
      apply compare_interfaces_decides.
    + apply contains_false_getitem in Hget. rewrite Hget.
      eapply decides_runs, runs_issue_output.
  - intros _. eapply decides_runs. apply runs_new_loop.
Qed.
End Decides.

(** ** The levels of the stored entries *)

Ltac known_level_step :=
  first
    [ apply emits_only_ret
    | apply emits_only_assert
    | apply emits_only_lookup
    | apply emits_only_index
    | apply emits_only_issue_output;
      unfold known_level, OUTPUT_INFO, OUTPUT_FORWARDS_INCOMPATIBLE,
        OUTPUT_BACKWARDS_INCOMPATIBLE; cbn [fst]; lia
    | apply emits_only_for; intros
    | apply emits_only_bind; [|intros]
    | match goal with
      | |- emits_only _ (if ?b then _ else _) => destruct b
      | |- emits_only _ (let '(_, _) := ?x in _) => destruct x
      end ].

Section KnownLevels.
Variable format_name : node -> string.

Lemma compare_annotations_known_level old_node new_node :
  emits_only known_level (_compare_annotations format_name old_node new_node).
Proof.
  unfold _compare_annotations, _compare_annotations_deprecated,
    _compare_annotations_c_symbol, _compare_annotations_no_reply,
    _compare_annotations_emits_changed_signal.
  cbv zeta. repeat known_level_step.
Qed.

Lemma compare_arguments_known_level old_parent old_arg new_parent new_arg :
  emits_only known_level
    (_compare_arguments format_name old_parent old_arg new_parent new_arg).
Proof.
  unfold _compare_arguments.
  repeat first [ apply compare_annotations_known_level | known_level_step ].
Qed.

Lemma compare_methods_known_level old_interface old_method new_interface
    new_method :
  emits_only known_level
    (_compare_methods format_name old_interface old_method new_interface
       new_method).
Proof.
  unfold _compare_methods. cbv zeta.
  repeat first [ apply compare_annotations_known_level
               | apply compare_arguments_known_level | known_level_step ].
Qed.

Lemma compare_signals_known_level old_interface old_signal new_interface
    new_signal :
  emits_only known_level
    (_compare_signals format_name old_interface old_signal new_interface
       new_signal).
Proof.
  unfold _compare_signals. cbv zeta.
  repeat first [ apply compare_annotations_known_level
               | apply compare_arguments_known_level | known_level_step ].
Qed.

Lemma compare_properties_known_level old_interface old_property new_interface
    new_property :
  emits_only known_level
    (_compare_properties format_name old_interface old_property new_interface
       new_property).
Proof.
  unfold _compare_properties. cbv zeta.
  repeat first [ apply compare_annotations_known_level | known_level_step ].
Qed.

Lemma compare_interfaces_known_level old_interface new_interface :
  emits_only known_level
    (_compare_interfaces format_name old_interface new_interface).
Proof.
  unfold _compare_interfaces. cbv zeta.
  repeat first [ apply compare_annotations_known_level
               | apply compare_methods_known_level
               | apply compare_signals_known_level
               | apply compare_properties_known_level
               | known_level_step ].
Qed.

Lemma compare_loops_known_level self :
  emits_only known_level (compare_loops format_name self).
Proof.
  unfold compare_loops.
  repeat first [ apply compare_interfaces_known_level | known_level_step ].
Qed.

Lemma compare_stores_known_levels self :
  Forall known_level (_output (snd (compare format_name self))).
Proof.
  destruct self as [old_interfaces new_interfaces stored enabled_warnings].
  rewrite compare_fields.
  pose proof (compare_loops_known_level
                {| _old_interfaces := old_interfaces;
                   _new_interfaces := new_interfaces;
                   _output := [];
                   _enabled_warnings := enabled_warnings |} []
                (Forall_nil _)) as H.
  destruct (compare_loops format_name
              {| _old_interfaces := old_interfaces;
                 _new_interfaces := new_interfaces;
                 _output := [];
                 _enabled_warnings := enabled_warnings |} [])
    as [[[]|e] out]; exact H.
Qed.
End KnownLevels.

Lemma filter_all {A : Type} (f : A -> bool) (l : list A) :
  Forall (fun x => f x = true) l -> filter f l = l.
Proof.
  induction 1 as [|x rest Hx _ IH]; simpl; [reflexivity|].
  now rewrite Hx, IH.
Qed.

Lemma known_level_enabled self e :
  (forall c, In c WARNING_CATEGORIES -> str_in c (_enabled_warnings self) = true) ->
  known_level e -> _warning_enabled self (fst e) = true.
Proof.
  intros Hall Hlevel. unfold _warning_enabled.
  rewrite !Hall by (simpl; tauto).
  unfold known_level, OUTPUT_BACKWARDS_INCOMPATIBLE in Hlevel.
  destruct (fst e) as [|[|[|n]]]; try reflexivity. lia.
Qed.

(** ** Reading the output under other categories *)

Lemma warning_enabled_membership self enabled1 enabled2 level :
  (forall c, In c WARNING_CATEGORIES ->
             str_in c enabled1 = str_in c enabled2) ->
  _warning_enabled (set_enabled_warnings self enabled1) level
  = _warning_enabled (set_enabled_warnings self enabled2) level.
Proof.
  intros H. unfold _warning_enabled. cbn [_enabled_warnings set_enabled_warnings].
  now rewrite !H by (simpl; tauto).
Qed.

(** ** The Deprecated and C-symbol checks *)

Lemma deprecated_read n :
  _get_bool_annotation n Deprecated false = true
  <-> own_annotation_value Deprecated n = Some "true".
Proof.
  unfold _get_bool_annotation, own_annotation_value.
  destruct (getitem (annotations n) Deprecated) as [a|]; simpl.
  - rewrite String.eqb_eq. split; congruence.
  - split; discriminate.
Qed.

Lemma c_symbol_read n :
  _get_string_annotation n CSymbol "" = c_symbol n.
Proof.
  unfold _get_string_annotation, c_symbol, own_annotation_value.
  destruct (getitem (annotations n) CSymbol); reflexivity.
Qed.

Section OneAnnotation.
Variable format_name : node -> string.

(** What the check of Deprecated appends, by what the two nodes declare. *)
Lemma deprecated_check_cases old_node new_node :
  emitted (_compare_annotations_deprecated format_name old_node new_node)
  = match _get_bool_annotation old_node Deprecated false,
          _get_bool_annotation new_node Deprecated false with
    | true, false =>
        [(OUTPUT_INFO,
          ("Node ‘" ++ format_name old_node
           ++ "’ has been un-deprecated.")%string)]
    | false, true =>
        [(OUTPUT_INFO,
          ("Node ‘" ++ format_name old_node
           ++ "’ has been deprecated.")%string)]
    | _, _ => []
    end.
Proof.
  unfold _compare_annotations_deprecated.
  change "org.freedesktop.DBus.Deprecated" with Deprecated.
  destruct (_get_bool_annotation old_node Deprecated false),
    (_get_bool_annotation new_node Deprecated false); reflexivity.
Qed.

Lemma c_symbol_check_cases old_node new_node :
  emitted (_compare_annotations_c_symbol format_name old_node new_node)
  = if String.eqb (c_symbol old_node) (c_symbol new_node) then []
    else [(OUTPUT_INFO,
           ("Node ‘" ++ format_name old_node
            ++ "’ has changed its C symbol from ‘" ++ c_symbol old_node
            ++ "’ to ‘" ++ c_symbol new_node ++ "’.")%string)].
Proof.
  unfold _compare_annotations_c_symbol.
  change "org.freedesktop.DBus.GLib.CSymbol" with CSymbol.
  rewrite !c_symbol_read.
  destruct (String.eqb (c_symbol old_node) (c_symbol new_node)); reflexivity.
Qed.

Lemma emits_changed_signal_unchanged old_node new_node :
  effective_emits_changed_signal old_node
  = effective_emits_changed_signal new_node ->
  emitted (_compare_annotations_emits_changed_signal format_name old_node
             new_node) = [].
Proof.
  intros H. apply emits_changed_signal_silent_iff. left.
  now rewrite !effective_emits_changed_signal_correct.
Qed.

(** Two nodes with the same No-reply and Emits-changed-signal values: what
    [_compare_annotations] appends is what the checks of Deprecated and of
    the C symbol append. *)
Lemma compare_annotations_first_two old_node new_node :
  effective_no_reply old_node = effective_no_reply new_node ->
  effective_emits_changed_signal old_node
  = effective_emits_changed_signal new_node ->
  runs (_compare_annotations format_name old_node new_node) tt
    (emitted (_compare_annotations_deprecated format_name old_node new_node)
     ++ emitted (_compare_annotations_c_symbol format_name old_node
                   new_node)).
Proof.
  intros Hreply Hecs.
  pose proof (compare_annotations_runs format_name old_node new_node) as H.
  rewrite (no_reply_unchanged format_name _ _ Hreply),
    (emits_changed_signal_unchanged _ _ Hecs) in H.
  now rewrite !app_nil_r in H.
Qed.
End OneAnnotation.

(** ** Empty and reordered mappings *)

Lemma flat_map_singleton {A B : Type} (f : A -> B) (l : list A) :
  flat_map (fun x => [f x]) l = map f l.
Proof. induction l as [|x rest IH]; simpl; [reflexivity | now rewrite IH]. Qed.

Section EmptyAndReordered.
Variable format_name : node -> string.

Lemma compare_loops_empty_old self :
  _old_interfaces self = [] ->
  runs (compare_loops format_name self) tt
       (map (fun kv => interface_added (fst kv)) (_new_interfaces self)).
Proof.
  intros Hold. unfold compare_loops. rewrite Hold.
  eapply runs_bind_silent; [apply runs_ret|].
  rewrite <- flat_map_singleton.
  apply (runs_new_loop (@nil (string * ASTInterface.t)) (_new_interfaces self)
           OUTPUT_FORWARDS_INCOMPATIBLE
           (fun name _ => ("Interface ‘" ++ name
                           ++ "’ has been added.")%string)).
Qed.

Lemma compare_loops_empty_new self :
  _new_interfaces self = [] ->
  runs (compare_loops format_name self) tt
       (map (fun kv => interface_removed (fst kv)) (_old_interfaces self)).
Proof.
  intros Hnew. unfold compare_loops. rewrite Hnew.
  rewrite <- (app_nil_r (map _ _)).
  eapply runs_bind with (a := tt); [|apply runs_ret].
  rewrite <- flat_map_singleton.
  apply runs_for. intros [k v] _. apply runs_issue_output.
Qed.

Lemma interfaces_diffs_reordered old new :
  valid_interfaces old = true -> valid_interfaces new = true ->
  Permutation old new ->
  interfaces_diffs format_name old new = [].
Proof.
  intros Hold Hnew Hperm. unfold interfaces_diffs, member_diffs.
  rewrite !flat_map_nil; [reflexivity | |].
  - intros [k v] Hin. simpl.
    apply (Permutation_in _ (Permutation_sym Hperm)) in Hin.
    now rewrite (contains_In old k v Hin).
  - intros [k v] Hin. simpl.
    rewrite (well_keyed_getitem new k v
               (valid_interfaces_well_keyed new Hnew)
               (Permutation_in _ Hperm Hin)).
    apply interface_diffs_same.
    now destruct (valid_interfaces_In _ _ _ Hold Hin).
Qed.
End EmptyAndReordered.

(** ** Arguments appended to or dropped from the end of a list *)

Lemma flat_map_ext_in {A B : Type} (f g : A -> list B) (l : list A) :
  (forall x, In x l -> f x = g x) -> flat_map f l = flat_map g l.
Proof.
  induction l as [|x rest IH]; intros H; simpl; [reflexivity|].
  rewrite (H x) by now left. f_equal. apply IH. intros y Hy. apply H.
  now right.
Qed.

Lemma flat_map_map {A B C : Type} (g : A -> B) (f : B -> list C)
    (l : list A) :
  flat_map f (map g l) = flat_map (fun x => f (g x)) l.
Proof. induction l as [|x rest IH]; simpl; [reflexivity | now rewrite IH]. Qed.

Lemma seq_from (start len : nat) :
  seq start len = map (fun j => start + j) (seq 0 len).
Proof.
  revert start. induction len as [|len IH]; intros start; simpl.
  - reflexivity.
  - rewrite Nat.add_0_r. f_equal.
    rewrite (IH (S start)), (IH 1), map_map.
    apply map_ext. intros j. simpl. lia.
Qed.

(** The positions of a list, one after the other, are its elements. *)
Lemma flat_map_positions {A B : Type} (h : A -> B) (l : list A) :
  flat_map (fun j => match nth_error l j with
                     | Some a => [h a]
                     | None => []
                     end) (seq 0 (length l))
  = map h l.
Proof.
  induction l as [|a rest IH]; simpl; [reflexivity|].
  f_equal. rewrite (seq_from 1), flat_map_map. exact IH.
Qed.

Section Appended.
Variable format_name : node -> string.

(** An argument compared with itself, under any two parents. *)
Lemma compare_arguments_same_argument old_parent new_parent a :
  emitted (_compare_arguments format_name old_parent a new_parent a) = [].
Proof.
  rewrite (runs_emitted (compare_arguments_runs format_name old_parent a
                           new_parent a)).
  rewrite !option_string_eqb_refl, String.eqb_refl. cbn [negb issued app].
  rewrite (same_well_known_compare_annotations format_name
             (ArgumentNode old_parent a) (ArgumentNode new_parent a)
             (ArgumentNode old_parent a) (ArgumentNode old_parent a)).
  - apply compare_annotations_same.
  - reflexivity.
  - split; [reflexivity | exact I].
  - split; [reflexivity | exact I].
Qed.

Lemma positional_diffs_appended kind old_node new_node args extra :
  positional_diffs format_name kind old_node new_node args (args ++ extra)
  = map (argument_added format_name kind new_node) extra.
Proof.
  unfold positional_diffs. rewrite length_app.
  rewrite Nat.max_r by lia. rewrite seq_app, flat_map_app.
  rewrite flat_map_nil.
  - cbn [app plus]. rewrite seq_from, flat_map_map.
    rewrite <- flat_map_positions. apply flat_map_ext_in.
    intros j Hj. apply in_seq in Hj.
    rewrite (proj2 (nth_error_None args (length args + j))) by lia.
    rewrite nth_error_app2 by lia.
    replace (length args + j - length args) with j by lia.
    destruct (nth_error extra j); reflexivity.
  - intros i Hi. apply in_seq in Hi.
    rewrite nth_error_app1 by lia.
    destruct (nth_error args i) as [a|] eqn:Ha.
    + apply compare_arguments_same_argument.
    + apply nth_error_None in Ha. lia.
Qed.

Lemma positional_diffs_dropped kind old_node new_node args extra :
  positional_diffs format_name kind old_node new_node (args ++ extra) args
  = map (argument_removed format_name kind old_node) extra.
Proof.
  unfold positional_diffs. rewrite length_app.
  rewrite Nat.max_l by lia. rewrite seq_app, flat_map_app.
  rewrite flat_map_nil.
  - cbn [app plus]. rewrite seq_from, flat_map_map.
    rewrite <- flat_map_positions. apply flat_map_ext_in.
    intros j Hj. apply in_seq in Hj.
    rewrite (proj2 (nth_error_None args (length args + j))) by lia.
    rewrite nth_error_app2 by lia.
    replace (length args + j - length args) with j by lia.
    destruct (nth_error extra j); reflexivity.
  - intros i Hi. apply in_seq in Hi.
    rewrite nth_error_app1 by lia.
    destruct (nth_error args i) as [a|] eqn:Ha.
    + apply compare_arguments_same_argument.
    + apply nth_error_None in Ha. lia.
Qed.
End Appended.

(** ** What [compare] stores when it raises *)

Lemma for_app {A : Type} (xs ys : list A) (body : A -> M unit) out :
  for_ (xs ++ ys) body out
  = match for_ xs body out with
    | (Returns _, out') => for_ ys body out'
    | (Raises e, out') => (Raises e, out')
    end.
Proof.
  revert out. induction xs as [|x rest IH]; intros out; simpl.
  - reflexivity.
  - unfold bind. destruct (body x out) as [[[]|e] out']; [apply IH|].
    reflexivity.
Qed.

Lemma compare_interfaces_misnamed format_name old_interface new_interface out :
  ASTInterface.name old_interface <> ASTInterface.name new_interface ->
  _compare_interfaces format_name old_interface new_interface out
  = (Raises AssertionError, out).
Proof.
  intros Hne. unfold _compare_interfaces, bind. cbv zeta.
  apply String.eqb_neq in Hne. rewrite Hne. reflexivity.
Qed.

(** ** What the parser returns *)

Lemma contains_app {V : Type} (d d' : dict V) k :
  contains k (d ++ d') = contains k d || contains k d'.
Proof. unfold contains. apply existsb_app. Qed.

Lemma well_keyed_insert {V : Type} (d : dict V) k v :
  well_keyed d = true -> contains k d = false ->
  well_keyed (d ++ [(k, v)]) = true.
Proof.
  induction d as [|[k' v'] rest IH]; simpl; intros Hwk Hfresh.
  - reflexivity.
  - apply andb_prop in Hwk as [Hk' Hwk].
    apply orb_false_elim in Hfresh as [Hkk' Hfresh].
    rewrite contains_app, IH by assumption.
    apply negb_true_iff in Hk'. rewrite Hk'. simpl.
    rewrite String.eqb_sym, Hkk'. reflexivity.
Qed.

Lemma keyed_by_name_insert {V : Type} (name : V -> string) (d : dict V) v :
  keyed_by_name name d = true ->
  keyed_by_name name (d ++ [(name v, v)]) = true.
Proof.
  unfold keyed_by_name. intros H. rewrite forallb_app, H. simpl.
  now rewrite String.eqb_refl.
Qed.

Lemma insert_unique_result {V : Type} kind qualified name (v : V) d d' :
  snd (insert_unique W W_ret W_bind W_report kind qualified name v d)
  = Some d' ->
  contains name d = false /\ d' = d ++ [(name, v)].
Proof.
  unfold insert_unique. destruct (contains name d); w_simpl.
  - discriminate.
  - intros [= <-]. auto.
Qed.

(** The children accepted keep an invariant that each accepted child
    keeps. *)
Lemma parse_children_invariant {S : Type} (Inv : S -> Prop) context
    (child : string -> option (xml -> S -> W (option S))) cs :
  (forall t h, child t = Some h ->
     forall e acc acc', Inv acc -> snd (h e acc) = Some acc' -> Inv acc') ->
  forall acc, Inv acc ->
    Inv (fst (snd (parse_children W W_ret W_bind W_report context child cs
                     acc))).
Proof.
  intros Hchild. induction cs as [|c rest IH]; intros acc Hacc; simpl.
  - exact Hacc.
  - destruct (is_documentation (tag c)); [now apply IH|].
    destruct (child (tag c)) as [h|] eqn:Hh.
    + w_simpl. destruct (snd (h c acc)) as [acc'|] eqn:Hr.
      * apply IH. eapply Hchild; eassumption.
      * w_simpl. now apply IH.
    + w_simpl. now apply IH.
Qed.

Lemma interface_child_valid t h :
  interface_child W W_ret W_bind W_report t = Some h ->
  forall e i i', valid_interface i = true -> snd (h e i) = Some i' ->
                 valid_interface i' = true.
Proof.
  unfold interface_child, valid_interface.
  destruct (String.eqb t "method").
  { intros [= <-] e i i' Hi. w_simpl.
    destruct (snd (parse_method W W_ret W_bind W_report e)) as [m|];
      w_simpl; [|discriminate].
    destruct (snd (insert_unique W W_ret W_bind W_report "method" _
                     (ASTMethod.name m) m (ASTInterface.methods i)))
      as [methods|] eqn:Hinsert; [|discriminate].
    apply insert_unique_result in Hinsert as [Hfresh ->].
    intros [= <-]. cbn [ASTInterface.methods ASTInterface.properties
                        ASTInterface.signals].
    repeat (apply andb_prop in Hi as [Hi ?]).
    rewrite well_keyed_insert, keyed_by_name_insert by assumption.
    repeat match goal with H : _ = true |- _ => rewrite H; clear H end.
    reflexivity. }
  destruct (String.eqb t "signal").
  { intros [= <-] e i i' Hi. w_simpl.
    destruct (snd (parse_signal W W_ret W_bind W_report e)) as [s|];
      w_simpl; [|discriminate].
    destruct (snd (insert_unique W W_ret W_bind W_report "signal" _
                     (ASTSignal.name s) s (ASTInterface.signals i)))
      as [signals|] eqn:Hinsert; [|discriminate].
    apply insert_unique_result in Hinsert as [Hfresh ->].
    intros [= <-]. cbn [ASTInterface.methods ASTInterface.properties
                        ASTInterface.signals].
    repeat (apply andb_prop in Hi as [Hi ?]).
    rewrite well_keyed_insert, keyed_by_name_insert by assumption.
    repeat match goal with H : _ = true |- _ => rewrite H; clear H end.
    reflexivity. }
  destruct (String.eqb t "property").
  { intros [= <-] e i i' Hi. w_simpl.
    destruct (snd (parse_property W W_ret W_bind W_report e)) as [p|];
      w_simpl; [|discriminate].
    destruct (snd (insert_unique W W_ret W_bind W_report "property" _
                     (ASTProperty.name p) p (ASTInterface.properties i)))
      as [properties|] eqn:Hinsert; [|discriminate].
    apply insert_unique_result in Hinsert as [Hfresh ->].
    intros [= <-]. cbn [ASTInterface.methods ASTInterface.properties
                        ASTInterface.signals].
    repeat (apply andb_prop in Hi as [Hi ?]).
    rewrite well_keyed_insert, keyed_by_name_insert by assumption.
    repeat match goal with H : _ = true |- _ => rewrite H; clear H end.
    reflexivity. }
  destruct (String.eqb t "annotation"); [|discriminate].
  intros [= <-] e i i' Hi. w_simpl.
  destruct (snd (annotation_child W W_ret W_bind W_report e
                   (ASTInterface.annotations i))) as [annotations|];
    [|discriminate].
  intros [= <-]. exact Hi.
Qed.

Lemma parse_interface_valid e i :
  snd (parse_interface W W_ret W_bind W_report e) = Some i ->
  valid_interface i = true.
Proof.
  unfold parse_interface. w_simpl.
  destruct (snd (require W W_ret W_bind W_report (attrib e) "name"
                   "interface")) as [name|]; [|discriminate].
  match goal with
  | |- context [parse_children W W_ret W_bind W_report ?ctx ?child ?cs ?acc] =>
      pose proof (parse_children_invariant
                    (fun i => valid_interface i = true) ctx child cs
                    interface_child_valid acc eq_refl) as Hinv;
      destruct (snd (snd (parse_children W W_ret W_bind W_report ctx child cs
                            acc))); [|discriminate]
  end.
  intros [= <-]. exact Hinv.
Qed.

Lemma valid_interfaces_insert d i :
  valid_interfaces d = true -> valid_interface i = true ->
  contains (ASTInterface.name i) d = false ->
  valid_interfaces (d ++ [(ASTInterface.name i, i)]) = true.
Proof.
  unfold valid_interfaces. intros Hd Hi Hfresh.
  apply andb_prop in Hd as [Hd Hall]. apply andb_prop in Hd as [Hwk Hkeyed].
  rewrite well_keyed_insert, keyed_by_name_insert, forallb_app, Hall
    by assumption.
  simpl. now rewrite Hi.
Qed.

Lemma root_child_valid t h :
  root_child W W_ret W_bind W_report t = Some h ->
  forall e d d', valid_interfaces d = true -> snd (h e d) = Some d' ->
                 valid_interfaces d' = true.
Proof.
  unfold root_child. destruct (String.eqb t "interface"); [|discriminate].
  intros [= <-] e d d' Hd. w_simpl.
  destruct (snd (parse_interface W W_ret W_bind W_report e)) as [i|] eqn:Hi;
    w_simpl; [|discriminate].
  intros Hinsert. apply insert_unique_result in Hinsert as [Hfresh ->].
  apply valid_interfaces_insert;
    [exact Hd | exact (parse_interface_valid e i Hi) | exact Hfresh].
Qed.

Lemma parse_root_valid e d :
  snd (parse_root W W_ret W_bind W_report e) = Some d ->
  valid_interfaces d = true.
Proof.
  unfold parse_root. w_simpl.
  match goal with
  | |- context [parse_children W W_ret W_bind W_report ?ctx ?child ?cs ?acc] =>
      pose proof (parse_children_invariant
                    (fun d => valid_interfaces d = true) ctx child cs
                    root_child_valid acc eq_refl) as Hinv;
      destruct (snd (snd (parse_children W W_ret W_bind W_report ctx child cs
                            acc))); [|discriminate]
  end.
  intros [= <-]. exact Hinv.
Qed.

Lemma parse_document_valid document d :
  snd (parse_document W W_ret W_bind W_report document) = Some d ->
  valid_interfaces d = true.
Proof.
  unfold parse_document.
  destruct (String.eqb (tag document) "node"); [apply parse_root_valid|].
  destruct (if is_vendor_wrapper (tag document)
            then filter (fun c => String.eqb (tag c) "node")
                   (children document)
            else []) as [|root [|other rest]];
    [ w_simpl; discriminate | apply parse_root_valid | w_simpl; discriminate ].
Qed.

(** A collecting run that reports no violation has a result, and the
    result is a valid mapping. *)
Lemma no_violation_result document :
  violations document = [] ->
  exists interfaces,
    snd (parse_document W W_ret W_bind W_report document) = Some interfaces
    /\ valid_interfaces interfaces = true.
Proof.
  intros Hnone.
  destruct (snd (parse_document W W_ret W_bind W_report document))
    as [interfaces|] eqn:Hresult.
  - exists interfaces. split; [reflexivity|].
    now apply (parse_document_valid document).
  - exfalso. now apply (parse_document_loud document Hresult).
Qed.

(** What a parse returns is the result of the collecting run. *)
Lemma parse_result source document recover ledger r ledger' :
  parse source document recover ledger = (Parsed r, ledger') ->
  r = snd (parse_document W W_ret W_bind W_report document).
Proof.
  unfold parse. rewrite (parse_document_faithful source recover document).
  destruct recover.
  - now intros [= <- _].
  - destruct (fst (parse_document W W_ret W_bind W_report document)).
    + now intros [= <- _].
    + discriminate.
Qed.

(** *** Documentation elements do not count *)























(** *** The mapping the parser returns is the mapping the document declares *)

(** When every child is accepted, what is accepted is a fold over the
    structural children. *)
Lemma parse_children_accepts {S : Type} context
    (child : string -> option (xml -> S -> W (option S)))
    (step : S -> xml -> S) cs :
  (forall c acc h acc', child (tag c) = Some h ->
                        snd (h c acc) = Some acc' -> acc' = step acc c) ->
  forall acc,
    snd (snd (parse_children W W_ret W_bind W_report context child cs acc))
    = true ->
    fst (snd (parse_children W W_ret W_bind W_report context child cs acc))
    = fold_left step (structural cs) acc.
Proof.
  intros Hstep. induction cs as [|c rest IH]; intros acc.
  - reflexivity.
  - rewrite structural_cons. cbn [parse_children].
    destruct (is_documentation (tag c)); [apply IH|].
    cbn [fold_left].
    destruct (child (tag c)) as [h|] eqn:Hchild.
    + w_simpl. destruct (snd (h c acc)) as [acc'|] eqn:Haccepted.
      * rewrite (Hstep c acc h acc' Hchild Haccepted). apply IH.
      * w_simpl. discriminate.
    + w_simpl. discriminate.
Qed.

Lemma fold_left_filter {A B : Type} (p : B -> bool) (f : A -> B -> A) l a :
  fold_left (fun a c => if p c then f a c else a) l a
  = fold_left f (filter p l) a.
Proof.
  revert a. induction l as [|c rest IH]; intros a; simpl; [reflexivity|].
  destruct (p c); apply IH.
Qed.

(** Elements of a kind of the grammar are structural. *)
Lemma filter_structural kind cs :
  is_documentation kind = false ->
  filter (fun c => String.eqb (tag c) kind) (structural cs)
  = filter (fun c => String.eqb (tag c) kind) cs.
Proof.
  intros Hkind. induction cs as [|c rest IH]; [reflexivity|].
  rewrite structural_cons. simpl.
  destruct (is_documentation (tag c)) eqn:Hdoc; simpl; rewrite IH;
    [|reflexivity].
  destruct (String.eqb_spec (tag c) kind) as [Heq|]; [|reflexivity].
  congruence.
Qed.

Lemma parse_annotation_reads e a :
  snd (parse_annotation W W_ret W_bind W_report e) = Some a ->
  a = read_annotation e.
Proof.
  unfold parse_annotation, read_annotation, attribute. w_simpl.
  rewrite !snd_require.
  destruct (getitem (attrib e) "name"); [|discriminate].
  destruct (getitem (attrib e) "value"); [|discriminate].
  match goal with
  | |- context [snd (snd ?r)] => destruct (snd (snd r)); [|discriminate]
  end.
  now intros [= <-].
Qed.

Lemma annotation_child_reads e d d' :
  String.eqb (tag e) "annotation" = true ->
  snd (annotation_child W W_ret W_bind W_report e d) = Some d' ->
  d' = annotations_step d e.
Proof.
  intros Htag. unfold annotation_child, annotations_step. rewrite Htag.
  w_simpl.
  destruct (snd (parse_annotation W W_ret W_bind W_report e)) as [a|] eqn:Ha;
    [|discriminate].
  apply parse_annotation_reads in Ha. subst a. now intros [= <-].
Qed.

Lemma annotations_only_reads c acc h acc' :
  (if String.eqb (tag c) "annotation"
   then Some (annotation_child W W_ret W_bind W_report)
   else None) = Some h ->
  snd (h c acc) = Some acc' -> acc' = annotations_step acc c.
Proof.
  destruct (String.eqb (tag c) "annotation") eqn:Htag; [|discriminate].
  intros [= <-]. now apply annotation_child_reads.
Qed.

Lemma fold_annotations e d :
  fold_left annotations_step (structural (children e)) d
  = fold_left (fun d c => setitem d (attribute c "name") (read_annotation c))
      (children_of "annotation" e) d.
Proof.
  unfold annotations_step, children_of.
  rewrite (fold_left_filter (fun c => String.eqb (tag c) "annotation")
             (fun d c => setitem d (attribute c "name") (read_annotation c))).
  now rewrite filter_structural by reflexivity.
Qed.

(** The children accepted by the parser in the goal, as a fold. *)
Ltac accepted_children step lemma :=
  match goal with
  | |- context [parse_children W W_ret W_bind W_report ?ctx ?child ?cs ?acc] =>
      let H := fresh "Hfold" in
      pose proof (parse_children_accepts ctx child step cs lemma acc) as H;
      destruct (snd (snd (parse_children W W_ret W_bind W_report ctx child cs
                            acc)));
      [ specialize (H eq_refl) | discriminate ]
  end.

Lemma attribute_some e name v :
  getitem (attrib e) name = Some v -> attribute e name = v.
Proof. intros H. unfold attribute. now rewrite H. Qed.

Lemma parse_argument_reads index e a :
  snd (parse_argument W W_ret W_bind W_report index e) = Some a ->
  a = read_argument index e.
Proof.
  unfold parse_argument. cbv zeta. w_simpl. rewrite !snd_require.
  destruct (getitem (attrib e) "type") as [type|] eqn:Htype; [|discriminate].
  accepted_children annotations_step annotations_only_reads.
  intros [= <-]. unfold read_argument. rewrite (attribute_some _ _ _ Htype).
  f_equal. etransitivity; [exact Hfold | exact (fold_annotations e [])].
Qed.

Lemma callable_child_reads c acc h acc' :
  callable_child W W_ret W_bind W_report (tag c) = Some h ->
  snd (h c acc) = Some acc' -> acc' = callable_step acc c.
Proof.
  unfold callable_child, callable_step, annotations_step.
  destruct (String.eqb (tag c) "arg") eqn:Harg.
  { apply String.eqb_eq in Harg. rewrite Harg. cbn [String.eqb Ascii.eqb].
    intros [= <-]. w_simpl.
    destruct (snd (parse_argument W W_ret W_bind W_report
                     (length (fst acc)) c)) as [a|] eqn:Ha; [|discriminate].
    apply parse_argument_reads in Ha. subst a. now intros [= <-]. }
  destruct (String.eqb (tag c) "annotation") eqn:Hannotation; [|discriminate].
  intros [= <-]. w_simpl.
  destruct (snd (annotation_child W W_ret W_bind W_report c (snd acc)))
    as [d|] eqn:Hd; [|discriminate].
  apply (annotation_child_reads c _ _ Hannotation) in Hd. subst d.
  unfold annotations_step. rewrite Hannotation. now intros [= <-].
Qed.

Lemma read_arguments_snoc index cs c :
  read_arguments_from index (cs ++ [c])
  = read_arguments_from index cs ++ [read_argument (index + length cs) c].
Proof.
  revert index. induction cs as [|c' rest IH]; intros index; simpl.
  - now rewrite Nat.add_0_r.
  - now rewrite IH, Nat.add_succ_r.
Qed.

Lemma read_arguments_length index cs :
  length (read_arguments_from index cs) = length cs.
Proof.
  revert index. induction cs as [|c rest IH]; intros index; simpl;
    [reflexivity | now rewrite IH].
Qed.

Lemma fold_callable cs before annotations :
  fold_left callable_step cs
    (read_arguments_from 0 before, annotations)
  = (read_arguments_from 0
       (before ++ filter (fun c => String.eqb (tag c) "arg") cs),
     fold_left annotations_step cs annotations).
Proof.
  revert before annotations.
  induction cs as [|c rest IH]; intros before annotations; simpl.
  - now rewrite app_nil_r.
  - unfold callable_step at 2. cbn [fst snd].
    destruct (String.eqb (tag c) "arg").
    + rewrite read_arguments_length.
      change (read_arguments_from 0 before
              ++ [read_argument (length before) c])
        with (read_arguments_from 0 before
              ++ [read_argument (0 + length before) c]).
      rewrite <- (read_arguments_snoc 0 before c), IH.
      now rewrite <- app_assoc.
    + apply IH.
Qed.

Lemma callable_children_read e :
  fold_left callable_step (structural (children e)) ([], [])
  = (read_arguments e, read_annotations e).
Proof.
  etransitivity; [exact (fold_callable (structural (children e)) [] [])|].
  unfold read_arguments, read_annotations, children_of. cbn [app].
  rewrite filter_structural by reflexivity. f_equal.
  exact (fold_annotations e []).
Qed.

Lemma parse_method_reads e m :
  snd (parse_method W W_ret W_bind W_report e) = Some m ->
  m = read_method e.
Proof.
  unfold parse_method. w_simpl. rewrite !snd_require.
  destruct (getitem (attrib e) "name") as [name|] eqn:Hname; [|discriminate].
  accepted_children callable_step callable_child_reads.
  pose proof (eq_trans Hfold (callable_children_read e)) as Hread.
  intros [= <-]. unfold read_method. rewrite (attribute_some _ _ _ Hname).
  f_equal; [exact (f_equal fst Hread) | exact (f_equal snd Hread)].
Qed.

Lemma parse_signal_reads e s :
  snd (parse_signal W W_ret W_bind W_report e) = Some s ->
  s = read_signal e.
Proof.
  unfold parse_signal. w_simpl. rewrite !snd_require.
  destruct (getitem (attrib e) "name") as [name|] eqn:Hname; [|discriminate].
  accepted_children callable_step callable_child_reads.
  pose proof (eq_trans Hfold (callable_children_read e)) as Hread.
  intros [= <-]. unfold read_signal. rewrite (attribute_some _ _ _ Hname).
  f_equal; [exact (f_equal fst Hread) | exact (f_equal snd Hread)].
Qed.

Lemma parse_property_reads e p :
  snd (parse_property W W_ret W_bind W_report e) = Some p ->
  p = read_property e.
Proof.
  unfold parse_property. w_simpl. rewrite !snd_require.
  destruct (getitem (attrib e) "name") as [name|] eqn:Hname; [|discriminate].
  destruct (getitem (attrib e) "type") as [type|] eqn:Htype; [|discriminate].
  destruct (getitem (attrib e) "access") as [access|] eqn:Haccess;
    [|discriminate].
  accepted_children annotations_step annotations_only_reads.
  intros [= <-]. unfold read_property.
  rewrite (attribute_some _ _ _ Hname), (attribute_some _ _ _ Htype),
    (attribute_some _ _ _ Haccess).
  f_equal. etransitivity; [exact Hfold | exact (fold_annotations e [])].
Qed.

Lemma interface_child_reads c i h i' :
  interface_child W W_ret W_bind W_report (tag c) = Some h ->
  snd (h c i) = Some i' -> i' = interface_step i c.
Proof.
  unfold interface_child, interface_step, annotations_step.
  destruct (String.eqb (tag c) "method") eqn:Hmethod.
  { apply String.eqb_eq in Hmethod. rewrite Hmethod.
    cbn [String.eqb Ascii.eqb Bool.eqb]. intros [= <-]. w_simpl.
    destruct (snd (parse_method W W_ret W_bind W_report c)) as [m|] eqn:Hm;
      [|discriminate].
    apply parse_method_reads in Hm. subst m. w_simpl.
    rewrite snd_insert_unique.
    destruct (contains _ _); [discriminate|]. now intros [= <-]. }
  destruct (String.eqb (tag c) "signal") eqn:Hsignal.
  { apply String.eqb_eq in Hsignal. rewrite Hsignal.
    cbn [String.eqb Ascii.eqb Bool.eqb]. intros [= <-]. w_simpl.
    destruct (snd (parse_signal W W_ret W_bind W_report c)) as [s|] eqn:Hs;
      [|discriminate].
    apply parse_signal_reads in Hs. subst s. w_simpl.
    rewrite snd_insert_unique.
    destruct (contains _ _); [discriminate|]. now intros [= <-]. }
  destruct (String.eqb (tag c) "property") eqn:Hproperty.
  { apply String.eqb_eq in Hproperty. rewrite Hproperty.
    cbn [String.eqb Ascii.eqb Bool.eqb]. intros [= <-]. w_simpl.
    destruct (snd (parse_property W W_ret W_bind W_report c)) as [p|] eqn:Hp;
      [|discriminate].
    apply parse_property_reads in Hp. subst p. w_simpl.
    rewrite snd_insert_unique.
    destruct (contains _ _); [discriminate|]. now intros [= <-]. }
  destruct (String.eqb (tag c) "annotation") eqn:Hannotation; [|discriminate].
  intros [= <-]. w_simpl.
  destruct (snd (annotation_child W W_ret W_bind W_report c
                   (ASTInterface.annotations i))) as [d|] eqn:Hd;
    [|discriminate].
  apply (annotation_child_reads c _ _ Hannotation) in Hd. subst d.
  unfold annotations_step. rewrite Hannotation. now intros [= <-].
Qed.

Lemma read_members_cons {V : Type} (read : xml -> V) c cs :
  read_members read (c :: cs)
  = (attribute c "name", read c) :: read_members read cs.
Proof. reflexivity. Qed.

Lemma fold_interface cs i :
  fold_left interface_step cs i
  = ASTInterface.Build (ASTInterface.name i)
      (ASTInterface.methods i
       ++ read_members read_method
            (filter (fun c => String.eqb (tag c) "method") cs))
      (ASTInterface.properties i
       ++ read_members read_property
            (filter (fun c => String.eqb (tag c) "property") cs))
      (ASTInterface.signals i
       ++ read_members read_signal
            (filter (fun c => String.eqb (tag c) "signal") cs))
      (fold_left annotations_step cs (ASTInterface.annotations i)).
Proof.
  revert i. induction cs as [|c rest IH]; intros i.
  - destruct i. simpl. now rewrite !app_nil_r.
  - cbn [fold_left filter]. rewrite IH. unfold interface_step.
    cbn [ASTInterface.name ASTInterface.methods ASTInterface.properties
         ASTInterface.signals ASTInterface.annotations].
    destruct (String.eqb (tag c) "method"),
      (String.eqb (tag c) "property"), (String.eqb (tag c) "signal");
      rewrite ?read_members_cons, <- ?app_assoc; reflexivity.
Qed.

Lemma parse_interface_reads e i :
  snd (parse_interface W W_ret W_bind W_report e) = Some i ->
  i = read_interface e.
Proof.
  unfold parse_interface. w_simpl. rewrite !snd_require.
  destruct (getitem (attrib e) "name") as [name|] eqn:Hname; [|discriminate].
  accepted_children interface_step interface_child_reads.
  intros [= <-]. etransitivity; [exact Hfold|].
  rewrite fold_interface. unfold read_interface, children_of.
  rewrite (attribute_some _ _ _ Hname), !filter_structural by reflexivity.
  cbn [ASTInterface.name ASTInterface.methods ASTInterface.properties
       ASTInterface.signals ASTInterface.annotations app display].
  f_equal. exact (fold_annotations e []).
Qed.

Lemma root_child_reads c d h d' :
  root_child W W_ret W_bind W_report (tag c) = Some h ->
  snd (h c d) = Some d' -> d' = root_step d c.
Proof.
  unfold root_child, root_step.
  destruct (String.eqb (tag c) "interface"); [|discriminate].
  intros [= <-]. w_simpl.
  destruct (snd (parse_interface W W_ret W_bind W_report c)) as [i|] eqn:Hi;
    [|discriminate].
  apply parse_interface_reads in Hi. subst i.
  rewrite snd_insert_unique.
  destruct (contains _ _); [discriminate|]. now intros [= <-].
Qed.

Lemma fold_root cs d :
  fold_left root_step cs d
  = d ++ read_members read_interface
           (filter (fun c => String.eqb (tag c) "interface") cs).
Proof.
  revert d. induction cs as [|c rest IH]; intros d.
  - simpl. now rewrite app_nil_r.
  - cbn [fold_left filter]. rewrite IH. unfold root_step.
    destruct (String.eqb (tag c) "interface");
      rewrite ?read_members_cons, <- ?app_assoc; reflexivity.
Qed.

Lemma parse_root_reads e d :
  snd (parse_root W W_ret W_bind W_report e) = Some d ->
  d = read_members read_interface (children_of "interface" e).
Proof.
  unfold parse_root. w_simpl.
  accepted_children root_step root_child_reads.
  intros [= <-]. etransitivity; [exact Hfold|].
  rewrite fold_root. unfold children_of.
  now rewrite filter_structural by reflexivity.
Qed.

(** The mapping the parser returns is the mapping the document declares. *)
Lemma parse_document_reads document d :
  snd (parse_document W W_ret W_bind W_report document) = Some d ->
  d = document_interfaces document.
Proof.
  unfold parse_document, document_interfaces, document_root, children_of.
  destruct (String.eqb (tag document) "node"); [apply parse_root_reads|].
  destruct (is_vendor_wrapper (tag document)); [|discriminate].
  destruct (filter (fun c => String.eqb (tag c) "node") (children document))
    as [|root [|other rest]];
    [discriminate | apply parse_root_reads | discriminate].
Qed.

(** * The properties of the comparator *)

(** C1: the effective Emits-changed-signal value of a node is its own
    annotation value if present, otherwise for a property that of the
    declaring interface (recursively), otherwise ["true"]; and on each row of
    the rule table (true/invalidates to false/const, false/const to
    true/invalidates, true to invalidates, invalidates to true, const to
    false, false to const) the comparator appends exactly the row's
    diagnostic, with the row's severity, after the diagnostics of the other
    three annotations. *)
Theorem C1_emits_changed_signal_rows (format_name : node -> string)
    (old_node new_node : node) (level : nat) (describe : string -> string) :
  emits_changed_signal_row (effective_emits_changed_signal old_node)
    (effective_emits_changed_signal new_node) level describe ->
  _get_emits_changed_signal_annotation old_node
  = effective_emits_changed_signal old_node
  /\ _get_emits_changed_signal_annotation new_node
     = effective_emits_changed_signal new_node
  /\ emitted (_compare_annotations_emits_changed_signal format_name old_node
                new_node)
     = [(level, describe (format_name old_node))]
  /\ runs (_compare_annotations format_name old_node new_node) tt
       (emitted (_compare_annotations_deprecated format_name old_node new_node)
        ++ emitted (_compare_annotations_c_symbol format_name old_node new_node)
        ++ emitted (_compare_annotations_no_reply format_name old_node new_node)
        ++ [(level, describe (format_name old_node))]).
Proof.
  intros Hrow.
  rewrite <- !effective_emits_changed_signal_correct in Hrow.
  pose proof (emits_changed_signal_row_sound format_name _ _ _ _ Hrow) as Hcheck.
  repeat split; try apply effective_emits_changed_signal_correct; auto.
  rewrite <- Hcheck. apply compare_annotations_runs.
Qed.

Lemma C1_emits_changed_signal_rows_witness :
  emits_changed_signal_row
    (effective_emits_changed_signal (Examples.node_P []))
    (effective_emits_changed_signal
       (Examples.node_P [Examples.annotation EmitsChangedSignal "false"]))
    OUTPUT_FORWARDS_INCOMPATIBLE
    (fun name => ("Node ‘" ++ name
       ++ "’ stopped emitting org.freedesktop.DBus.PropertiesChanged.")%string)
  /\ emitted (_compare_annotations qualified_name (Examples.node_P [])
       (Examples.node_P [Examples.annotation EmitsChangedSignal "false"]))
     = [(OUTPUT_FORWARDS_INCOMPATIBLE,
         "Node ‘I.P’ stopped emitting org.freedesktop.DBus.PropertiesChanged.")].
Proof.
  assert (Hrow : emits_changed_signal_row
            (effective_emits_changed_signal (Examples.node_P []))
            (effective_emits_changed_signal
               (Examples.node_P
                  [Examples.annotation EmitsChangedSignal "false"]))
            OUTPUT_FORWARDS_INCOMPATIBLE
            (fun name => ("Node ‘" ++ name
               ++ "’ stopped emitting org.freedesktop.DBus.PropertiesChanged.")%string)).
  { apply row_stopped_notifying; simpl; auto. }
  split; [exact Hrow|].
  destruct (C1_emits_changed_signal_rows qualified_name _ _ _ _ Hrow)
    as (_ & _ & _ & Hruns).
  exact (runs_emitted Hruns).
Defined.

(** C2, as stated, fails: the change of the effective value from ["true"] to
    ["const"] is covered by the first row of the table, and the comparator
    appends a forwards-incompatible diagnostic for it. *)
Lemma C2_true_to_const_counterexample :
  _get_emits_changed_signal_annotation (Examples.node_P []) = "true"
  /\ _get_emits_changed_signal_annotation
       (Examples.node_P [Examples.annotation EmitsChangedSignal "const"])
     = "const"
  /\ emitted (_compare_annotations qualified_name (Examples.node_P [])
       (Examples.node_P [Examples.annotation EmitsChangedSignal "const"]))
     = [(OUTPUT_FORWARDS_INCOMPATIBLE,
         "Node ‘I.P’ stopped emitting org.freedesktop.DBus.PropertiesChanged.")].
Proof. repeat split. Qed.

(** C2, amended: the Emits-changed-signal check appends nothing exactly when
    no row of the table covers the transition, that is when the old and new
    effective values are equal or one of them is outside the enumeration
    true, invalidates, false, const; every change between two values of the
    enumeration (true to const included) is diagnosed. *)
Theorem C2_unlisted_transitions_silent (format_name : node -> string)
    (old_node new_node : node) :
  emitted (_compare_annotations_emits_changed_signal format_name old_node
             new_node) = []
  <-> (_get_emits_changed_signal_annotation old_node
       = _get_emits_changed_signal_annotation new_node
       \/ ~ In (_get_emits_changed_signal_annotation old_node)
               emits_changed_signal_values
       \/ ~ In (_get_emits_changed_signal_annotation new_node)
               emits_changed_signal_values).
Proof. apply emits_changed_signal_silent_iff. Qed.

Lemma C2_unlisted_transitions_silent_witness :
  emitted (_compare_annotations_emits_changed_signal qualified_name
             (Examples.node_P [])
             (Examples.node_P [Examples.annotation EmitsChangedSignal "maybe"]))
  = [].
Proof.
  apply (proj2 (C2_unlisted_transitions_silent qualified_name
                  (Examples.node_P [])
                  (Examples.node_P
                     [Examples.annotation EmitsChangedSignal "maybe"]))).
  right. right. simpl. intros H.
  repeat destruct H as [H | H]; try discriminate H. exact H.
Defined.

(** C8: the No-reply annotation is read as a boolean that is [false] when the
    annotation is absent; any change of its effective value, in either
    direction, makes [_compare_annotations] append exactly one
    backwards-incompatible diagnostic for it, between those of the C symbol
    and of Emits-changed-signal, and no change makes it append none; and the
    diagnostics of [_compare_annotations] only depend on the four well-known
    annotations: node pairs displayed under the same name that agree on the
    four names get the same diagnostics, whatever other annotations are
    present, absent or changed. *)
Theorem C8_no_reply_and_other_annotations (format_name : node -> string)
    (old_node new_node old_node' new_node' : node) :
  _get_bool_annotation old_node NoReply false = effective_no_reply old_node
  /\ (effective_no_reply old_node <> effective_no_reply new_node ->
      exists describe,
        no_reply_row (effective_no_reply old_node)
          (effective_no_reply new_node) OUTPUT_BACKWARDS_INCOMPATIBLE describe
        /\ emitted (_compare_annotations_no_reply format_name old_node
                      new_node)
           = [(OUTPUT_BACKWARDS_INCOMPATIBLE,
               describe (format_name old_node))]
        /\ runs (_compare_annotations format_name old_node new_node) tt
             (emitted (_compare_annotations_deprecated format_name old_node
                         new_node)
              ++ emitted (_compare_annotations_c_symbol format_name old_node
                            new_node)
              ++ [(OUTPUT_BACKWARDS_INCOMPATIBLE,
                   describe (format_name old_node))]
              ++ emitted (_compare_annotations_emits_changed_signal
                            format_name old_node new_node)))
  /\ (effective_no_reply old_node = effective_no_reply new_node ->
      emitted (_compare_annotations_no_reply format_name old_node new_node)
      = []
      /\ runs (_compare_annotations format_name old_node new_node) tt
           (emitted (_compare_annotations_deprecated format_name old_node
                       new_node)
            ++ emitted (_compare_annotations_c_symbol format_name old_node
                          new_node)
            ++ emitted (_compare_annotations_emits_changed_signal
                          format_name old_node new_node)))
  /\ (format_name old_node = format_name old_node' ->
      same_well_known old_node old_node' ->
      same_well_known new_node new_node' ->
      emitted (_compare_annotations format_name old_node new_node)
      = emitted (_compare_annotations format_name old_node' new_node')).
Proof.
  split; [apply effective_no_reply_correct|].
  pose proof (compare_annotations_runs format_name old_node new_node)
    as Hruns.
  split; [|split].
  - intros Hchange.
    assert (Hrow : exists describe,
               no_reply_row (effective_no_reply old_node)
                 (effective_no_reply new_node) OUTPUT_BACKWARDS_INCOMPATIBLE
                 describe).
    { destruct (effective_no_reply old_node), (effective_no_reply new_node);
        try congruence; eexists; constructor. }
    destruct Hrow as [describe Hrow]. exists describe. split; [exact Hrow|].
    pose proof (no_reply_row_sound format_name _ _ _ _ Hrow) as Hcheck.
    split; [exact Hcheck|]. now rewrite <- Hcheck.
  - intros Hsame.
    pose proof (no_reply_unchanged format_name _ _ Hsame) as Hcheck.
    split; [exact Hcheck|]. now rewrite Hcheck in Hruns.
  - apply same_well_known_compare_annotations.
Qed.

Lemma C8_no_reply_and_other_annotations_witness :
  emitted (_compare_annotations qualified_name
             (Examples.node_M [Examples.annotation NoReply "true";
                               Examples.annotation "com.example.Extra" "1"])
             (Examples.node_M []))
  = emitted (_compare_annotations qualified_name
               (Examples.node_M [Examples.annotation NoReply "true"])
               (Examples.node_M [Examples.annotation "com.example.Extra" "2"]))
  /\ emitted (_compare_annotations qualified_name
                (Examples.node_M [Examples.annotation NoReply "true"])
                (Examples.node_M []))
     = [(OUTPUT_BACKWARDS_INCOMPATIBLE,
         "Node ‘I.M’ has been marked as returning a reply.")].
Proof.
  split.
  - apply (C8_no_reply_and_other_annotations qualified_name
             (Examples.node_M [Examples.annotation NoReply "true";
                               Examples.annotation "com.example.Extra" "1"])
             (Examples.node_M [])
             (Examples.node_M [Examples.annotation NoReply "true"])
             (Examples.node_M [Examples.annotation "com.example.Extra" "2"])).
    + reflexivity.
    + split; [|exact I]. intros k Hk. simpl in Hk.
      repeat destruct Hk as [Hk | Hk]; try subst k; try reflexivity.
      destruct Hk.
    + split; [|exact I]. intros k Hk. simpl in Hk.
      repeat destruct Hk as [Hk | Hk]; try subst k; try reflexivity.
      destruct Hk.
  - destruct (C8_no_reply_and_other_annotations qualified_name
                (Examples.node_M [Examples.annotation NoReply "true"])
                (Examples.node_M [])
                (Examples.node_M []) (Examples.node_M []))
      as (_ & Hchange & _).
    destruct Hchange as (describe & Hrow & _ & Hruns).
    + simpl. discriminate.
    + rewrite (runs_emitted Hruns). inversion Hrow. reflexivity.
Defined.

(** C3: for a property present on both sides under the same name, a change
    of the declared type appends one backwards-incompatible diagnostic; a
    change of access from read or write to readwrite appends one
    forwards-incompatible (less restrictive) diagnostic; any other change of
    access appends one backwards-incompatible diagnostic; an unchanged type or
    access appends nothing; the diagnostics of the annotations follow. *)
Theorem C3_property_type_and_access (format_name : node -> string)
    (old_interface new_interface : node)
    (old_property new_property : ASTProperty.t) :
  ASTProperty.name old_property = ASTProperty.name new_property ->
  exists type_check access_check : list entry,
    runs (_compare_properties format_name old_interface old_property
            new_interface new_property) tt
      (type_check ++ access_check
       ++ emitted (_compare_annotations format_name
                     (PropertyNode old_interface old_property)
                     (PropertyNode new_interface new_property)))
    /\ (ASTProperty.type old_property <> ASTProperty.type new_property ->
        type_check
        = [(OUTPUT_BACKWARDS_INCOMPATIBLE,
            ("Property ‘"
             ++ format_name (PropertyNode old_interface old_property)
             ++ "’ has changed type from ‘" ++ ASTProperty.type old_property
             ++ "’ to ‘" ++ ASTProperty.type new_property ++ "’.")%string)])
    /\ (ASTProperty.type old_property = ASTProperty.type new_property ->
        type_check = [])
    /\ (In (ASTProperty.access old_property)
           [ASTProperty.ACCESS_READ; ASTProperty.ACCESS_WRITE] ->
        ASTProperty.access new_property = ASTProperty.ACCESS_READWRITE ->
        access_check
        = [(OUTPUT_FORWARDS_INCOMPATIBLE,
            ("Property ‘"
             ++ format_name (PropertyNode old_interface old_property)
             ++ "’ has changed access from ‘"
             ++ ASTProperty.access old_property ++ "’ to ‘"
             ++ ASTProperty.access new_property
             ++ "’, becoming less restrictive.")%string)])
    /\ (ASTProperty.access old_property <> ASTProperty.access new_property ->
        ~ (In (ASTProperty.access old_property)
              [ASTProperty.ACCESS_READ; ASTProperty.ACCESS_WRITE]
           /\ ASTProperty.access new_property
              = ASTProperty.ACCESS_READWRITE) ->
        access_check
        = [(OUTPUT_BACKWARDS_INCOMPATIBLE,
            ("Property ‘"
             ++ format_name (PropertyNode old_interface old_property)
             ++ "’ has changed access from ‘"
             ++ ASTProperty.access old_property ++ "’ to ‘"
             ++ ASTProperty.access new_property ++ "’.")%string)])
    /\ (ASTProperty.access old_property = ASTProperty.access new_property ->
        access_check = []).
Proof.
  intros Hname.
  eexists. eexists. split.
  { apply compare_properties_runs. exact Hname. }
  unfold issued.
  destruct (String.eqb_spec (ASTProperty.type old_property)
                            (ASTProperty.type new_property)) as [Ht | Ht];
    destruct (String.eqb_spec (ASTProperty.access old_property)
                              ASTProperty.ACCESS_READ) as [Hr | Hr];
    destruct (String.eqb_spec (ASTProperty.access old_property)
                              ASTProperty.ACCESS_WRITE) as [Hw | Hw];
    destruct (String.eqb_spec (ASTProperty.access new_property)
                              ASTProperty.ACCESS_READWRITE) as [Hrw | Hrw];
    destruct (String.eqb_spec (ASTProperty.access old_property)
                              (ASTProperty.access new_property)) as [Ha | Ha];
    cbn [negb orb andb]; repeat split; intros; try reflexivity;
    try contradiction;
    try (exfalso;
         match goal with
         | H : In _ _ |- _ => cbn [In] in H; intuition congruence
         | H : ~ (In _ _ /\ _) |- _ =>
             apply H; cbn [In]; intuition congruence
         end);
    try (exfalso; unfold ASTProperty.ACCESS_READ, ASTProperty.ACCESS_WRITE,
           ASTProperty.ACCESS_READWRITE in *; congruence).
Qed.

Lemma C3_property_type_and_access_witness :
  ASTProperty.name (Examples.property_P "s" "read" [])
  = ASTProperty.name (Examples.property_P "i" "readwrite" [])
  /\ emitted (_compare_properties qualified_name
                (InterfaceNode Examples.interface_I)
                (Examples.property_P "s" "read" [])
                (InterfaceNode Examples.interface_I)
                (Examples.property_P "i" "readwrite" []))
     = [(OUTPUT_BACKWARDS_INCOMPATIBLE,
         "Property ‘I.P’ has changed type from ‘s’ to ‘i’.");
        (OUTPUT_FORWARDS_INCOMPATIBLE,
         "Property ‘I.P’ has changed access from ‘read’ to ‘readwrite’, becoming less restrictive.")].
Proof.
  split; [reflexivity|].
  destruct (C3_property_type_and_access qualified_name
              (InterfaceNode Examples.interface_I)
              (InterfaceNode Examples.interface_I)
              (Examples.property_P "s" "read" [])
              (Examples.property_P "i" "readwrite" []) eq_refl)
    as (type_check & access_check & Hruns & Htype & _ & Haccess & _).
  rewrite (runs_emitted Hruns), Htype, Haccess.
  - reflexivity.
  - simpl. left. reflexivity.
  - reflexivity.
  - simpl. discriminate.
Defined.

(** C4: for a method or a signal present on both sides under the same name,
    the argument lists are compared position by position, over the positions
    of the longer list: an argument only in the new list appends a
    backwards-incompatible ``added'' diagnostic, one only in the old list a
    backwards-incompatible ``removed'' diagnostic, and two arguments at the
    same position are compared with each other, where a different name
    appends an informational diagnostic, a different type a
    backwards-incompatible one and a different direction a
    backwards-incompatible one. *)
Theorem C4_positional_arguments (format_name : node -> string)
    (old_interface new_interface : node)
    (old_method new_method : ASTMethod.t)
    (old_signal new_signal : ASTSignal.t)
    (old_parent new_parent : node) (old_arg new_arg : ASTArgument.t) :
  ASTMethod.name old_method = ASTMethod.name new_method ->
  ASTSignal.name old_signal = ASTSignal.name new_signal ->
  runs (_compare_methods format_name old_interface old_method new_interface
          new_method) tt
    (positional_diffs format_name "method"
       (MethodNode old_interface old_method)
       (MethodNode new_interface new_method)
       (ASTMethod.arguments old_method) (ASTMethod.arguments new_method)
     ++ emitted (_compare_annotations format_name
                   (MethodNode old_interface old_method)
                   (MethodNode new_interface new_method)))
  /\ runs (_compare_signals format_name old_interface old_signal new_interface
             new_signal) tt
       (positional_diffs format_name "signal"
          (SignalNode old_interface old_signal)
          (SignalNode new_interface new_signal)
          (ASTSignal.arguments old_signal) (ASTSignal.arguments new_signal)
        ++ emitted (_compare_annotations format_name
                      (SignalNode old_interface old_signal)
                      (SignalNode new_interface new_signal)))
  /\ exists name_check type_check direction_check : list entry,
       runs (_compare_arguments format_name old_parent old_arg new_parent
               new_arg) tt
         (name_check ++ type_check ++ direction_check
          ++ emitted (_compare_annotations format_name
                        (ArgumentNode old_parent old_arg)
                        (ArgumentNode new_parent new_arg)))
       /\ (ASTArgument.name old_arg <> ASTArgument.name new_arg ->
           name_check
           = [(OUTPUT_INFO,
               ("Argument " ++ format_u (ASTArgument.index old_arg) ++ " of ‘"
                ++ format_name old_parent ++ "’ has changed name from ‘"
                ++ format_s (ASTArgument.name old_arg) ++ "’ to ‘"
                ++ format_s (ASTArgument.name new_arg) ++ "’.")%string)])
       /\ (ASTArgument.name old_arg = ASTArgument.name new_arg ->
           name_check = [])
       /\ (ASTArgument.type old_arg <> ASTArgument.type new_arg ->
           type_check
           = [(OUTPUT_BACKWARDS_INCOMPATIBLE,
               ("Argument " ++ format_u (ASTArgument.index old_arg) ++ " of ‘"
                ++ format_name old_parent ++ "’ has changed type from ‘"
                ++ ASTArgument.type old_arg ++ "’ to ‘"
                ++ ASTArgument.type new_arg ++ "’.")%string)])
       /\ (ASTArgument.type old_arg = ASTArgument.type new_arg ->
           type_check = [])
       /\ (ASTArgument.direction old_arg <> ASTArgument.direction new_arg ->
           direction_check
           = [(OUTPUT_BACKWARDS_INCOMPATIBLE,
               ("Argument " ++ format_u (ASTArgument.index old_arg) ++ " of ‘"
                ++ format_name old_parent ++ "’ has changed direction from ‘"
                ++ format_s (ASTArgument.direction old_arg) ++ "’ to ‘"
                ++ format_s (ASTArgument.direction new_arg) ++ "’.")%string)])
       /\ (ASTArgument.direction old_arg = ASTArgument.direction new_arg ->
           direction_check = []).
Proof.
  intros Hmethod Hsignal.
  split; [now apply compare_methods_runs|].
  split; [now apply compare_signals_runs|].
  eexists. eexists. eexists. split; [apply compare_arguments_runs|].
  unfold issued.
  destruct (option_string_eqb_spec (ASTArgument.name old_arg)
                                   (ASTArgument.name new_arg));
    destruct (String.eqb_spec (ASTArgument.type old_arg)
                              (ASTArgument.type new_arg));
    destruct (option_string_eqb_spec (ASTArgument.direction old_arg)
                                     (ASTArgument.direction new_arg));
    cbn [negb]; repeat split; intros; try reflexivity; contradiction.
Qed.

Lemma C4_positional_arguments_witness :
  ASTMethod.name (Examples.method_M [Examples.argument 0 "x" "s"] [])
  = ASTMethod.name
      (Examples.method_M [Examples.argument 0 "y" "i";
                          Examples.argument 1 "z" "s"] [])
  /\ ASTSignal.name (Examples.signal_S [Examples.argument 0 "x" "s"])
     = ASTSignal.name (Examples.signal_S [])
  /\ emitted (_compare_methods qualified_name
                (InterfaceNode Examples.interface_I)
                (Examples.method_M [Examples.argument 0 "x" "s"] [])
                (InterfaceNode Examples.interface_I)
                (Examples.method_M [Examples.argument 0 "y" "i";
                                    Examples.argument 1 "z" "s"] []))
     = [(OUTPUT_INFO, "Argument 0 of ‘I.M’ has changed name from ‘x’ to ‘y’.");
        (OUTPUT_BACKWARDS_INCOMPATIBLE,
         "Argument 0 of ‘I.M’ has changed type from ‘s’ to ‘i’.");
        (OUTPUT_BACKWARDS_INCOMPATIBLE,
         "Argument z of method ‘I.M’ has been added.")]
  /\ emitted (_compare_signals qualified_name
                (InterfaceNode Examples.interface_I)
                (Examples.signal_S [Examples.argument 0 "x" "s"])
                (InterfaceNode Examples.interface_I)
                (Examples.signal_S []))
     = [(OUTPUT_BACKWARDS_INCOMPATIBLE,
         "Argument x of signal ‘I.S’ has been removed.")].
Proof.
  split; [reflexivity|]. split; [reflexivity|].
  destruct (C4_positional_arguments qualified_name
              (InterfaceNode Examples.interface_I)
              (InterfaceNode Examples.interface_I)
              (Examples.method_M [Examples.argument 0 "x" "s"] [])
              (Examples.method_M [Examples.argument 0 "y" "i";
                                  Examples.argument 1 "z" "s"] [])
              (Examples.signal_S [Examples.argument 0 "x" "s"])
              (Examples.signal_S [])
              (InterfaceNode Examples.interface_I)
              (InterfaceNode Examples.interface_I)
              (Examples.argument 0 "x" "s") (Examples.argument 0 "x" "s")
              eq_refl eq_refl)
    as (Hmethods & Hsignals & _).
  rewrite (runs_emitted Hmethods), (runs_emitted Hsignals).
  split; reflexivity.
Defined.

(** C6: on valid mappings [compare] returns, and what it stores is, in this
    order, the pass over the old mapping in its iteration order (a removal
    for a name absent from the new mapping, the comparison of the two
    interfaces otherwise, which lists methods, then properties, then signals,
    then the annotations of the interface) and then the additions in the
    iteration order of the new mapping; the stored output holds the
    backwards-incompatible message that interface [X] has been removed
    exactly once when [X] is in the old mapping and not in the new one (and
    not at all otherwise), and the forwards-incompatible message that [X]
    has been added exactly once when [X] is in the new mapping and not in the
    old one (and not at all otherwise). *)
Theorem C6_interfaces_removed_added_in_order (format_name : node -> string)
    (self : InterfaceComparator) (X : string) :
  valid_interfaces (_old_interfaces self) = true ->
  valid_interfaces (_new_interfaces self) = true ->
  compare format_name self
  = (Returns (get_output
               (set_output self
                  (interfaces_diffs format_name (_old_interfaces self)
                     (_new_interfaces self)))),
     set_output self
       (interfaces_diffs format_name (_old_interfaces self)
          (_new_interfaces self)))
  /\ count_occ entry_eq_dec (_output (snd (compare format_name self)))
       (OUTPUT_BACKWARDS_INCOMPATIBLE,
        ("Interface ‘" ++ X ++ "’ has been removed.")%string)
     = (if contains X (_old_interfaces self)
           && negb (contains X (_new_interfaces self))
        then 1 else 0)
  /\ count_occ entry_eq_dec (_output (snd (compare format_name self)))
       (OUTPUT_FORWARDS_INCOMPATIBLE,
        ("Interface ‘" ++ X ++ "’ has been added.")%string)
     = (if contains X (_new_interfaces self)
           && negb (contains X (_old_interfaces self))
        then 1 else 0).
Proof.
  intros Hold Hnew. rewrite (compare_valid format_name self Hold Hnew).
  split; [reflexivity|]. cbn [snd _output set_output]. split.
  - now apply interfaces_diffs_count_removed.
  - now apply interfaces_diffs_count_added.
Qed.

Lemma C6_interfaces_removed_added_in_order_witness :
  valid_interfaces Examples.old_model = true
  /\ valid_interfaces Examples.new_model = true
  /\ compare qualified_name
       (__init__ Examples.old_model Examples.new_model WARNING_CATEGORIES)
     = (Returns
          [(OUTPUT_BACKWARDS_INCOMPATIBLE, "Interface ‘I’ has been removed.");
           (OUTPUT_BACKWARDS_INCOMPATIBLE, "Method ‘J.M’ has been removed.");
           (OUTPUT_FORWARDS_INCOMPATIBLE, "Interface ‘K’ has been added.")],
        set_output
          (__init__ Examples.old_model Examples.new_model WARNING_CATEGORIES)
          [(OUTPUT_BACKWARDS_INCOMPATIBLE, "Interface ‘I’ has been removed.");
           (OUTPUT_BACKWARDS_INCOMPATIBLE, "Method ‘J.M’ has been removed.");
           (OUTPUT_FORWARDS_INCOMPATIBLE, "Interface ‘K’ has been added.")]).
Proof.
  split; [reflexivity|]. split; [reflexivity|].
  destruct (C6_interfaces_removed_added_in_order qualified_name
              (__init__ Examples.old_model Examples.new_model
                 WARNING_CATEGORIES) "I" eq_refl eq_refl)
    as [Hcompare _].
  rewrite Hcompare. reflexivity.
Defined.

(** C7: comparing a valid interface mapping with itself returns no entry and
    stores none, whatever the enabled categories and whatever was stored
    before: no backwards-incompatible, no forwards-incompatible and no
    informational entry. *)
Theorem C7_compare_with_itself (format_name : node -> string)
    (X : dict ASTInterface.t) (stored : list entry)
    (enabled_warnings : list string) :
  valid_interfaces X = true ->
  compare format_name
    {| _old_interfaces := X; _new_interfaces := X; _output := stored;
       _enabled_warnings := enabled_warnings |}
  = (Returns [],
     {| _old_interfaces := X; _new_interfaces := X; _output := [];
        _enabled_warnings := enabled_warnings |}).
Proof.
  intros HX.
  rewrite compare_valid by exact HX.
  cbn [_old_interfaces _new_interfaces].
  rewrite interfaces_diffs_same by exact HX. reflexivity.
Qed.

Lemma C7_compare_with_itself_witness :
  valid_interfaces Examples.full_model = true
  /\ compare qualified_name
       (__init__ Examples.full_model Examples.full_model WARNING_CATEGORIES)
     = (Returns [],
        __init__ Examples.full_model Examples.full_model WARNING_CATEGORIES).
Proof.
  split; [reflexivity|].
  exact (C7_compare_with_itself qualified_name Examples.full_model []
           WARNING_CATEGORIES eq_refl).
Defined.

(** C9: what [compare] stores does not depend on the enabled warning
    categories: two comparators that differ only in them store the same
    entries (and raise the same exception, if any); the categories only
    filter what [get_output] returns, [print_output] writes one line for each
    entry [get_output] returns, and reading the comparator again under other
    categories gives what a comparison under those categories gives. *)
Theorem C9_enabled_warnings_only_filter (format_name : node -> string)
    (old_interfaces new_interfaces : dict ASTInterface.t)
    (stored : list entry) (enabled1 enabled2 : list string)
    (self : InterfaceComparator) :
  _output (snd (compare format_name
                  {| _old_interfaces := old_interfaces;
                     _new_interfaces := new_interfaces;
                     _output := stored;
                     _enabled_warnings := enabled1 |}))
  = _output (snd (compare format_name
                    {| _old_interfaces := old_interfaces;
                       _new_interfaces := new_interfaces;
                       _output := stored;
                       _enabled_warnings := enabled2 |}))
  /\ get_output self
     = filter (fun e => _warning_enabled self (fst e)) (_output self)
  /\ print_output self = (Returns tt, map written_line (get_output self))
  /\ set_enabled_warnings
       (snd (compare format_name
               {| _old_interfaces := old_interfaces;
                  _new_interfaces := new_interfaces;
                  _output := stored;
                  _enabled_warnings := enabled1 |})) enabled2
     = snd (compare format_name
              {| _old_interfaces := old_interfaces;
                 _new_interfaces := new_interfaces;
                 _output := stored;
                 _enabled_warnings := enabled2 |})
  /\ match fst (compare format_name
                  {| _old_interfaces := old_interfaces;
                     _new_interfaces := new_interfaces;
                     _output := stored;
                     _enabled_warnings := enabled2 |}) with
     | Returns v =>
         v = get_output
               (set_enabled_warnings
                  (snd (compare format_name
                          {| _old_interfaces := old_interfaces;
                             _new_interfaces := new_interfaces;
                             _output := stored;
                             _enabled_warnings := enabled1 |})) enabled2)
     | Raises e =>
         fst (compare format_name
                {| _old_interfaces := old_interfaces;
                   _new_interfaces := new_interfaces;
                   _output := stored;
                   _enabled_warnings := enabled1 |}) = Raises e
     end.
Proof.
  unfold compare, compare_loops. cbn [_old_interfaces _new_interfaces _output
    set_output].
  match goal with
  | |- context [for_ ?xs ?body ;; ?k] =>
      destruct ((for_ xs body ;; k) []) as [[[]|e] out]
  end; cbn [fst snd _output set_enabled_warnings set_output _old_interfaces
            _new_interfaces _enabled_warnings];
    repeat split;
    first [ apply get_output_filter | apply print_output_written ].
Qed.

(** C10: [compare] clears what was stored before comparing: its outcome and
    the comparator it leaves do not depend on the output stored before, a
    second call in succession gives the same outcome and leaves the same
    comparator as the first, and the value it returns is what [get_output]
    returns afterwards. *)
Theorem C10_compare_repeatable (format_name : node -> string)
    (self : InterfaceComparator) (stored : list entry) :
  compare format_name (snd (compare format_name self))
  = compare format_name self
  /\ compare format_name (set_output self stored) = compare format_name self
  /\ match fst (compare format_name self) with
     | Returns v => v = get_output (snd (compare format_name self))
     | Raises _ => True
     end.
Proof.
  destruct self as [old_interfaces new_interfaces out enabled_warnings].
  unfold set_output.
  cbn [_old_interfaces _new_interfaces _output _enabled_warnings].
  rewrite (compare_fields format_name old_interfaces new_interfaces out),
    (compare_fields format_name old_interfaces new_interfaces stored).
  destruct (compare_loops format_name
              {| _old_interfaces := old_interfaces;
                 _new_interfaces := new_interfaces;
                 _output := [];
                 _enabled_warnings := enabled_warnings |} [])
    as [[[]|e] out'] eqn:Hloops;
    cbn [fst snd]; rewrite compare_fields, Hloops; repeat split.
Qed.



(** * Further properties of the comparator *)

(** X1: [compare] either returns or raises [AssertionError], never a
    [KeyError] or an [IndexError]; it raises exactly when two nodes that it
    compares (stored under the same key on both sides) have different names,
    and otherwise returns what [get_output] gives afterwards. *)
Theorem X1_compare_raises_only_assertions (format_name : node -> string)
    (self : InterfaceComparator) :
  fst (compare format_name self)
  = if compare_assertions (_old_interfaces self) (_new_interfaces self)
    then Returns (get_output (snd (compare format_name self)))
    else Raises AssertionError.
Proof.
  destruct self as [old_interfaces new_interfaces stored enabled_warnings].
  rewrite compare_fields. cbn [_old_interfaces _new_interfaces].
  pose proof (compare_loops_decides format_name
                {| _old_interfaces := old_interfaces;
                   _new_interfaces := new_interfaces;
                   _output := [];
                   _enabled_warnings := enabled_warnings |} []) as H.
  cbn [_old_interfaces _new_interfaces] in H.
  destruct (compare_loops format_name
              {| _old_interfaces := old_interfaces;
                 _new_interfaces := new_interfaces;
                 _output := [];
                 _enabled_warnings := enabled_warnings |} [])
    as [[[]|e] out]; cbn [fst snd] in *.
  - now rewrite H.
  - destruct H as [-> ->]. reflexivity.
Qed.

(** X2: every entry [compare] stores has one of the three known levels, also
    when it raises; so when the three warning categories are enabled (as by
    default) [get_output] after [compare] returns everything that was
    stored. *)
Theorem X2_all_categories_return_everything (format_name : node -> string)
    (self : InterfaceComparator) :
  (forall c, In c WARNING_CATEGORIES ->
             str_in c (_enabled_warnings self) = true) ->
  Forall known_level (_output (snd (compare format_name self)))
  /\ get_output (snd (compare format_name self))
     = _output (snd (compare format_name self)).
Proof.
  intros Hall.
  pose proof (compare_stores_known_levels format_name self) as Hlevels.
  split; [exact Hlevels|].
  rewrite get_output_filter. apply filter_all.
  eapply Forall_impl; [|exact Hlevels].
  intros e He. apply known_level_enabled; [|exact He].
  destruct self as [old_interfaces new_interfaces stored enabled_warnings].
  rewrite compare_fields.
  destruct (compare_loops format_name _ []) as [[[]|e'] out]; exact Hall.
Qed.

Lemma X2_all_categories_return_everything_witness :
  (forall c, In c WARNING_CATEGORIES ->
             str_in c (_enabled_warnings
                         (__init__ Examples.old_model Examples.new_model
                            WARNING_CATEGORIES)) = true)
  /\ get_output
       (snd (compare qualified_name
               (__init__ Examples.old_model Examples.new_model
                  WARNING_CATEGORIES)))
     = [(OUTPUT_BACKWARDS_INCOMPATIBLE, "Interface ‘I’ has been removed.");
        (OUTPUT_BACKWARDS_INCOMPATIBLE, "Method ‘J.M’ has been removed.");
        (OUTPUT_FORWARDS_INCOMPATIBLE, "Interface ‘K’ has been added.")].
Proof.
  assert (H : forall c, In c WARNING_CATEGORIES ->
                str_in c (_enabled_warnings
                            (__init__ Examples.old_model Examples.new_model
                               WARNING_CATEGORIES)) = true).
  { intros c Hc. simpl in Hc.
    repeat destruct Hc as [Hc | Hc]; try subst c; try reflexivity.
    destruct Hc. }
  split; [exact H|].
  destruct (X2_all_categories_return_everything qualified_name
              (__init__ Examples.old_model Examples.new_model
                 WARNING_CATEGORIES) H) as [_ Hget].
  rewrite Hget. reflexivity.
Defined.

(** X3: the enabled warning categories only matter through which of the three
    category names they hold: two lists that agree on the three names (in any
    order, with repetitions or with other names) make [get_output] and
    [print_output] give the same. *)
Theorem X3_enabled_categories_by_membership (self : InterfaceComparator)
    (enabled1 enabled2 : list string) :
  (forall c, In c WARNING_CATEGORIES ->
             str_in c enabled1 = str_in c enabled2) ->
  get_output (set_enabled_warnings self enabled1)
  = get_output (set_enabled_warnings self enabled2)
  /\ print_output (set_enabled_warnings self enabled1)
     = print_output (set_enabled_warnings self enabled2).
Proof.
  intros H.
  assert (Hget : get_output (set_enabled_warnings self enabled1)
                 = get_output (set_enabled_warnings self enabled2)).
  { rewrite !get_output_filter. cbn [_output set_enabled_warnings].
    apply filter_ext. intros e. now apply warning_enabled_membership. }
  split; [exact Hget|].
  now rewrite !print_output_written, Hget.
Qed.

Lemma X3_enabled_categories_by_membership_witness :
  (forall c, In c WARNING_CATEGORIES ->
             str_in c ["info"; "verbose"; "info"] = str_in c ["info"])
  /\ get_output
       (set_enabled_warnings
          (set_output (__init__ [] [] [])
             [(OUTPUT_INFO, "a"); (OUTPUT_BACKWARDS_INCOMPATIBLE, "b")])
          ["info"; "verbose"; "info"])
     = [(OUTPUT_INFO, "a")].
Proof.
  assert (H : forall c, In c WARNING_CATEGORIES ->
                str_in c ["info"; "verbose"; "info"] = str_in c ["info"]).
  { intros c Hc. simpl in Hc.
    repeat destruct Hc as [Hc | Hc]; try subst c; try reflexivity.
    destruct Hc. }
  split; [exact H|].
  destruct (X3_enabled_categories_by_membership
              (set_output (__init__ [] [] [])
                 [(OUTPUT_INFO, "a"); (OUTPUT_BACKWARDS_INCOMPATIBLE, "b")])
              ["info"; "verbose"; "info"] ["info"] H) as [Hget _].
  rewrite Hget. reflexivity.
Defined.

(** X4: the Deprecated annotation counts as set only when its value is
    exactly ["true"]; any other value reads like an absent annotation.  For
    two nodes that agree on the other three well-known annotations,
    [_compare_annotations] appends exactly one informational ``un-deprecated''
    entry when the node stops being deprecated in this sense, exactly one
    informational ``deprecated'' entry when it starts being deprecated, and
    nothing otherwise. *)
Theorem X4_deprecated_exactly_true (format_name : node -> string)
    (old_node new_node : node) :
  c_symbol old_node = c_symbol new_node ->
  effective_no_reply old_node = effective_no_reply new_node ->
  effective_emits_changed_signal old_node
  = effective_emits_changed_signal new_node ->
  (own_annotation_value Deprecated old_node = Some "true" ->
   own_annotation_value Deprecated new_node <> Some "true" ->
   runs (_compare_annotations format_name old_node new_node) tt
     [(OUTPUT_INFO,
       ("Node ‘" ++ format_name old_node
        ++ "’ has been un-deprecated.")%string)])
  /\ (own_annotation_value Deprecated old_node <> Some "true" ->
      own_annotation_value Deprecated new_node = Some "true" ->
      runs (_compare_annotations format_name old_node new_node) tt
        [(OUTPUT_INFO,
          ("Node ‘" ++ format_name old_node
           ++ "’ has been deprecated.")%string)])
  /\ (own_annotation_value Deprecated old_node = Some "true" ->
      own_annotation_value Deprecated new_node = Some "true" ->
      runs (_compare_annotations format_name old_node new_node) tt [])
  /\ (own_annotation_value Deprecated old_node <> Some "true" ->
      own_annotation_value Deprecated new_node <> Some "true" ->
      runs (_compare_annotations format_name old_node new_node) tt []).
Proof.
  intros Hsymbol Hreply Hecs.
  pose proof (compare_annotations_first_two format_name old_node new_node
                Hreply Hecs) as Hruns.
  rewrite deprecated_check_cases, c_symbol_check_cases, Hsymbol,
    String.eqb_refl, app_nil_r in Hruns.
  pose proof (deprecated_read old_node) as Hold.
  pose proof (deprecated_read new_node) as Hnew.
  destruct (_get_bool_annotation old_node Deprecated false),
    (_get_bool_annotation new_node Deprecated false);
    repeat split; intros Ho Hn; try exact Hruns; exfalso;
    intuition congruence.
Qed.

Lemma X4_deprecated_exactly_true_witness :
  emitted (_compare_annotations qualified_name
             (Examples.node_M [Examples.annotation Deprecated "true"])
             (Examples.node_M [Examples.annotation Deprecated "True"]))
  = [(OUTPUT_INFO, "Node ‘I.M’ has been un-deprecated.")].
Proof.
  refine (runs_emitted
            (proj1 (X4_deprecated_exactly_true qualified_name
                      (Examples.node_M [Examples.annotation Deprecated "true"])
                      (Examples.node_M [Examples.annotation Deprecated "True"])
                      eq_refl eq_refl eq_refl) eq_refl _)).
  simpl. discriminate.
Defined.

(** X5: the C symbol of a node is the value of its C-symbol annotation, and
    the empty string when there is none, so an absent annotation and an
    empty one are the same.  For two nodes that agree on the other three
    well-known annotations, [_compare_annotations] appends exactly one
    informational entry that names both symbols when the symbol differs, and
    nothing when it is the same. *)
Theorem X5_c_symbol_change (format_name : node -> string)
    (old_node new_node : node) :
  (own_annotation_value Deprecated old_node = Some "true"
   <-> own_annotation_value Deprecated new_node = Some "true") ->
  effective_no_reply old_node = effective_no_reply new_node ->
  effective_emits_changed_signal old_node
  = effective_emits_changed_signal new_node ->
  (c_symbol old_node = c_symbol new_node ->
   runs (_compare_annotations format_name old_node new_node) tt [])
  /\ (c_symbol old_node <> c_symbol new_node ->
      runs (_compare_annotations format_name old_node new_node) tt
        [(OUTPUT_INFO,
          ("Node ‘" ++ format_name old_node
           ++ "’ has changed its C symbol from ‘" ++ c_symbol old_node
           ++ "’ to ‘" ++ c_symbol new_node ++ "’.")%string)]).
Proof.
  intros Hdeprecated Hreply Hecs.
  pose proof (compare_annotations_first_two format_name old_node new_node
                Hreply Hecs) as Hruns.
  rewrite deprecated_check_cases, c_symbol_check_cases in Hruns.
  pose proof (deprecated_read old_node) as Hold.
  pose proof (deprecated_read new_node) as Hnew.
  destruct (_get_bool_annotation old_node Deprecated false),
    (_get_bool_annotation new_node Deprecated false);
    try (exfalso; intuition congruence); cbn [app] in Hruns;
    (destruct (String.eqb_spec (c_symbol old_node) (c_symbol new_node));
     split; intros H; try exact Hruns; contradiction).
Qed.

Lemma X5_c_symbol_change_witness :
  emitted (_compare_annotations qualified_name
             (Examples.node_M [])
             (Examples.node_M [Examples.annotation CSymbol ""]))
  = []
  /\ emitted (_compare_annotations qualified_name
                (Examples.node_M [])
                (Examples.node_M [Examples.annotation CSymbol "do_m"]))
     = [(OUTPUT_INFO,
         "Node ‘I.M’ has changed its C symbol from ‘’ to ‘do_m’.")].
Proof.
  assert (Hquiet : forall annotations,
             own_annotation_value Deprecated (Examples.node_M [])
             = Some "true"
             <-> own_annotation_value Deprecated
                   (Examples.node_M [Examples.annotation CSymbol annotations])
                 = Some "true").
  { intros annotations. split; discriminate. }
  split.
  - refine (runs_emitted
              (proj1 (X5_c_symbol_change qualified_name (Examples.node_M [])
                        (Examples.node_M [Examples.annotation CSymbol ""])
                        (Hquiet "") eq_refl eq_refl) eq_refl)).
  - refine (runs_emitted
              (proj2 (X5_c_symbol_change qualified_name (Examples.node_M [])
                        (Examples.node_M [Examples.annotation CSymbol "do_m"])
                        (Hquiet "do_m") eq_refl eq_refl) _)).
    simpl. discriminate.
Defined.

(** X6: compared with an empty old mapping everything is added, compared with
    an empty new mapping everything is removed: [compare] returns, without
    any condition on the other mapping, and stores exactly one
    forwards-incompatible ``added'' entry (resp. one backwards-incompatible
    ``removed'' entry) per interface of the other mapping, in its order. *)
Theorem X6_empty_mappings (format_name : node -> string)
    (interfaces : dict ASTInterface.t) (stored : list entry)
    (enabled_warnings : list string) :
  compare format_name
    {| _old_interfaces := []; _new_interfaces := interfaces;
       _output := stored; _enabled_warnings := enabled_warnings |}
  = (Returns
       (get_output
          {| _old_interfaces := []; _new_interfaces := interfaces;
             _output := map (fun kv => interface_added (fst kv)) interfaces;
             _enabled_warnings := enabled_warnings |}),
     {| _old_interfaces := []; _new_interfaces := interfaces;
        _output := map (fun kv => interface_added (fst kv)) interfaces;
        _enabled_warnings := enabled_warnings |})
  /\ compare format_name
       {| _old_interfaces := interfaces; _new_interfaces := [];
          _output := stored; _enabled_warnings := enabled_warnings |}
     = (Returns
          (get_output
             {| _old_interfaces := interfaces; _new_interfaces := [];
                _output := map (fun kv => interface_removed (fst kv))
                             interfaces;
                _enabled_warnings := enabled_warnings |}),
        {| _old_interfaces := interfaces; _new_interfaces := [];
           _output := map (fun kv => interface_removed (fst kv)) interfaces;
           _enabled_warnings := enabled_warnings |}).
Proof.
  rewrite !compare_fields. split.
  - now rewrite (compare_loops_empty_old format_name
                   {| _old_interfaces := []; _new_interfaces := interfaces;
                      _output := []; _enabled_warnings := enabled_warnings |}
                   eq_refl []).
  - now rewrite (compare_loops_empty_new format_name
                   {| _old_interfaces := interfaces; _new_interfaces := [];
                      _output := []; _enabled_warnings := enabled_warnings |}
                   eq_refl []).
Qed.

(** X7: the order of the interfaces in a mapping does not matter: comparing a
    valid mapping with a valid mapping that holds the same interfaces in
    another order returns no entry and stores none. *)
Theorem X7_reordered_interfaces (format_name : node -> string)
    (old_interfaces new_interfaces : dict ASTInterface.t)
    (stored : list entry) (enabled_warnings : list string) :
  valid_interfaces old_interfaces = true ->
  valid_interfaces new_interfaces = true ->
  Permutation old_interfaces new_interfaces ->
  compare format_name
    {| _old_interfaces := old_interfaces; _new_interfaces := new_interfaces;
       _output := stored; _enabled_warnings := enabled_warnings |}
  = (Returns [],
     {| _old_interfaces := old_interfaces; _new_interfaces := new_interfaces;
        _output := []; _enabled_warnings := enabled_warnings |}).
Proof.
  intros Hold Hnew Hperm.
  rewrite compare_valid by assumption.
  cbn [_old_interfaces _new_interfaces].
  rewrite interfaces_diffs_reordered by assumption. reflexivity.
Qed.

Lemma X7_reordered_interfaces_witness :
  valid_interfaces Examples.new_model = true
  /\ valid_interfaces (rev Examples.new_model) = true
  /\ Permutation Examples.new_model (rev Examples.new_model)
  /\ compare qualified_name
       (__init__ Examples.new_model (rev Examples.new_model)
          WARNING_CATEGORIES)
     = (Returns [],
        __init__ Examples.new_model (rev Examples.new_model)
          WARNING_CATEGORIES).
Proof.
  split; [reflexivity|]. split; [reflexivity|].
  split; [apply Permutation_rev|].
  exact (X7_reordered_interfaces qualified_name Examples.new_model
           (rev Examples.new_model) [] WARNING_CATEGORIES eq_refl eq_refl
           (Permutation_rev Examples.new_model)).
Defined.

(** X9: exchanging the two mappings turns removals into additions: on valid
    mappings, the stored output of [compare] holds the ``removed'' message of
    an interface as often as the stored output of the comparison the other
    way round holds its ``added'' message. *)
Theorem X9_removed_is_added_the_other_way (format_name : node -> string)
    (old_interfaces new_interfaces : dict ASTInterface.t)
    (enabled_warnings : list string) (X : string) :
  valid_interfaces old_interfaces = true ->
  valid_interfaces new_interfaces = true ->
  count_occ entry_eq_dec
    (_output (snd (compare format_name
                     (__init__ old_interfaces new_interfaces
                        enabled_warnings))))
    (interface_removed X)
  = count_occ entry_eq_dec
      (_output (snd (compare format_name
                       (__init__ new_interfaces old_interfaces
                          enabled_warnings))))
      (interface_added X).
Proof.
  intros Hold Hnew. unfold __init__.
  rewrite !compare_valid by assumption.
  cbn [snd _output set_output _old_interfaces _new_interfaces].
  rewrite interfaces_diffs_count_removed, interfaces_diffs_count_added
    by assumption.
  reflexivity.
Qed.

Lemma X9_removed_is_added_the_other_way_witness :
  valid_interfaces Examples.old_model = true
  /\ valid_interfaces Examples.new_model = true
  /\ count_occ entry_eq_dec
       (_output (snd (compare qualified_name
                        (__init__ Examples.new_model Examples.old_model
                           WARNING_CATEGORIES))))
       (interface_added "I") = 1.
Proof.
  split; [reflexivity|]. split; [reflexivity|].
  rewrite <- (X9_removed_is_added_the_other_way qualified_name
                Examples.old_model Examples.new_model WARNING_CATEGORIES "I"
                eq_refl eq_refl).
  reflexivity.
Defined.

(** X10: when the new method (or signal) has the arguments of the old one
    followed by further arguments, the arguments they share give no entry and
    each further argument gives exactly one backwards-incompatible ``added''
    entry, in order, before the entries of the annotations. *)
Theorem X10_appended_arguments (format_name : node -> string)
    (old_interface new_interface : node)
    (old_method new_method : ASTMethod.t)
    (old_signal new_signal : ASTSignal.t)
    (method_extra signal_extra : list ASTArgument.t) :
  ASTMethod.name old_method = ASTMethod.name new_method ->
  ASTMethod.arguments new_method
  = ASTMethod.arguments old_method ++ method_extra ->
  ASTSignal.name old_signal = ASTSignal.name new_signal ->
  ASTSignal.arguments new_signal
  = ASTSignal.arguments old_signal ++ signal_extra ->
  emitted (_compare_methods format_name old_interface old_method
             new_interface new_method)
  = map (argument_added format_name "method"
           (MethodNode new_interface new_method)) method_extra
    ++ emitted (_compare_annotations format_name
                  (MethodNode old_interface old_method)
                  (MethodNode new_interface new_method))
  /\ emitted (_compare_signals format_name old_interface old_signal
                new_interface new_signal)
     = map (argument_added format_name "signal"
              (SignalNode new_interface new_signal)) signal_extra
       ++ emitted (_compare_annotations format_name
                     (SignalNode old_interface old_signal)
                     (SignalNode new_interface new_signal)).
Proof.
  intros Hmethod Hmethod_args Hsignal Hsignal_args. split.
  - rewrite (runs_emitted (compare_methods_runs format_name old_interface
                             old_method new_interface new_method Hmethod)).
    now rewrite Hmethod_args, positional_diffs_appended.
  - rewrite (runs_emitted (compare_signals_runs format_name old_interface
                             old_signal new_interface new_signal Hsignal)).
    now rewrite Hsignal_args, positional_diffs_appended.
Qed.

Lemma X10_appended_arguments_witness :
  emitted (_compare_methods qualified_name
             (InterfaceNode Examples.interface_I)
             (Examples.method_M [Examples.argument 0 "x" "s"] [])
             (InterfaceNode Examples.interface_I)
             (Examples.method_M [Examples.argument 0 "x" "s";
                                 Examples.argument 1 "y" "i";
                                 Examples.argument 2 "z" "b"] []))
  = [(OUTPUT_BACKWARDS_INCOMPATIBLE,
      "Argument y of method ‘I.M’ has been added.");
     (OUTPUT_BACKWARDS_INCOMPATIBLE,
      "Argument z of method ‘I.M’ has been added.")].
Proof.
  destruct (X10_appended_arguments qualified_name
              (InterfaceNode Examples.interface_I)
              (InterfaceNode Examples.interface_I)
              (Examples.method_M [Examples.argument 0 "x" "s"] [])
              (Examples.method_M [Examples.argument 0 "x" "s";
                                  Examples.argument 1 "y" "i";
                                  Examples.argument 2 "z" "b"] [])
              (Examples.signal_S []) (Examples.signal_S [])
              [Examples.argument 1 "y" "i"; Examples.argument 2 "z" "b"] []
              eq_refl eq_refl eq_refl eq_refl) as [Hmethods _].
  rewrite Hmethods. reflexivity.
Defined.

(** X11: when the old method (or signal) has the arguments of the new one
    followed by further arguments, the arguments they share give no entry and
    each dropped argument gives exactly one backwards-incompatible
    ``removed'' entry, in order, before the entries of the annotations. *)
Theorem X11_dropped_arguments (format_name : node -> string)
    (old_interface new_interface : node)
    (old_method new_method : ASTMethod.t)
    (old_signal new_signal : ASTSignal.t)
    (method_extra signal_extra : list ASTArgument.t) :
  ASTMethod.name old_method = ASTMethod.name new_method ->
  ASTMethod.arguments old_method
  = ASTMethod.arguments new_method ++ method_extra ->
  ASTSignal.name old_signal = ASTSignal.name new_signal ->
  ASTSignal.arguments old_signal
  = ASTSignal.arguments new_signal ++ signal_extra ->
  emitted (_compare_methods format_name old_interface old_method
             new_interface new_method)
  = map (argument_removed format_name "method"
           (MethodNode old_interface old_method)) method_extra
    ++ emitted (_compare_annotations format_name
                  (MethodNode old_interface old_method)
                  (MethodNode new_interface new_method))
  /\ emitted (_compare_signals format_name old_interface old_signal
                new_interface new_signal)
     = map (argument_removed format_name "signal"
              (SignalNode old_interface old_signal)) signal_extra
       ++ emitted (_compare_annotations format_name
                     (SignalNode old_interface old_signal)
                     (SignalNode new_interface new_signal)).
Proof.
  intros Hmethod Hmethod_args Hsignal Hsignal_args. split.
  - rewrite (runs_emitted (compare_methods_runs format_name old_interface
                             old_method new_interface new_method Hmethod)).
    now rewrite Hmethod_args, positional_diffs_dropped.
  - rewrite (runs_emitted (compare_signals_runs format_name old_interface
                             old_signal new_interface new_signal Hsignal)).
    now rewrite Hsignal_args, positional_diffs_dropped.
Qed.

Lemma X11_dropped_arguments_witness :
  emitted (_compare_signals qualified_name
             (InterfaceNode Examples.interface_I)
             (Examples.signal_S [Examples.argument 0 "x" "s";
                                 Examples.argument 1 "y" "i"])
             (InterfaceNode Examples.interface_I)
             (Examples.signal_S [Examples.argument 0 "x" "s"]))
  = [(OUTPUT_BACKWARDS_INCOMPATIBLE,
      "Argument y of signal ‘I.S’ has been removed.")].
Proof.
  destruct (X11_dropped_arguments qualified_name
              (InterfaceNode Examples.interface_I)
              (InterfaceNode Examples.interface_I)
              (Examples.method_M [] []) (Examples.method_M [] [])
              (Examples.signal_S [Examples.argument 0 "x" "s";
                                  Examples.argument 1 "y" "i"])
              (Examples.signal_S [Examples.argument 0 "x" "s"])
              [] [Examples.argument 1 "y" "i"]
              eq_refl eq_refl eq_refl eq_refl) as [_ Hsignals].
  rewrite Hsignals. reflexivity.
Defined.

(** X12: only properties inherit the Emits-changed-signal value.  For two
    properties without an annotation of their own, the check reports what it
    reports for their interfaces, with the same severity, so a change of the
    annotation of an interface is reported again for each such property; for
    two methods, signals or arguments without an annotation of their own it
    reports nothing, whatever their interfaces declare. *)
Theorem X12_only_properties_inherit (format_name : node -> string)
    (old_node new_node : node) :
  getitem (annotations old_node) EmitsChangedSignal = None ->
  getitem (annotations new_node) EmitsChangedSignal = None ->
  match old_node, new_node with
  | PropertyNode old_interface _, PropertyNode new_interface _ =>
      map fst (emitted (_compare_annotations_emits_changed_signal format_name
                          old_node new_node))
      = map fst (emitted (_compare_annotations_emits_changed_signal
                            format_name old_interface new_interface))
  | PropertyNode _ _, _ => True
  | _, PropertyNode _ _ => True
  | _, _ =>
      emitted (_compare_annotations_emits_changed_signal format_name old_node
                 new_node) = []
  end.
Proof.
  intros Hold Hnew.
  destruct old_node as [i | oi m | oi s | oi p | op a],
    new_node as [i' | ni m' | ni s' | ni p' | np a'];
    try exact I;
    try (apply emits_changed_signal_silent_iff; left; simpl in *;
         simpl in Hold, Hnew; rewrite Hold, Hnew; reflexivity).
  unfold _compare_annotations_emits_changed_signal.
  assert (Ho : _get_emits_changed_signal_annotation (PropertyNode oi p)
               = _get_emits_changed_signal_annotation oi)
    by (simpl in *; now rewrite Hold).
  assert (Hn : _get_emits_changed_signal_annotation (PropertyNode ni p')
               = _get_emits_changed_signal_annotation ni)
    by (simpl in *; now rewrite Hnew).
  rewrite Ho, Hn. repeat case_if; reflexivity.
Qed.

Lemma X12_only_properties_inherit_witness :
  map fst
    (emitted (_compare_annotations_emits_changed_signal qualified_name
                (PropertyNode (InterfaceNode (MoreExamples.annotated_I []))
                   (Examples.property_P "s" "read" []))
                (PropertyNode
                   (InterfaceNode
                      (MoreExamples.annotated_I
                         [Examples.annotation EmitsChangedSignal "false"]))
                   (Examples.property_P "s" "read" []))))
  = [OUTPUT_FORWARDS_INCOMPATIBLE]
  /\ emitted (_compare_annotations_emits_changed_signal qualified_name
                (MethodNode (InterfaceNode (MoreExamples.annotated_I []))
                   (Examples.method_M [] []))
                (MethodNode
                   (InterfaceNode
                      (MoreExamples.annotated_I
                         [Examples.annotation EmitsChangedSignal "false"]))
                   (Examples.method_M [] [])))
     = [].
Proof.
  split.
  - rewrite (X12_only_properties_inherit qualified_name
               (PropertyNode (InterfaceNode (MoreExamples.annotated_I []))
                  (Examples.property_P "s" "read" []))
               (PropertyNode
                  (InterfaceNode
                     (MoreExamples.annotated_I
                        [Examples.annotation EmitsChangedSignal "false"]))
                  (Examples.property_P "s" "read" []))
               eq_refl eq_refl).
    reflexivity.
  - exact (X12_only_properties_inherit qualified_name
             (MethodNode (InterfaceNode (MoreExamples.annotated_I []))
                (Examples.method_M [] []))
             (MethodNode
                (InterfaceNode
                   (MoreExamples.annotated_I
                      [Examples.annotation EmitsChangedSignal "false"]))
                (Examples.method_M [] []))
             eq_refl eq_refl).
Defined.

(** X13: an assertion that fails keeps what was stored before it.  When the
    interfaces that come first in the old mapping are compared without
    failure and the next one has, under its key, a partner with another name,
    [compare] raises [AssertionError] and the comparator then holds exactly
    the entries of the interfaces that come first: nothing for the pair that
    failed, nothing for the interfaces after it and no addition. *)
Theorem X13_failure_keeps_earlier_entries (format_name : node -> string)
    (first rest : list (string * ASTInterface.t)) (key : string)
    (old_interface new_interface : ASTInterface.t)
    (new_interfaces : dict ASTInterface.t) (stored : list entry)
    (enabled_warnings : list string) :
  result (compare_old_entries format_name new_interfaces first) = Returns tt ->
  getitem new_interfaces key = Some new_interface ->
  ASTInterface.name old_interface <> ASTInterface.name new_interface ->
  compare format_name
    {| _old_interfaces := first ++ (key, old_interface) :: rest;
       _new_interfaces := new_interfaces;
       _output := stored; _enabled_warnings := enabled_warnings |}
  = (Raises AssertionError,
     {| _old_interfaces := first ++ (key, old_interface) :: rest;
        _new_interfaces := new_interfaces;
        _output := emitted (compare_old_entries format_name new_interfaces
                              first);
        _enabled_warnings := enabled_warnings |}).
Proof.
  intros Hfirst Hget Hname. rewrite compare_fields.
  unfold compare_loops. cbn [_old_interfaces _new_interfaces].
  unfold bind at 1. unfold items. rewrite for_app.
  unfold result, emitted, compare_old_entries in *.
  match goal with
  | H : fst (for_ first ?body []) = _ |- _ =>
      destruct (for_ first body []) as [r out] eqn:Hloop
  end.
  cbn [fst snd] in *. subst r.
  cbn [for_]. unfold bind at 1.
  assert (Hc : contains key new_interfaces = true)
    by (apply contains_getitem; eauto).
  rewrite Hc. cbn [negb]. unfold bind at 1, lookup. rewrite Hget.
  unfold ret. rewrite compare_interfaces_misnamed by exact Hname.
  reflexivity.
Qed.

Lemma X13_failure_keeps_earlier_entries_witness :
  compare qualified_name
    (__init__ (("H", MoreExamples.annotated_I []) :: MoreExamples.misnamed_old)
       MoreExamples.misnamed_new WARNING_CATEGORIES)
  = (Raises AssertionError,
     set_output
       (__init__
          (("H", MoreExamples.annotated_I []) :: MoreExamples.misnamed_old)
          MoreExamples.misnamed_new WARNING_CATEGORIES)
       [(OUTPUT_BACKWARDS_INCOMPATIBLE, "Interface ‘H’ has been removed.")]).
Proof.
  apply (X13_failure_keeps_earlier_entries qualified_name
           [("H", MoreExamples.annotated_I [])] [] "I"
           (MoreExamples.annotated_I [])
           (ASTInterface.Build "J" [] [] [] [])
           MoreExamples.misnamed_new [] WARNING_CATEGORIES).
  - reflexivity.
  - reflexivity.
  - simpl. discriminate.
Defined.

(** * Further properties of the parser *)

(** X14: a document without grammar violation parses to the mapping it
    declares, in both modes: with and without recovery [parse] returns the
    mapping read off the element tree (every interface element under its
    name, with its methods, properties, signals and annotations, in document
    order) and leaves the ledger as it was; in this mapping the names are
    unique and every interface and member is stored under its name. *)
Theorem X14_clean_document_parses (source : string) (document : xml)
    (ledger : list log_entry) :
  document_violations document = [] ->
  valid_interfaces (document_interfaces document) = true
  /\ forall recover,
       parse source document recover ledger
       = (Parsed (Some (document_interfaces document)), ledger).
Proof.
  rewrite <- violations_of_grammar. intros Hnone.
  destruct (no_violation_result document Hnone)
    as (interfaces & Hresult & Hvalid).
  rewrite <- (parse_document_reads document interfaces Hresult).
  split; [exact Hvalid|].
  intros recover. unfold parse.
  rewrite (parse_document_faithful source recover document).
  unfold violations in Hnone. rewrite Hnone, Hresult.
  destruct recover; [now rewrite app_nil_r | reflexivity].
Qed.

Lemma X14_clean_document_parses_witness :
  document_violations ParserTests.documented = []
  /\ document_interfaces ParserTests.documented = ParserTests.plain_model
  /\ forall recover,
       parse "test.xml" ParserTests.documented recover []
       = (Parsed (Some ParserTests.plain_model), []).
Proof.
  split; [reflexivity|]. split; [reflexivity|].
  apply (X14_clean_document_parses "test.xml" ParserTests.documented []).
  reflexivity.
Defined.

(** X15: two mappings that [parse] returned can always be compared:
    [compare] raises nothing, stores the differences of the two mappings (its
    removed and compared interfaces in the order of the old document, then
    the added ones in the order of the new document) and returns those of the
    enabled categories. *)
Theorem X15_parsed_documents_compare (format_name : node -> string)
    (old_source new_source : string) (old_document new_document : xml)
    (old_recover new_recover : bool)
    (old_ledger old_ledger' new_ledger new_ledger' : list log_entry)
    (old_interfaces new_interfaces : dict ASTInterface.t)
    (stored : list entry) (enabled_warnings : list string) :
  parse old_source old_document old_recover old_ledger
  = (Parsed (Some old_interfaces), old_ledger') ->
  parse new_source new_document new_recover new_ledger
  = (Parsed (Some new_interfaces), new_ledger') ->
  let self := {| _old_interfaces := old_interfaces;
                 _new_interfaces := new_interfaces;
                 _output := stored;
                 _enabled_warnings := enabled_warnings |} in
  let after :=
    set_output self
      (interfaces_diffs format_name old_interfaces new_interfaces) in
  compare format_name self = (Returns (get_output after), after).
Proof.
  intros Hold Hnew self after.
  apply (compare_valid format_name self); cbn [self _old_interfaces
                                                 _new_interfaces].
  - apply (parse_document_valid old_document). symmetry.
    exact (parse_result _ _ _ _ _ _ Hold).
  - apply (parse_document_valid new_document). symmetry.
    exact (parse_result _ _ _ _ _ _ Hnew).
Qed.

Lemma X15_parsed_documents_compare_witness :
  parse "old.xml" ParserTests.plain false []
  = (Parsed (Some ParserTests.plain_model), [])
  /\ parse "new.xml" ParserTests.changed true []
     = (Parsed (Some ParserTests.changed_model), [])
  /\ compare qualified_name
       (__init__ ParserTests.plain_model ParserTests.changed_model
          WARNING_CATEGORIES)
     = (Returns
          [(OUTPUT_BACKWARDS_INCOMPATIBLE,
            "Argument x of method ‘I.M’ has been added.");
           (OUTPUT_BACKWARDS_INCOMPATIBLE,
            "Property ‘I.P’ has changed type from ‘s’ to ‘i’.");
           (OUTPUT_FORWARDS_INCOMPATIBLE,
            "Property ‘I.P’ has changed access from ‘read’ to ‘readwrite’, becoming less restrictive.");
           (OUTPUT_FORWARDS_INCOMPATIBLE, "Interface ‘K’ has been added.")],
        set_output
          (__init__ ParserTests.plain_model ParserTests.changed_model
             WARNING_CATEGORIES)
          [(OUTPUT_BACKWARDS_INCOMPATIBLE,
            "Argument x of method ‘I.M’ has been added.");
           (OUTPUT_BACKWARDS_INCOMPATIBLE,
            "Property ‘I.P’ has changed type from ‘s’ to ‘i’.");
           (OUTPUT_FORWARDS_INCOMPATIBLE,
            "Property ‘I.P’ has changed access from ‘read’ to ‘readwrite’, becoming less restrictive.");
           (OUTPUT_FORWARDS_INCOMPATIBLE, "Interface ‘K’ has been added.")]).
Proof.
  assert (Hold : parse "old.xml" ParserTests.plain false []
                 = (Parsed (Some ParserTests.plain_model), []))
    by reflexivity.
  assert (Hnew : parse "new.xml" ParserTests.changed true []
                 = (Parsed (Some ParserTests.changed_model), []))
    by reflexivity.
  split; [exact Hold|]. split; [exact Hnew|].
  exact (X15_parsed_documents_compare qualified_name "old.xml" "new.xml"
           ParserTests.plain ParserTests.changed false true [] [] [] []
           ParserTests.plain_model ParserTests.changed_model []
           WARNING_CATEGORIES Hold Hnew).
Defined.

